(** * Sudoku engine: domain calculator, full-grid generator, carver, solver

    A shallow embedding of [sudoku_generator.py], of the solver and the
    index conversion of [sudoku_utility.py], and of the puzzle assembler
    and the seed bookkeeping of [sudoku_play.py], with the properties of
    the design document stated and settled against it, and further
    properties read off the code.

    Conventions of the embedding.
    - A numpy 2-D integer array is a [list (list Z)] (a list of rows).
    - Python exceptions are values of [exn]; a call returns a [result].
    - In [available_digits], [int(n ** (1/2))] is the integer square root
      [Nat.sqrt] of the side of an array (the float power is exact on the
      sides of arrays that fit in memory).
    - [list(set(range(1, 1+n0)) - set(exist_lst))] is listed in ascending
      order, the iteration order of a set of small integers; no property
      below depends on that order except the order of the solution list.
    - [random.seed] / [random.shuffle] are a generator state with a
      shuffle operation that returns some permutation of its argument.
      A seed of the type [seedT] fixes the state it sets; the seed [None],
      which draws another state at every call, is met in the assembler
      only, where it is an [option].
    - A finite Python float is the rational it stands for, and a float
      operation rounds its exact result to binary64 ([fl]); an argument
      that is a float (a ratio, the difficulty) is given by the rational
      of that float.
    - A Python [str] is the list of its characters, of code below 256;
      [int] and [str] have the digit limit of CPython 3.11. *)

From Stdlib Require Import ZArith List Lia Bool Arith Permutation FinFun.
From Stdlib Require Import QArith Qround Qabs Lqa.
From Stdlib Require String Ascii DecimalString DecimalN DecimalPos.
Import ListNotations.
Open Scope Z_scope.

(** ** Exceptions and results *)

Inductive exn : Type :=
| NotSquareGrid      (* available_digits(): <sudoku_array> not a squared size *)
| ValueOverflow      (* available_digits(): <sudoku_array> max value overflow *)
| OutOfRange         (* available_digits(): input <pos_x/y> out of range *)
| InvalidSize        (* gen_sudoku_full(): <array_size> not int or squared *)
| InvalidSolution    (* gen_sudoku_puzzle(): value overflow / inconsistent *)
| ZeroSizeReduction  (* numpy: zero-size array to reduction operation *)
| EmptySequence      (* min() arg is an empty sequence *)
| TypeError          (* int() of a complex number *)
| IndexError         (* list index out of range, pop from empty list *)
| ZeroDivisionError  (* division by zero *)
| OverflowError.     (* int too large to convert to float, int(inf) *)

Inductive result (A : Type) : Type :=
| Ok (a : A)
| Raise (e : exn).
Arguments Ok {A} a.
Arguments Raise {A} e.

Definition bind {A B} (r : result A) (k : A -> result B) : result B :=
  match r with
  | Ok a => k a
  | Raise e => Raise e
  end.

Notation "x <- r ;; k" := (bind r (fun x => k))
  (at level 61, r at next level, right associativity).
Notation "' p <- r ;; k" := (bind r (fun p => k))
  (at level 61, p pattern, r at next level, right associativity).

(** ** Arrays *)

Definition grid := list (list Z).

Definition shape0 (a : grid) : nat := length a.
Definition shape1 (a : grid) : nat :=
  match a with
  | [] => 0%nat
  | r :: _ => length r
  end.

(** [a[x, y]] *)
Definition get (a : grid) (x y : nat) : Z := nth y (nth x a []) 0.

Fixpoint upd {A} (n : nat) (f : A -> A) (l : list A) : list A :=
  match l, n with
  | [], _ => []
  | h :: t, O => f h :: t
  | h :: t, S m => h :: upd m f t
  end.

(** [a[x, y] = v], at an index inside the array. *)
Definition set_cell (a : grid) (x y : nat) (v : Z) : grid :=
  upd x (upd y (fun _ => v)) a.

(** [l[lo:hi]] for non-negative bounds *)
Definition slice {A} (lo hi : nat) (l : list A) : list A :=
  firstn (hi - lo) (skipn lo l).

(** [a.flatten()] *)
Definition flatten (a : grid) : list Z := concat a.

(** [np.max(a)] and [np.min(a)]; numpy raises on an array without elements *)
Definition np_max (a : grid) : result Z :=
  match flatten a with
  | [] => Raise ZeroSizeReduction
  | h :: t => Ok (fold_left Z.max t h)
  end.

Definition np_min (a : grid) : result Z :=
  match flatten a with
  | [] => Raise ZeroSizeReduction
  | h :: t => Ok (fold_left Z.min t h)
  end.

(** [len(a[a == 0])], [np.count_nonzero(a == 0)] *)
Definition count_zeros (a : grid) : nat :=
  length (filter (Z.eqb 0) (flatten a)).

(** [np.nonzero(a == 0)]: the coordinates of the zero cells, row-major *)
Definition zeros_of_row (x : nat) (r : list Z) : list (nat * nat) :=
  map (fun y => (x, y))
      (filter (fun y => nth y r 0 =? 0) (seq 0 (length r))).

Definition nonzero_eq0 (a : grid) : list (nat * nat) :=
  flat_map (fun xr => zeros_of_row (fst xr) (snd xr))
           (combine (seq 0 (length a)) a).

(** [range(1, 1+n0)] *)
Definition range1 (n0 : nat) : list Z := map Z.of_nat (seq 1 n0).

Definition memZ (v : Z) (l : list Z) : bool := existsb (Z.eqb v) l.

(** ** Domain calculator: [available_digits] *)

(** [a[:, y]] *)
Definition column (a : grid) (y : nat) : list Z := map (fun r => nth y r 0) a.

(** [a[bx*n1:(bx+1)*n1, by*n1:(by+1)*n1].flatten()] *)
Definition box (a : grid) (n1 bx by_ : nat) : list Z :=
  flatten (map (slice (by_ * n1) ((by_ + 1) * n1))
               (slice (bx * n1) ((bx + 1) * n1) a)).

(** The three scans of one queried cell. *)
Definition exist_lst (a : grid) (n1 ix iy : nat) : list Z :=
  let ix1 := (ix / n1)%nat in
  let iy1 := (iy / n1)%nat in
  nth ix a [] ++ column a iy ++ box a n1 ix1 iy1.

Definition avail_at (a : grid) (n0 n1 : nat) (p : nat * nat) : list Z :=
  filter (fun v => negb (memZ v (exist_lst a n1 (fst p) (snd p)))) (range1 n0).

Definition available_digits (a : grid) (pos : option (Z * Z))
  : result (list (list Z) * list nat * list nat) :=
  let n0 := shape0 a in
  let n1 := Nat.sqrt n0 in
  if negb (n0 =? shape1 a)%nat || negb (n0 =? n1 ^ 2)%nat
  then Raise NotSquareGrid
  else
    m <- np_max a ;;
    if Z.of_nat n0 <? m then Raise ValueOverflow
    else
      cells <- match pos with
               | None => Ok (nonzero_eq0 a)
               | Some (px, py) =>
                   if (px <? 0) || (px >=? Z.of_nat n0)
                      || (py <? 0) || (py >=? Z.of_nat n0)
                   then Raise OutOfRange
                   else Ok [(Z.to_nat px, Z.to_nat py)]
               end ;;
      Ok (map (avail_at a n0 n1) cells, map fst cells, map snd cells).

(** ** Solver: [solve_sudoku] *)

(** The nested diagnostic record [solving_record]. *)
#[warnings="-register-all"]
Inductive rec : Type :=
| RInt (n : Z)
| RArr (g : grid)
| RList (l : list rec).

(** [min(l)] on a Python list *)
Definition py_min (l : list nat) : result nat :=
  match l with
  | [] => Raise EmptySequence
  | h :: t => Ok (fold_left Nat.min t h)
  end.

(** [[i for i, n in enumerate(l) if p n]] *)
Definition indices_where (p : nat -> bool) (l : list nat) : list nat :=
  map fst (filter (fun ix => p (snd ix)) (combine (seq 0 (length l)) l)).

(** The propagation step: every index whose candidate list has one member
    is written with that member, one after the other, from the candidate
    lists computed before the first write. *)
Definition fill_singles (arr : grid) (avail_lst : list (list Z))
           (pos_x pos_y : list nat) (indices : list nat) : grid :=
  fold_left (fun a idx =>
               set_cell a (nth idx pos_x 0%nat) (nth idx pos_y 0%nat)
                        (nth 0 (nth idx avail_lst []) 0))
            indices arr.

(** A run of the solver either runs out of fuel ([None]) or ends in a
    result; the solution component is [None] for Python's [None]. *)
Definition solver_out : Type := option (result (option (list grid) * list rec)).

Section Branching.
Variable solve : grid -> solver_out.

(** [for val in avail_lst[idx]: ...] *)
Fixpoint branch_vals (arr : grid) (x y : nat) (vals : list Z)
         (sols : list grid) (record_idx : list rec)
  : option (result (list grid * list rec)) :=
  match vals with
  | [] => Some (Ok (sols, record_idx))
  | val :: vs =>
      match solve (set_cell arr x y val) with
      | None => None
      | Some (Raise e) => Some (Raise e)
      | Some (Ok (tmp_solved, tmp_record)) =>
          branch_vals arr x y vs
                      (match tmp_solved with
                       | None => sols
                       | Some s => sols ++ s
                       end)
                      (record_idx ++ [RList tmp_record])
      end
  end.

(** [for idx in indices: ...] *)
Fixpoint branch_cells (arr : grid) (avail_lst : list (list Z))
         (pos_x pos_y : list nat) (indices : list nat)
         (sols : list grid) (record_indices : list rec)
  : option (result (list grid * list rec)) :=
  match indices with
  | [] => Some (Ok (sols, record_indices))
  | idx :: rest =>
      match branch_vals arr (nth idx pos_x 0%nat) (nth idx pos_y 0%nat)
                        (nth idx avail_lst []) sols [] with
      | None => None
      | Some (Raise e) => Some (Raise e)
      | Some (Ok (sols', record_idx)) =>
          branch_cells arr avail_lst pos_x pos_y rest sols'
                       (record_indices ++ [RList record_idx])
      end
  end.
End Branching.

(** The [while n_zeros > 0] loop together with the code after it.  Both a
    further turn of the loop and a recursive call spend one unit of fuel. *)
Fixpoint solve_loop (fuel : nat) (n0_zeros : nat) (sudoku_arr : grid)
         (n_zeros : nat) : solver_out :=
  match fuel with
  | O => None
  | S fuel' =>
      if (0 <? n_zeros)%nat then
        match available_digits sudoku_arr None with
        | Raise e => Some (Raise e)
        | Ok (avail_lst, pos_x, pos_y) =>
            let n_avail := map (@length Z) avail_lst in
            match py_min n_avail with
            | Raise e => Some (Raise e)
            | Ok mn =>
                if (mn =? 0)%nat then
                  Some (Ok (None,
                            [RInt (Z.of_nat n_zeros
                                   - Z.of_nat (count_zeros sudoku_arr))]))
                else if (mn =? 1)%nat then
                  let indices := indices_where (fun n => (n =? 1)%nat) n_avail in
                  let arr' := fill_singles sudoku_arr avail_lst pos_x pos_y
                                           indices in
                  solve_loop fuel' n0_zeros arr' (count_zeros arr')
                else
                  let indices := indices_where (fun n => (n =? mn)%nat) n_avail in
                  match branch_cells
                          (fun tmp => solve_loop fuel' (count_zeros tmp) tmp
                                                 (count_zeros tmp))
                          sudoku_arr avail_lst pos_x pos_y indices []
                          [RInt (Z.of_nat n0_zeros - Z.of_nat n_zeros)] with
                  | None => None
                  | Some (Raise e) => Some (Raise e)
                  | Some (Ok (sols, record_indices)) =>
                      Some (Ok (Some sols, [RList record_indices]))
                  end
            end
        end
      else
        Some (Ok (Some [sudoku_arr],
                  [RList [RInt (Z.of_nat n0_zeros - Z.of_nat n_zeros);
                          RArr sudoku_arr]]))
  end.

Definition solve_sudoku (fuel : nat) (sudoku_array : grid) : solver_out :=
  let n0_zeros := count_zeros sudoku_array in
  solve_loop fuel n0_zeros sudoku_array n0_zeros.

(** The solutions of a finished run. *)
Definition solutions_of (o : solver_out) : option (option (list grid)) :=
  match o with
  | Some (Ok (s, _)) => Some s
  | _ => None
  end.

(** ** Python list access *)

(** [l[k]] with Python's wrap-around of a negative index *)
Definition py_get {A} (l : list A) (k : Z) : result A :=
  let k' := if k <? 0 then k + Z.of_nat (length l) else k in
  if k' <? 0 then Raise IndexError
  else match nth_error l (Z.to_nat k') with
       | Some v => Ok v
       | None => Raise IndexError
       end.

(** [l[k] = f(l[k])] with the same wrap-around *)
Definition py_upd {A} (l : list A) (k : Z) (f : A -> A) : result (list A) :=
  let k' := if k <? 0 then k + Z.of_nat (length l) else k in
  if (k' <? 0) || (Z.of_nat (length l) <=? k') then Raise IndexError
  else Ok (upd (Z.to_nat k') f l).

(** [my, mx = np.meshgrid(np.arange(0, n0), np.arange(0, n0))], flattened:
    [mx] is the row and [my] the column of the cells in row-major order. *)
Definition mesh_x (n0 : nat) : list nat :=
  flat_map (fun x => repeat x n0) (seq 0 n0).
Definition mesh_y (n0 : nat) : list nat :=
  concat (repeat (seq 0 n0) n0).

(** [np.zeros((n0, n0), dtype=int)] *)
Definition np_zeros (n0 : nat) : grid := repeat (repeat 0 n0) n0.

(** ** Binary64 arithmetic *)

(** A finite Python float is the rational it stands for.  The result of
    a float operation is the binary64 number nearest to its exact result,
    a tie going to the even mantissa (IEEE 754, which Python's [*], [/]
    and the conversion of an [int] follow); a result of magnitude
    [2 ^ 1024] or more is an infinity. *)

(** [2 ^ t] for an exponent of either sign *)
Definition pow2 (t : Z) : Q :=
  if 0 <=? t then inject_Z (2 ^ t) else / inject_Z (2 ^ (- t)).

(** The exponent [e] of [q > 0]: [2 ^ e <= q < 2 ^ (e + 1)]. *)
Definition binade (q : Q) : Z :=
  if Qle_bool 1 q then Z.log2 (Qfloor q)
  else
    let l := Z.log2 (Qfloor (/ q)) in
    if Qle_bool (pow2 (- l)) q then - l else - l - 1.

(** The integer nearest to [x], a tie going to the even one. *)
Definition nearest_even (x : Q) : Z :=
  let f := Qfloor x in
  let r := (x - inject_Z f)%Q in
  match (r ?= 1 # 2)%Q with
  | Lt => f
  | Gt => f + 1
  | Eq => if Z.even f then f else f + 1
  end.

(** The multiple of the quantum [2 ^ max(e - 52, -1074)] nearest to
    [q]: a mantissa of 53 bits, or fewer below [2 ^ -1022]. *)
Definition round64 (q : Q) : Q :=
  if Qeq_bool q 0 then 0
  else
    let t := Z.max (binade (Qabs q) - 52) (-1074) in
    Qred (inject_Z (nearest_even (q / pow2 t)) * pow2 t).

(** The float for the exact result [q]; [None] is an infinity. *)
Definition fl (q : Q) : option Q :=
  let v := round64 q in
  if Qle_bool (inject_Z (2 ^ 1024)) (Qabs v) then None else Some v.

(** [x ** (1/2)] for a float [x >= 0] that is an integer.  The power
    function of the C library is accurate to less than one unit in the
    last place, and its last bit is not specified: it returns the square
    root when that is a float, as for the square of a side of 53 bits or
    fewer, and one of the two floats around it otherwise.  [sqrt64] is
    the nearer of the two.  Where the two differ the size check of the
    generator gives the same verdict for either ([size_check_any_root]). *)
Definition sqrt64 (x : Z) : Q :=
  if x <=? 0 then 0
  else
    let t := Z.log2 x / 2 - 52 in
    let y := (inject_Z x / pow2 (2 * t))%Q in
    let m0 := Z.sqrt (Qfloor y) in
    let m := match (4 * y ?= inject_Z ((2 * m0 + 1) ^ 2))%Q with
             | Lt => m0
             | Gt => m0 + 1
             | Eq => if Z.even m0 then m0 else m0 + 1
             end in
    Qred (inject_Z m * pow2 t).

(** [int(array_size ** (1/2))]: the size is converted to a float, which
    fails on an [int] too large for one; a negative float has a complex
    number for square root, which [int] refuses. *)
Definition size_root (array_size : Z) : result Z :=
  match fl (inject_Z array_size) with
  | None => Raise OverflowError
  | Some x =>
      if Qle_bool 0 x then Ok (Qfloor (sqrt64 (Qfloor x)))
      else Raise TypeError
  end.

(** ** Randomness, full-grid generator, carver, assembler *)

Section Random.

(** The process-wide generator: [random.seed(s)] resets its state and
    [random.shuffle(l)] permutes [l] in place and advances the state.  A
    seed [s : seedT] is an [int] or a [str], which fixes the state that
    [random.seed(s)] sets, or stands for the state that one call of
    [random.seed(None)] draws from the system. *)
Variable rng : Type.
Variable seedT : Type.
Variable random_seed_state : seedT -> rng.
Variable shuffle : forall A : Type, rng -> list A -> list A * rng.

(** *** [gen_sudoku_full] *)

Record gen_state : Type := mk_gen_state {
  gs_full : grid;                (* sudoku_full *)
  gs_avail : list (list Z);      (* avail_lst *)
  gs_i : Z;                      (* i *)
  gs_rng : rng
}.

(** The inner loop [while len(avail_lst[i-1]) == 1: ...].  Every turn pops
    [avail_lst], so [n], the length of [avail_lst] at entry, bounds the
    number of turns: with [n = 0] the list is empty and the index raises. *)
Fixpoint rollback (n : nat) (mx my : list nat) (st : gen_state)
  : result gen_state :=
  fr <- py_get (gs_avail st) (gs_i st - 1) ;;
  if (length fr =? 1)%nat then
    match n with
    | O => Raise IndexError
    | S n' =>
        x <- py_get mx (gs_i st - 1) ;;
        y <- py_get my (gs_i st - 1) ;;
        rollback n' mx my
                 {| gs_full := set_cell (gs_full st) x y 0;
                    gs_avail := removelast (gs_avail st);
                    gs_i := gs_i st - 1;
                    gs_rng := gs_rng st |}
    end
  else Ok st.

(** One turn of [while i < len(mx)]. *)
Definition gen_step (mx my : list nat) (st : gen_state) : result gen_state :=
  x <- py_get mx (gs_i st) ;;
  y <- py_get my (gs_i st) ;;
  '(a_lsts, _, _) <- available_digits (gs_full st)
                                      (Some (Z.of_nat x, Z.of_nat y)) ;;
  a_lst <- py_get a_lsts 0 ;;
  if (length a_lst =? 0)%nat then
    st1 <- rollback (length (gs_avail st)) mx my st ;;
    fr <- py_get (gs_avail st1) (gs_i st1 - 1) ;;
    match fr with
    | [] => Raise IndexError                       (* pop from empty list *)
    | _ :: fr' =>
        avail' <- py_upd (gs_avail st1) (gs_i st1 - 1) (fun _ => fr') ;;
        x1 <- py_get mx (gs_i st1 - 1) ;;
        y1 <- py_get my (gs_i st1 - 1) ;;
        v <- py_get fr' 0 ;;
        Ok {| gs_full := set_cell (gs_full st1) x1 y1 v;
              gs_avail := avail';
              gs_i := gs_i st1;
              gs_rng := gs_rng st1 |}
    end
  else
    let (a_lst', g') := shuffle Z (gs_rng st) a_lst in
    v <- py_get a_lst' 0 ;;
    Ok {| gs_full := set_cell (gs_full st) x y v;
          gs_avail := gs_avail st ++ [a_lst'];
          gs_i := gs_i st + 1;
          gs_rng := g' |}.

Fixpoint gen_loop (fuel : nat) (mx my : list nat) (st : gen_state)
  : option (result grid) :=
  match fuel with
  | O => None
  | S fuel' =>
      if gs_i st <? Z.of_nat (length mx) then
        match gen_step mx my st with
        | Raise e => Some (Raise e)
        | Ok st' => gen_loop fuel' mx my st'
        end
      else Some (Ok (gs_full st))
  end.

Definition gen_init (n0 : nat) (random_seed : seedT) : gen_state :=
  {| gs_full := np_zeros n0; gs_avail := []; gs_i := 0;
     gs_rng := random_seed_state random_seed |}.

(** The size check is [array_size != int(array_size ** (1/2)) ** 2], on
    an [int]; its errors are those of [size_root]. *)
Definition gen_sudoku_full (fuel : nat) (array_size : Z) (random_seed : seedT)
  : option (result grid) :=
  match size_root array_size with
  | Raise e => Some (Raise e)
  | Ok root =>
      if negb (array_size =? root ^ 2) then Some (Raise InvalidSize)
      else
        let n0 := Z.to_nat array_size in
        gen_loop fuel (mesh_x n0) (mesh_y n0) (gen_init n0 random_seed)
  end.

(** *** [gen_sudoku_puzzle] *)

(** [int(q)] on a float: truncation towards zero *)
Definition py_int (q : Q) : Z :=
  if Qle_bool 0 q then Qfloor q else Qceiling q.

(** [nmax_idx]: for a ratio, [max([1, int(max_removed_ratio * n0**2)])].
    The ratio is a float; [n0**2] is converted to a float, which fails on
    an [int] too large for one; the product is a float product, and [int]
    refuses an infinity. *)
Definition nmax_idx_of (max_removed_ratio : option Q) (n0 : nat) : result Z :=
  match max_removed_ratio with
  | None => Ok (-1)
  | Some r =>
      match fl (inject_Z (Z.of_nat n0 ^ 2)) with
      | None => Raise OverflowError
      | Some s =>
          match fl (r * s) with
          | None => Raise OverflowError
          | Some x => Ok (Z.max 1 (py_int x))
          end
      end
  end.

(** [len(set(row))] *)
Definition distinct_count (row : list Z) : nat := length (nodup Z.eq_dec row).

(** The checks at the head of [gen_sudoku_puzzle]. *)
Definition check_full (sudoku_full : grid) : result unit :=
  let n0 := shape0 sudoku_full in
  mx_v <- np_max sudoku_full ;;
  mn_v <- np_min sudoku_full ;;
  if (Z.of_nat n0 <? mx_v) || (mn_v <? 1) then Raise InvalidSolution
  else if existsb (fun row => negb (distinct_count row =? n0)%nat) sudoku_full
       then Raise InvalidSolution
       else Ok tt.

(** [for i in idx: ...] *)
Fixpoint carve_loop (mx my : list nat) (idx : list nat) (sudoku_array : grid)
         (nmax_idx : Z) : result grid :=
  match idx with
  | [] => Ok sudoku_array
  | i :: rest =>
      x <- py_get mx (Z.of_nat i) ;;
      y <- py_get my (Z.of_nat i) ;;
      let tmp := set_cell sudoku_array x y 0 in
      '(a_lst, _, _) <- available_digits tmp (Some (Z.of_nat x, Z.of_nat y)) ;;
      a0 <- py_get a_lst 0 ;;
      if (length a0 =? 1)%nat then
        let sudoku_array' := set_cell sudoku_array x y 0 in
        let nmax_idx' := nmax_idx - 1 in
        if nmax_idx' =? 0 then Ok sudoku_array'
        else carve_loop mx my rest sudoku_array' nmax_idx'
      else carve_loop mx my rest sudoku_array nmax_idx
  end.

Definition gen_sudoku_puzzle (sudoku_full : grid) (max_removed_ratio : option Q)
           (random_seed : seedT) : result grid :=
  let n0 := shape0 sudoku_full in
  _ <- check_full sudoku_full ;;
  nmax_idx <- nmax_idx_of max_removed_ratio n0 ;;
  let idx := fst (shuffle nat (random_seed_state random_seed)
                          (seq 0 (n0 ^ 2))) in
  carve_loop (mesh_x n0) (mesh_y n0) idx sudoku_full nmax_idx.

(** *** [gen_customized_puzzle] *)

(** [random.seed(None)] seeds from the entropy of the system, a new state
    at every call: [entropy c] is the seed that stands for the state drawn
    by the [c]-th seeding of a call of the assembler.  A seed that is
    given, [Some s], sets the same state at each of the three seedings. *)
Variable entropy : nat -> seedT.

Definition seed_of_call (random_seed : option seedT) (call : nat) : seedT :=
  match random_seed with
  | Some s => s
  | None => entropy call
  end.

(** The two ratios are floats: the quotient of two [int]s, rounded once,
    and its float product with [difficulty], itself a float.  A product
    that is an infinity is passed on to the carver, whose checks pass as
    in the call before and which fails in [int] on it. *)
Definition gen_customized_puzzle (fuel : nat) (array_size : Z)
           (random_seed : option seedT) (difficulty : Q)
  : option (result (grid * grid)) :=
  match gen_sudoku_full fuel array_size (seed_of_call random_seed 0) with
  | None => None
  | Some (Raise e) => Some (Raise e)
  | Some (Ok c_solution) =>
      Some (puzzle_max <- gen_sudoku_puzzle c_solution None
                                            (seed_of_call random_seed 1) ;;
            if array_size ^ 2 =? 0 then Raise ZeroDivisionError
            else
              match fl (inject_Z (Z.of_nat (count_zeros puzzle_max))
                        / inject_Z (array_size ^ 2)) with
              | None => Raise OverflowError
              | Some max_removed_ratio =>
                  match fl (difficulty * max_removed_ratio) with
                  | None => Raise OverflowError
                  | Some removed_ratio =>
                      c_puzzle <- gen_sudoku_puzzle
                                    c_solution (Some removed_ratio)
                                    (seed_of_call random_seed 2) ;;
                      Ok (c_puzzle, c_solution)
                  end
              end)
  end.

End Random.

Arguments mk_gen_state {rng} _ _ _ _.
Arguments gs_full {rng} _.
Arguments gs_avail {rng} _.
Arguments gs_i {rng} _.
Arguments gs_rng {rng} _.

(** ** Properties of grids *)

Definition is_perm_1N (n0 : nat) (l : list Z) : Prop :=
  Permutation l (range1 n0).

(** An array of [n0] rows of [n0] entries. *)
Definition square_shape (n0 : nat) (a : grid) : Prop :=
  length a = n0 /\ Forall (fun r => length r = n0) a.

(** A complete grid: every row, column and box is a permutation of [1..N]. *)
Definition complete_valid (a : grid) : Prop :=
  let n0 := shape0 a in
  let n1 := Nat.sqrt n0 in
  n0 = (n1 * n1)%nat
  /\ (forall x, (x < n0)%nat -> is_perm_1N n0 (nth x a []))
  /\ (forall y, (y < n0)%nat -> is_perm_1N n0 (column a y))
  /\ (forall bx by_, (bx < n1)%nat -> (by_ < n1)%nat ->
                     is_perm_1N n0 (box a n1 bx by_)).

(** A valid partial grid: no duplicate among the non-zero values of a row,
    a column or a box. *)
Definition nonzero (l : list Z) : list Z := filter (fun v => negb (v =? 0)) l.

Definition valid_partial (a : grid) : Prop :=
  let n0 := shape0 a in
  let n1 := Nat.sqrt n0 in
  square_shape n0 a /\ n0 = (n1 * n1)%nat
  /\ (forall x, (x < n0)%nat -> NoDup (nonzero (nth x a [])))
  /\ (forall y, (y < n0)%nat -> NoDup (nonzero (column a y)))
  /\ (forall bx by_, (bx < n1)%nat -> (by_ < n1)%nat ->
                     NoDup (nonzero (box a n1 bx by_))).

(** [s] keeps every filled cell of [p]. *)
Definition agrees (p s : grid) : Prop :=
  forall x y, get p x y <> 0 -> get s x y = get p x y.

(** [s] is a completion of [p]. *)
Definition completion_of (p s : grid) : Prop :=
  shape0 s = shape0 p /\ complete_valid s /\ agrees p s.

(** Some empty cell of [a] has no candidate. *)
Definition dead_end (a : grid) : Prop :=
  exists avail_lst pos_x pos_y,
    available_digits a None = Ok (avail_lst, pos_x, pos_y)
    /\ In [] avail_lst.

(** The loop of [solve_sudoku] meets a dead end, at once or after some
    turns of propagation. *)
Inductive reaches_dead_end : grid -> Prop :=
| rde_now : forall a, dead_end a -> reaches_dead_end a
| rde_propagate : forall a avail_lst pos_x pos_y,
    available_digits a None = Ok (avail_lst, pos_x, pos_y) ->
    py_min (map (@length Z) avail_lst) = Ok 1%nat ->
    reaches_dead_end
      (fill_singles a avail_lst pos_x pos_y
         (indices_where (fun n => (n =? 1)%nat) (map (@length Z) avail_lst))) ->
    reaches_dead_end a.

(** A generator whose shuffle returns a permutation of its argument. *)
Definition shuffle_permutes (rng : Type)
           (shuffle : forall A : Type, rng -> list A -> list A * rng) : Prop :=
  forall (A : Type) (g : rng) (l : list A), Permutation l (fst (shuffle A g l)).

(** Two generators used to run the code on concrete inputs: one leaves the
    list as it is, one reverses it. *)
Definition id_shuffle (A : Type) (g : unit) (l : list A) : list A * unit :=
  (l, g).
Definition rev_shuffle (A : Type) (g : unit) (l : list A) : list A * unit :=
  (rev l, g).
Definition unit_seed (s : unit) : unit := s.

(** Modelled from the spec: [round] of the assembler's removal cap, which
    the source does not call; Python's [round] takes a tie to the even
    neighbour. *)
Definition py_round (q : Q) : Z :=
  let f := Qfloor q in
  let r := (q - inject_Z f)%Q in
  if Qlt_le_dec r (1 # 2) then f
  else if Qlt_le_dec (1 # 2) r then f + 1
       else if Z.even f then f else f + 1.

(** Modelled from the spec: the cap [max(1, round(targetRatio * N^2))]. *)
Definition spec_cap (target_ratio : Q) (n0 : nat) : Z :=
  Z.max 1 (py_round (target_ratio * inject_Z (Z.of_nat n0 ^ 2))).

(** *** Grids used as concrete inputs *)

(** The cell [(0,0)] has no candidate: its row holds 2, 3, 4 and its
    column holds 1. *)
Definition g_dead : grid :=
  [[0;2;3;4];
   [0;0;0;0];
   [1;0;0;0];
   [0;0;0;0]].

(** A duplicate-free partial grid on which the cells [(1,0)] and [(1,2)]
    both have the single candidate 1. *)
Definition g_clash : grid :=
  [[4;3;2;0];
   [0;2;0;3];
   [3;1;4;2];
   [2;4;3;0]].

Definition g_clash_out : grid :=
  [[4;3;2;1];
   [1;2;1;3];
   [3;1;4;2];
   [2;4;3;1]].

(** A partial grid with exactly two completions. *)
Definition g_two : grid :=
  [[1;2;0;0];
   [3;4;0;0];
   [2;1;4;3];
   [4;3;0;0]].

Definition g_two_a : grid :=
  [[1;2;3;4];
   [3;4;1;2];
   [2;1;4;3];
   [4;3;2;1]].

Definition g_two_b : grid :=
  [[1;2;3;4];
   [3;4;2;1];
   [2;1;4;3];
   [4;3;1;2]].


(** Two cells share a row, a column or a box of side [k]. *)
Definition related (k x y x' y' : nat) : Prop :=
  x' = x \/ y' = y \/ ((x' / k)%nat = (x / k)%nat /\ (y' / k)%nat = (y / k)%nat).

(** The cell-wise reading of a complete grid: every value lies in [1..N]
    and two different related cells hold different values. *)
Definition cells_valid (n0 k : nat) (a : grid) : Prop :=
  (forall x y, (x < n0)%nat -> (y < n0)%nat ->
               1 <= get a x y <= Z.of_nat n0)
  /\ (forall x y x' y',
        (x < n0)%nat -> (y < n0)%nat -> (x' < n0)%nat -> (y' < n0)%nat ->
        related k x y x' y' -> get a x y = get a x' y' ->
        x = x' /\ y = y').

(** What [available_digits] and the solver accept: a square array of side
    [n0 = k * k], [k >= 1], with no entry above [n0]. *)
Definition grid_ok (n0 k : nat) (a : grid) : Prop :=
  square_shape n0 a /\ n0 = (k * k)%nat /\ (0 < k)%nat
  /\ forall x y, (x < n0)%nat -> (y < n0)%nat -> get a x y <= Z.of_nat n0.

(** A grid with negative entries and no entry above 4. *)
Definition g_negative : grid :=
  [[-3;2;0;4];
   [0;0;0;0];
   [1;0;-7;0];
   [0;0;0;0]].

(** Boolean checks used to run the definitions above on concrete grids. *)
Definition is_perm_1Nb (n0 : nat) (l : list Z) : bool :=
  (length l =? n0)%nat && forallb (fun v => memZ v l) (range1 n0).

Definition complete_validb (a : grid) : bool :=
  let n0 := shape0 a in
  let n1 := Nat.sqrt n0 in
  (n0 =? n1 * n1)%nat
  && forallb (fun x => is_perm_1Nb n0 (nth x a [])) (seq 0 n0)
  && forallb (fun y => is_perm_1Nb n0 (column a y)) (seq 0 n0)
  && forallb (fun bx =>
                forallb (fun by_ => is_perm_1Nb n0 (box a n1 bx by_))
                        (seq 0 n1))
             (seq 0 n1).

Definition agreesb (p s : grid) : bool :=
  forallb (fun x =>
             forallb (fun y => (get p x y =? 0) || (get s x y =? get p x y))
                     (seq 0 (length (nth x p []))))
          (seq 0 (length p)).

(** A complete grid of side [k * k] that exists for every [k]: row [x] is
    the cyclic shift of [1..N] by [(x mod k) * k + x / k].  It is used in
    the proofs about the generator, as a grid that the search can reach. *)
Definition shifted_val (k x y : nat) : nat :=
  (((x mod k) * k + x / k + y) mod (k * k))%nat.

Definition shifted_grid (k : nat) : grid :=
  map (fun x => map (fun y => Z.of_nat (shifted_val k x y) + 1)
                    (seq 0 (k * k)))
      (seq 0 (k * k)).

(** *** The invariant of the backtracking loop *)

(** The value of the [j]-th cell in row-major order. *)
Definition cellv (n0 : nat) (a : grid) (j : nat) : Z :=
  get a (j / n0) (j mod n0).

(** The [j']-th cell shares a row, a column or a box with the [j]-th. *)
Definition rel_idx (n0 k j j' : nat) : Prop :=
  related k (j / n0) (j mod n0) (j' / n0) (j' mod n0).

(** The state of the loop of [gen_sudoku_full] when [s] is a complete grid
    that the search has not yet passed: the first [d] cells agree with [s],
    and the value of [s] at cell [d], if that cell is filled, is still
    waiting in its frame. *)
Definition gen_inv_at {rng : Type} (n0 k : nat) (s : grid) (d : nat)
           (st : gen_state rng) : Prop :=
  let avail := gs_avail st in
  let full := gs_full st in
  let m := length avail in
  gs_i st = Z.of_nat m /\ (m <= n0 * n0)%nat
  /\ grid_ok n0 k full
  /\ (forall j, (j < n0 * n0)%nat ->
        cellv n0 full j = if (j <? m)%nat then hd 0 (nth j avail []) else 0)
  /\ (forall j v, (j < m)%nat -> In v (nth j avail []) ->
        1 <= v <= Z.of_nat n0
        /\ forall j', (j' < j)%nat -> rel_idx n0 k j j' ->
                      cellv n0 full j' <> v)
  /\ (forall j, (j < m)%nat -> nth j avail [] <> [])
  /\ (d <= m)%nat
  /\ (forall j, (j < d)%nat -> cellv n0 full j = cellv n0 s j)
  /\ ((d < m)%nat -> In (cellv n0 s d) (tl (nth d avail []))).

(** The bound on the turns still to come: the lengths of the frames read
    as the digits of a number in base [n0 + 2], the cells not yet visited
    counting as the largest digit. *)
Definition horner (B : Z) (lens : list nat) : Z :=
  fold_left (fun acc l => acc * B + Z.of_nat l) lens 0.

Definition gen_measure (n0 : nat) (avail : list (list Z)) : Z :=
  let B := Z.of_nat n0 + 2 in
  (horner B (map (@length Z) avail) + 1)
  * B ^ Z.of_nat (n0 * n0 - length avail) - 1.

(** The states that the loop of [gen_sudoku_full] passes through, from the
    state [st0] at its entry. *)
Inductive gen_reachable (rng : Type)
          (shuffle : forall A : Type, rng -> list A -> list A * rng)
          (n0 : nat) (st0 : gen_state rng) : gen_state rng -> Prop :=
| gr_start : gen_reachable rng shuffle n0 st0 st0
| gr_turn : forall st st',
    gen_reachable rng shuffle n0 st0 st ->
    gs_i st < Z.of_nat (length (mesh_x n0)) ->
    gen_step rng shuffle (mesh_x n0) (mesh_y n0) st = Ok st' ->
    gen_reachable rng shuffle n0 st0 st'.

(** The test of the carver on the cell of index [i]: cleared in a scratch
    copy of [a], the cell has exactly one candidate. *)
Definition tried_single (n0 k : nat) (a : grid) (i : nat) : bool :=
  (length (avail_at (set_cell a (i / n0) (i mod n0) 0) n0 k
                    ((i / n0)%nat, (i mod n0)%nat)) =? 1)%nat.

(** [b] is [a] with some of its empty cells filled with values of
    [1..N]. *)
Definition fills (n0 : nat) (a b : grid) : Prop :=
  forall x y, (x < n0)%nat -> (y < n0)%nat ->
    get b x y = get a x y
    \/ (get a x y = 0 /\ 1 <= get b x y <= Z.of_nat n0).

(** The complete grid [G] is the only completion of the accepted array
    [a]. *)
Definition only_completion (n0 k : nat) (G a : grid) : Prop :=
  grid_ok n0 k a /\ agrees a G
  /\ forall S, complete_valid S -> shape0 S = n0 -> agrees a S -> S = G.

(** ** Index conversion: [convert_index] *)

(** The errors of [convert_index]: the two [ValueError]s it raises itself,
    the [ValueError] of [list.index] and the [IndexError] of a list
    subscript. *)
Inductive convert_exn : Type :=
| Unpaired          (* convert_index(): <pos_x/y> unpaired *)
| IndexOverflow     (* convert_index(): x or y overflow *)
| NotInList         (* list.index(x): x is not in list *)
| SubscriptError.   (* list index out of range *)

Inductive cresult (A : Type) : Type :=
| COk (a : A)
| CRaise (e : convert_exn).
Arguments COk {A} a.
Arguments CRaise {A} e.

Definition cbind {A B} (r : cresult A) (k : A -> cresult B) : cresult B :=
  match r with
  | COk a => k a
  | CRaise e => CRaise e
  end.

Notation "x <~ r ;; k" := (cbind r (fun x => k))
  (at level 61, r at next level, right associativity).
Notation "' p <~ r ;; k" := (cbind r (fun p => k))
  (at level 61, p pattern, r at next level, right associativity).

(** A Python [str] is a [String.string]; the characters at stake are
    ASCII.  [s.upper()] and [s.lower()] change the 26 letters only. *)
Definition upper_char (c : Ascii.ascii) : Ascii.ascii :=
  let n := Ascii.nat_of_ascii c in
  if (97 <=? n)%nat && (n <=? 122)%nat then Ascii.ascii_of_nat (n - 32)
  else c.

Definition lower_char (c : Ascii.ascii) : Ascii.ascii :=
  let n := Ascii.nat_of_ascii c in
  if (65 <=? n)%nat && (n <=? 90)%nat then Ascii.ascii_of_nat (n + 32)
  else c.

Fixpoint str_map (f : Ascii.ascii -> Ascii.ascii) (s : String.string)
  : String.string :=
  match s with
  | String.EmptyString => String.EmptyString
  | String.String c s' => String.String (f c) (str_map f s')
  end.

Definition upper (s : String.string) : String.string := str_map upper_char s.
Definition lower (s : String.string) : String.string := str_map lower_char s.

(** [list(s)] for a string given by its characters: the strings of one
    character each. *)
Definition chars (l : list Ascii.ascii) : list String.string :=
  map (fun c => String.String c String.EmptyString) l.

(** [string.ascii_uppercase]: the letters A to Z. *)
Definition ascii_uppercase : list Ascii.ascii :=
  map Ascii.ascii_of_nat (seq 65 26).

(** [string.printable]: the digits, the small letters, the capital
    letters, the punctuation and the white space, by their codes. *)
Definition printable : list Ascii.ascii :=
  map Ascii.ascii_of_nat
      (seq 48 10 ++ seq 97 26 ++ seq 65 26
       ++ seq 33 15 ++ seq 58 7 ++ seq 91 6 ++ seq 123 4
       ++ [32; 9; 10; 13; 11; 12])%nat.

(** [v in l] *)
Definition str_in (v : String.string) (l : list String.string) : bool :=
  existsb (String.eqb v) l.

(** [l.index(v)] *)
Fixpoint list_index {A} (eqb : A -> A -> bool) (v : A) (l : list A)
  : cresult nat :=
  match l with
  | [] => CRaise NotInList
  | h :: t => if eqb h v then COk 0%nat
              else i <~ list_index eqb v t ;; COk (S i)
  end.

(** [l[i]] for an index that is not negative *)
Definition list_item {A} (l : list A) (i : nat) : cresult A :=
  match nth_error l i with
  | Some v => COk v
  | None => CRaise SubscriptError
  end.

Section ConvertIndex.
Variable array_size : nat.

Definition array_xy : list Z := map Z.of_nat (seq 0 array_size).
Definition display_x : list String.string :=
  chars (firstn array_size ascii_uppercase).
Definition display_y : list String.string :=
  chars (slice 1 (1 + array_size) printable).

(** The body of the loop for two strings. *)
Definition convert_str (x y : String.string) : cresult (Z * Z) :=
  let x := upper x in
  let y := lower y in
  if negb (str_in x display_x) || negb (str_in y display_y)
  then CRaise IndexOverflow
  else
    ix <~ list_index String.eqb x display_x ;;
    vx <~ list_item array_xy ix ;;
    iy <~ list_index String.eqb y display_y ;;
    vy <~ list_item array_xy iy ;;
    COk (vx, vy).

(** The body of the loop for two integers. *)
Definition convert_int (x y : Z) : cresult (String.string * String.string) :=
  if (x <? 0) || (x >? Z.of_nat array_size)
     || (y <? 0) || (y >? Z.of_nat array_size)
  then CRaise IndexOverflow
  else
    ix <~ list_index Z.eqb x array_xy ;;
    vx <~ list_item display_x ix ;;
    iy <~ list_index Z.eqb y array_xy ;;
    vy <~ list_item display_y iy ;;
    COk (vx, vy).

(** [for x, y in zip(pos_x, pos_y): ...] *)
Fixpoint convert_loop {A B} (body : A -> A -> cresult (B * B))
         (pairs : list (A * A)) (pos_x_converted pos_y_converted : list B)
  : cresult (list B * list B) :=
  match pairs with
  | [] => COk (pos_x_converted, pos_y_converted)
  | (x, y) :: rest =>
      '(vx, vy) <~ body x y ;;
      convert_loop body rest (pos_x_converted ++ [vx])
                   (pos_y_converted ++ [vy])
  end.

(** The arguments [pos_x], [pos_y] that the docstring allows: two
    integers, two strings, two lists of integers or two lists of strings
    (the calls of the repository are of these kinds).  The result is a
    pair of lists of array indices or of display indices. *)
Inductive positions : Type :=
| IntPair (x y : Z)
| StrPair (x y : String.string)
| IntLists (xs ys : list Z)
| StrLists (xs ys : list String.string).

Inductive converted : Type :=
| ArrayIndex (xs ys : list Z)
| DisplayIndex (xs ys : list String.string).

Definition convert_index (p : positions) : cresult converted :=
  match p with
  | IntPair x y =>
      '(cx, cy) <~ convert_loop convert_int (combine [x] [y]) [] [] ;;
      COk (DisplayIndex cx cy)
  | StrPair x y =>
      '(cx, cy) <~ convert_loop convert_str (combine [x] [y]) [] [] ;;
      COk (ArrayIndex cx cy)
  | IntLists xs ys =>
      if negb (length xs =? length ys)%nat then CRaise Unpaired
      else
        '(cx, cy) <~ convert_loop convert_int (combine xs ys) [] [] ;;
        COk (DisplayIndex cx cy)
  | StrLists xs ys =>
      if negb (length xs =? length ys)%nat then CRaise Unpaired
      else
        '(cx, cy) <~ convert_loop convert_str (combine xs ys) [] [] ;;
        COk (ArrayIndex cx cy)
  end.

End ConvertIndex.

(** The display index of a row: the capital letter of that rank; of a
    column: the digits 1 to 9, then the small letters. *)
Definition row_letter (x : nat) : String.string :=
  String.String (Ascii.ascii_of_nat (65 + x)) String.EmptyString.

Definition column_symbol (y : nat) : String.string :=
  String.String
    (Ascii.ascii_of_nat (if (y <? 9)%nat then 49 + y else 97 + (y - 9)))
    String.EmptyString.

(** The check, by running the two bodies of the loop, that the cell
    [(x, y)] of an array of side [n] goes to the display index made of
    [row_letter x] and [column_symbol y], that these are left alone by
    [upper] and [lower], and that they go back to [(x, y)]. *)
Definition roundtrip_ok (n x y : nat) : bool :=
  match convert_int n (Z.of_nat x) (Z.of_nat y) with
  | COk (sx, sy) =>
      String.eqb sx (row_letter x) && String.eqb sy (column_symbol y)
      && String.eqb (upper sx) sx && String.eqb (lower sy) sy
      && match convert_str n sx sy with
         | COk (vx, vy) => (vx =? Z.of_nat x) && (vy =? Z.of_nat y)
         | CRaise _ => false
         end
  | CRaise _ => false
  end.

Definition roundtrip_all (bound : nat) : bool :=
  forallb (fun n =>
             forallb (fun x => forallb (roundtrip_ok n x) (seq 0 n))
                     (seq 0 n))
          (seq 0 (S bound)).

(** The check, by running [convert_index], of what becomes of the column
    [y] of an array of side [n] whose symbol is a capital letter. *)
Definition wide_column_ok (n y : nat) : bool :=
  match convert_index n (IntPair 0 (Z.of_nat y)),
        convert_index n (StrPair (row_letter 0) (row_letter (y - 35))) with
  | COk (DisplayIndex [sx] [sy]), COk (ArrayIndex [vx] [vy]) =>
      String.eqb sx (row_letter 0) && String.eqb sy (row_letter (y - 35))
      && (vx =? 0) && (vy =? Z.of_nat (y - 26))
  | _, _ => false
  end.

Definition wide_columns_all (first count : nat) : bool :=
  forallb (fun n => forallb (wide_column_ok n) (seq 35 (Nat.min n 61 - 35)))
          (seq first count).

(** ** The puzzle identifiers of a session: [main_sudoku_play] *)

(** The seed bookkeeping at the head of [while try_again > 0] in
    [main_sudoku_play]; the strings are given by the lists of their
    characters. *)

(** A character is given by its code, below 256. *)

(** [c.isdigit()]: the ten decimal digits and, above the ASCII range, the
    superscripts two, three and one (U+00B2, U+00B3, U+00B9). *)
Definition isdigit (c : Ascii.ascii) : bool :=
  let n := Ascii.nat_of_ascii c in
  ((48 <=? n)%nat && (n <=? 57)%nat)
  || (n =? 178)%nat || (n =? 179)%nat || (n =? 185)%nat.

(** A seed of ASCII characters. *)
Definition ascii_seed (s : list Ascii.ascii) : bool :=
  forallb (fun c => (Ascii.nat_of_ascii c <? 128)%nat) s.

(** [while len(seed_name) > 0 and seed_name[-1].isdigit(): ...], run on
    [seed_name] read from its end; returns [seed_name] and [seed_num]. *)
Fixpoint strip_digits (rev_name seed_num : list Ascii.ascii)
  : list Ascii.ascii * list Ascii.ascii :=
  match rev_name with
  | [] => ([], seed_num)
  | c :: rest =>
      if isdigit c then strip_digits rest (seed_num ++ [c])
      else (rev rev_name, seed_num)
  end.

(** [sys.get_int_max_str_digits()]: the longest string of digits that
    [int] reads and [str] writes, as CPython 3.11 sets it (earlier
    versions have no limit). *)
Definition int_max_str_digits : nat := 4300.

(** The value of a string of decimal digits *)
Definition decimal_value (s : list Ascii.ascii) : option N :=
  option_map N.of_uint
    (DecimalString.NilEmpty.uint_of_string (String.string_of_list_ascii s)).

(** [int(s)] for a string of characters that pass [isdigit]; [None] is the
    [ValueError] of a string that is empty, is longer than the limit or
    holds a character that is no decimal digit. *)
Definition int_of_digits (s : list Ascii.ascii) : option N :=
  match s with
  | [] => None
  | _ => if (int_max_str_digits <? length s)%nat then None
         else decimal_value s
  end.

(** The decimal digits of an integer that is not negative *)
Definition str_of_N (n : N) : list Ascii.ascii :=
  String.list_ascii_of_string
    (DecimalString.NilZero.string_of_uint (N.to_uint n)).

(** [str(n)]; [None] is the [ValueError] of an integer with more digits
    than the limit. *)
Definition py_str (n : N) : option (list Ascii.ascii) :=
  if (n <? 10 ^ N.of_nat int_max_str_digits)%N then Some (str_of_N n)
  else None.

(** The variables [random_seed], [seed_name], [seed_num]; the last two are
    not bound before the turn with [try_again == 2], which sets them. *)
Record seed_vars : Type := mk_seed_vars {
  sv_random_seed : list Ascii.ascii;
  sv_seed_name : list Ascii.ascii;
  sv_seed_num : N
}.

(** The two [if]s at the head of one turn of [while try_again > 0]. *)
Definition seed_turn (try_again : nat) (v : seed_vars) : option seed_vars :=
  match
    (if (try_again =? 2)%nat then
       let (seed_name, seed_num) := strip_digits (rev (sv_random_seed v)) [] in
       match (if (0 <? length seed_num)%nat
              then int_of_digits (rev seed_num) else Some 0%N) with
       | Some n => Some (mk_seed_vars (sv_random_seed v) seed_name n)
       | None => None
       end
     else Some v)
  with
  | None => None
  | Some v1 =>
      if (2 <=? try_again)%nat then
        let seed_num := (sv_seed_num v1 + 1)%N in
        match py_str seed_num with
        | Some digits =>
            Some (mk_seed_vars (sv_seed_name v1 ++ digits)
                               (sv_seed_name v1) seed_num)
        | None => None
        end
      else Some v1
  end.

(** The turns [try_again], [try_again + 1], ... of the loop, as long as the
    player asks for another puzzle. *)
Fixpoint seed_turns (turns try_again : nat) (v : seed_vars)
  : option seed_vars :=
  match turns with
  | O => Some v
  | S t =>
      match seed_turn try_again v with
      | None => None
      | Some v' => seed_turns t (S try_again) v'
      end
  end.

(** The seed of the [j]-th puzzle of a session that starts with the seed
    [s], for [j >= 1]. *)
Definition puzzle_seed (s : list Ascii.ascii) (j : nat)
  : option (list Ascii.ascii) :=
  option_map sv_random_seed (seed_turns j 1 (mk_seed_vars s [] 0%N)).

(** The seed [s] without its longest suffix of digits, and the value of
    that suffix (0 when there is none). *)
Definition seed_prefix (s : list Ascii.ascii) : list Ascii.ascii :=
  fst (strip_digits (rev s) []).

Definition seed_number (s : list Ascii.ascii) : N :=
  match int_of_digits (rev (snd (strip_digits (rev s) []))) with
  | Some n => n
  | None => 0%N
  end.

(** * Lemmas on lists and arrays *)

Section ArrayLemmas.
Local Open Scope nat_scope.

Lemma length_upd : forall (A : Type) (f : A -> A) (l : list A) n,
  length (upd n f l) = length l.
Proof.
  intros A f l; induction l as [|h t IH]; intros [|n]; simpl; auto.
Qed.

Lemma nth_upd : forall (A : Type) (f : A -> A) (l : list A) n m d,
  nth m (upd n f l) d =
  if (n =? m) && (n <? length l) then f (nth m l d) else nth m l d.
Proof.
  intros A f l; induction l as [|h t IH]; intros n m d.
  - simpl. destruct n, m; simpl; try reflexivity.
    rewrite andb_false_r. reflexivity.
  - destruct n as [|n], m as [|m]; simpl; try reflexivity.
    rewrite IH. reflexivity.
Qed.

Lemma nth_upd_same : forall (A : Type) (f : A -> A) (l : list A) n d,
  n < length l -> nth n (upd n f l) d = f (nth n l d).
Proof.
  intros. rewrite nth_upd, Nat.eqb_refl.
  destruct (Nat.ltb_spec n (length l)); [reflexivity | lia].
Qed.

Lemma nth_upd_other : forall (A : Type) (f : A -> A) (l : list A) n m d,
  n <> m -> nth m (upd n f l) d = nth m l d.
Proof.
  intros. rewrite nth_upd.
  destruct (Nat.eqb_spec n m); [contradiction | reflexivity].
Qed.

Lemma get_set_cell_same : forall a x y v,
  x < length a -> y < length (nth x a []) ->
  get (set_cell a x y v) x y = v.
Proof.
  intros. unfold get, set_cell.
  rewrite nth_upd_same by assumption. rewrite nth_upd_same by assumption.
  reflexivity.
Qed.

Lemma get_set_cell_other : forall a x y x' y' v,
  (x, y) <> (x', y') ->
  get (set_cell a x y v) x' y' = get a x' y'.
Proof.
  intros a x y x' y' v Hne. unfold get, set_cell.
  rewrite nth_upd.
  destruct (Nat.eqb_spec x x') as [->|]; simpl; [|reflexivity].
  destruct (x' <? length a); [|reflexivity].
  apply nth_upd_other. congruence.
Qed.

Lemma length_set_cell : forall a x y v, length (set_cell a x y v) = length a.
Proof. intros. apply length_upd. Qed.

Lemma length_row_set_cell : forall a x y v x',
  length (nth x' (set_cell a x y v) []) = length (nth x' a []).
Proof.
  intros. unfold set_cell. rewrite nth_upd.
  destruct ((x =? x') && (x <? length a)); [apply length_upd | reflexivity].
Qed.

Lemma square_shape_rows : forall n0 a,
  square_shape n0 a <->
  length a = n0 /\ forall x, x < n0 -> length (nth x a []) = n0.
Proof.
  unfold square_shape. intros n0 a; split; intros [Hl Hr]; split; auto.
  - intros x Hx. rewrite Forall_forall in Hr. apply Hr, nth_In. lia.
  - apply Forall_forall. intros r Hin.
    destruct (In_nth _ _ [] Hin) as (x & Hx & <-). apply Hr. lia.
Qed.

Lemma square_shape_set_cell : forall n0 a x y v,
  square_shape n0 a -> square_shape n0 (set_cell a x y v).
Proof.
  intros n0 a x y v H. apply square_shape_rows in H. destruct H as [Hl Hr].
  apply square_shape_rows. split.
  - rewrite length_set_cell. assumption.
  - intros x' Hx'. rewrite length_row_set_cell. auto.
Qed.

(** Two arrays of one shape with the same cells are equal. *)
Lemma grid_ext : forall n0 a b,
  square_shape n0 a -> square_shape n0 b ->
  (forall x y, x < n0 -> y < n0 -> get a x y = get b x y) ->
  a = b.
Proof.
  intros n0 a b Ha Hb Hget.
  apply square_shape_rows in Ha. destruct Ha as [Hla Hra].
  apply square_shape_rows in Hb. destruct Hb as [Hlb Hrb].
  apply (nth_ext a b [] []); [congruence|].
  intros x Hx. rewrite Hla in Hx.
  apply (nth_ext _ _ 0%Z 0%Z); [rewrite Hra, Hrb; auto|].
  intros y Hy. rewrite Hra in Hy by assumption. apply Hget; assumption.
Qed.

Lemma nth_nil : forall (A : Type) n (d : A), nth n [] d = d.
Proof. intros A [|n] d; reflexivity. Qed.

Lemma nth_slice : forall (A : Type) lo hi (l : list A) j d,
  j < hi - lo -> nth j (slice lo hi l) d = nth (lo + j) l d.
Proof.
  intros. unfold slice. rewrite nth_firstn.
  destruct (Nat.ltb_spec j (hi - lo)); [apply nth_skipn | lia].
Qed.

Lemma length_slice : forall (A : Type) lo hi (l : list A),
  hi <= length l -> length (slice lo hi l) = hi - lo.
Proof.
  intros. unfold slice. rewrite length_firstn, length_skipn. lia.
Qed.

Lemma length_concat_rect : forall (A : Type) k (ls : list (list A)),
  Forall (fun l => length l = k) ls -> length (concat ls) = length ls * k.
Proof.
  intros A k ls H; induction H as [|l ls Hl _ IH]; simpl; [reflexivity|].
  rewrite length_app, IH, Hl. reflexivity.
Qed.

Lemma nth_concat_rect : forall (A : Type) k (ls : list (list A)) dx dy d,
  Forall (fun l => length l = k) ls -> dy < k ->
  nth (dx * k + dy) (concat ls) d = nth dy (nth dx ls []) d.
Proof.
  intros A k ls dx dy d H; revert dx; induction H as [|l ls Hl _ IH];
    intros dx Hdy.
  - change (concat []) with (@nil A). rewrite !nth_nil. reflexivity.
  - simpl concat. destruct dx as [|dx]; simpl nth.
    + rewrite app_nth1 by lia. reflexivity.
    + rewrite app_nth2 by (simpl; lia).
      replace (k + dx * k + dy - length l) with (dx * k + dy) by lia.
      apply IH; assumption.
Qed.

Lemma In_row : forall n0 a x v,
  square_shape n0 a -> x < n0 ->
  (In v (nth x a []) <-> exists y, y < n0 /\ get a x y = v).
Proof.
  intros n0 a x v Hs Hx. apply square_shape_rows in Hs. destruct Hs as [_ Hr].
  unfold get. split.
  - intros Hin. destruct (In_nth _ _ 0%Z Hin) as (y & Hy & E).
    exists y. rewrite Hr in Hy by assumption. auto.
  - intros (y & Hy & <-). apply nth_In. rewrite Hr; assumption.
Qed.

Lemma In_column : forall n0 a y v,
  square_shape n0 a ->
  (In v (column a y) <-> exists x, x < n0 /\ get a x y = v).
Proof.
  intros n0 a y v [Hl _]. unfold column, get. rewrite in_map_iff. split.
  - intros (r & E & Hin). destruct (In_nth _ _ [] Hin) as (x & Hx & <-).
    exists x. split; [lia | assumption].
  - intros (x & Hx & E). exists (nth x a []). split; [assumption|].
    apply nth_In. lia.
Qed.

Lemma box_rows : forall n0 k a bx by_,
  square_shape n0 a -> n0 = k * k -> bx < k -> by_ < k ->
  let ls := map (slice (by_ * k) ((by_ + 1) * k))
                (slice (bx * k) ((bx + 1) * k) a) in
  length ls = k /\ Forall (fun l => length l = k) ls.
Proof.
  intros n0 k a bx by_ Hs Hn Hbx Hby ls.
  apply square_shape_rows in Hs. destruct Hs as [Hl Hr].
  assert (Hlen : length (slice (bx * k) ((bx + 1) * k) a) = k).
  { rewrite length_slice; [lia|]. rewrite Hl, Hn.
    apply Nat.mul_le_mono_r. lia. }
  split.
  - unfold ls. rewrite length_map. assumption.
  - apply Forall_forall. intros l Hin. unfold ls in Hin.
    apply in_map_iff in Hin. destruct Hin as (r & <- & Hin).
    destruct (In_nth _ _ [] Hin) as (j & Hj & <-).
    rewrite Hlen in Hj. rewrite nth_slice by lia.
    rewrite length_slice; [lia|]. rewrite Hr by nia. rewrite Hn.
    apply Nat.mul_le_mono_r. lia.
Qed.

Lemma length_box : forall n0 k a bx by_,
  square_shape n0 a -> n0 = k * k -> bx < k -> by_ < k ->
  length (box a k bx by_) = n0.
Proof.
  intros n0 k a bx by_ Hs Hn Hbx Hby.
  destruct (box_rows n0 k a bx by_ Hs Hn Hbx Hby) as [Hl Hf].
  unfold box, flatten. rewrite (length_concat_rect _ k) by assumption.
  rewrite Hl. symmetry. assumption.
Qed.

Lemma nth_box : forall n0 k a bx by_ dx dy,
  square_shape n0 a -> n0 = k * k -> bx < k -> by_ < k -> dx < k -> dy < k ->
  nth (dx * k + dy) (box a k bx by_) 0%Z = get a (bx * k + dx) (by_ * k + dy).
Proof.
  intros n0 k a bx by_ dx dy Hs Hn Hbx Hby Hdx Hdy.
  destruct (box_rows n0 k a bx by_ Hs Hn Hbx Hby) as [Hl Hf].
  unfold box, flatten. rewrite (nth_concat_rect _ k) by assumption.
  rewrite length_map in Hl.
  rewrite (nth_indep _ [] (slice (by_ * k) ((by_ + 1) * k) []))
    by (rewrite length_map; lia).
  rewrite map_nth. rewrite nth_slice by lia. rewrite nth_slice by lia.
  reflexivity.
Qed.

Lemma In_box : forall n0 k a bx by_ v,
  square_shape n0 a -> n0 = k * k -> bx < k -> by_ < k ->
  (In v (box a k bx by_) <->
   exists dx dy, dx < k /\ dy < k
                 /\ get a (bx * k + dx) (by_ * k + dy) = v).
Proof.
  intros n0 k a bx by_ v Hs Hn Hbx Hby. split.
  - intros Hin. destruct (In_nth _ _ 0%Z Hin) as (i & Hi & E).
    rewrite (length_box n0 k) in Hi by assumption.
    assert (Hk : k <> 0) by lia.
    exists (i / k), (i mod k).
    assert (Hdx : i / k < k) by (apply Nat.Div0.div_lt_upper_bound; lia).
    assert (Hdy : i mod k < k) by (apply Nat.mod_upper_bound; assumption).
    repeat split; try assumption.
    rewrite <- (nth_box n0) by assumption.
    replace (i / k * k + i mod k) with i; [assumption|].
    rewrite (Nat.div_mod_eq i k) at 1. lia.
  - intros (dx & dy & Hdx & Hdy & <-).
    rewrite <- (nth_box n0) by assumption.
    apply nth_In. rewrite (length_box n0 k) by assumption. nia.
Qed.

End ArrayLemmas.

Section UnitLemmas.
Local Open Scope nat_scope.

Lemma In_range1 : forall n0 v,
  In v (range1 n0) <-> (1 <= v <= Z.of_nat n0)%Z.
Proof.
  intros n0 v. unfold range1. rewrite in_map_iff. split.
  - intros (i & <- & Hi). apply in_seq in Hi. lia.
  - intros Hv. exists (Z.to_nat v). split; [lia|]. apply in_seq. lia.
Qed.

Lemma NoDup_range1 : forall n0, NoDup (range1 n0).
Proof.
  intros n0. unfold range1. apply Injective_map_NoDup.
  - intros i j. apply Nat2Z.inj.
  - apply seq_NoDup.
Qed.

Lemma length_range1 : forall n0, length (range1 n0) = n0.
Proof. intros. unfold range1. rewrite length_map. apply length_seq. Qed.

Lemma memZ_In : forall v l, memZ v l = true <-> In v l.
Proof.
  intros v l. unfold memZ. rewrite existsb_exists. split.
  - intros (w & Hin & E). apply Z.eqb_eq in E. subst. assumption.
  - intros Hin. exists v. split; [assumption | apply Z.eqb_refl].
Qed.

Lemma perm_1N_iff : forall n0 l,
  length l = n0 ->
  (is_perm_1N n0 l <->
   NoDup l /\ forall v, In v l -> (1 <= v <= Z.of_nat n0)%Z).
Proof.
  intros n0 l Hlen. unfold is_perm_1N. split.
  - intros Hp. split.
    + apply (Permutation_NoDup (Permutation_sym Hp)), NoDup_range1.
    + intros v Hin. apply In_range1. apply (Permutation_in _ Hp Hin).
  - intros [Hnd Hr]. apply NoDup_Permutation_bis.
    + assumption.
    + rewrite length_range1. lia.
    + intros v Hin. apply In_range1. auto.
Qed.

Lemma nth_column : forall a x y,
  x < length a -> nth x (column a y) 0%Z = get a x y.
Proof.
  intros a x y Hx. unfold column, get.
  rewrite (nth_indep _ 0%Z ((fun r => nth y r 0%Z) []))
    by (rewrite length_map; assumption).
  apply (map_nth (fun r => nth y r 0%Z)).
Qed.

Lemma box_index : forall k dx dy dx' dy',
  dy < k -> dy' < k -> dx * k + dy = dx' * k + dy' -> dx = dx' /\ dy = dy'.
Proof.
  intros k dx dy dx' dy' Hdy Hdy' E.
  assert (Hdx : dx = dx').
  { destruct (Nat.lt_trichotomy dx dx') as [L | [L | L]]; [|assumption|].
    - assert ((dx + 1) * k <= dx' * k) by (apply Nat.mul_le_mono_r; lia). lia.
    - assert ((dx' + 1) * k <= dx * k) by (apply Nat.mul_le_mono_r; lia). lia. }
  subst dx'. split; [reflexivity | lia].
Qed.

Lemma box_cell_lt : forall k b d, b < k -> d < k -> b * k + d < k * k.
Proof.
  intros k b d Hb Hd.
  assert ((b + 1) * k <= k * k) by (apply Nat.mul_le_mono_r; lia). lia.
Qed.

Lemma div_box : forall k b d, d < k -> (b * k + d) / k = b.
Proof.
  intros k b d Hd. rewrite Nat.div_add_l by lia.
  rewrite Nat.div_small by assumption. lia.
Qed.

Lemma split_box : forall k x, 0 < k ->
  x = x / k * k + x mod k /\ x mod k < k.
Proof.
  intros k x Hk. split.
  - rewrite (Nat.div_mod_eq x k) at 1. lia.
  - apply Nat.mod_upper_bound. lia.
Qed.

Lemma complete_valid_shape : forall a,
  complete_valid a -> square_shape (shape0 a) a.
Proof.
  intros a (_ & Hrow & _). apply square_shape_rows. split; [reflexivity|].
  intros x Hx. rewrite (Permutation_length (Hrow x Hx)). apply length_range1.
Qed.

Lemma complete_valid_cells : forall a,
  complete_valid a -> cells_valid (shape0 a) (Nat.sqrt (shape0 a)) a.
Proof.
  intros a Hv. pose proof (complete_valid_shape a Hv) as Hs.
  destruct Hv as (Hn & Hrow & Hcol & Hbox).
  set (n0 := shape0 a) in *. set (k := Nat.sqrt n0) in *.
  pose proof Hs as Hs'. apply square_shape_rows in Hs'.
  destruct Hs' as [Hl Hr]. split.
  - intros x y Hx Hy.
    apply (proj1 (perm_1N_iff n0 _ (Hr x Hx)) (Hrow x Hx)).
    apply (In_row n0); auto. exists y. auto.
  - intros x y x' y' Hx Hy Hx' Hy' Hrel E.
    assert (Hk : 0 < k) by nia.
    destruct Hrel as [-> | [-> | [Ex Ey]]].
    + split; [reflexivity|].
      pose proof (proj1 (perm_1N_iff n0 _ (Hr x Hx)) (Hrow x Hx)) as [Hnd _].
      apply (proj1 (NoDup_nth _ 0%Z) Hnd); rewrite ?Hr by assumption; auto.
    + split; [|reflexivity].
      assert (Hlc : length (column a y) = n0)
        by (unfold column; rewrite length_map; assumption).
      pose proof (proj1 (perm_1N_iff n0 _ Hlc) (Hcol y Hy)) as [Hnd _].
      apply (proj1 (NoDup_nth _ 0%Z) Hnd); rewrite ?Hlc; auto.
      rewrite !nth_column by lia. assumption.
    + assert (Hbx : x / k < k) by (apply Nat.Div0.div_lt_upper_bound; nia).
      assert (Hby : y / k < k) by (apply Nat.Div0.div_lt_upper_bound; nia).
      pose proof (length_box n0 k a _ _ Hs Hn Hbx Hby) as Hlb.
      pose proof (proj1 (perm_1N_iff n0 _ Hlb) (Hbox _ _ Hbx Hby))
        as [Hnd _].
      destruct (split_box k x Hk) as [Sx Mx].
      destruct (split_box k y Hk) as [Sy My].
      destruct (split_box k x' Hk) as [Sx' Mx'].
      destruct (split_box k y' Hk) as [Sy' My'].
      assert (Hi : x mod k * k + y mod k = x' mod k * k + y' mod k).
      { apply (proj1 (NoDup_nth _ 0%Z) Hnd).
        - rewrite Hlb. nia.
        - rewrite Hlb. nia.
        - rewrite (nth_box n0), (nth_box n0) by assumption.
          rewrite <- Sx, <- Sy. rewrite <- Ex, <- Ey, <- Sx', <- Sy'.
          assumption. }
      apply box_index in Hi; [|assumption..]. destruct Hi as [Hi1 Hi2].
      split; [rewrite Sx, Sx' | rewrite Sy, Sy']; congruence.
Qed.

Lemma cells_complete_valid : forall n0 k a,
  square_shape n0 a -> n0 = k * k -> cells_valid n0 k a -> complete_valid a.
Proof.
  intros n0 k a Hs Hn [Hrng Hinj].
  pose proof Hs as Hs'. apply square_shape_rows in Hs'.
  destruct Hs' as [Hl Hr].
  assert (Hsq : Nat.sqrt n0 = k).
  { subst n0. apply Nat.sqrt_square. }
  unfold complete_valid, shape0. rewrite Hl, Hsq.
  split; [assumption|]. split; [|split].
  - intros x Hx. apply perm_1N_iff; [auto|]. split.
    + apply (NoDup_nth _ 0%Z). rewrite Hr by assumption.
      intros y y' Hy Hy' E.
      apply (Hinj x y x y' Hx Hy Hx Hy'); [left; reflexivity | exact E].
    + intros v Hin. apply (In_row n0) in Hin; auto.
      destruct Hin as (y & Hy & <-). auto.
  - intros y Hy.
    assert (Hlc : length (column a y) = n0)
      by (unfold column; rewrite length_map; assumption).
    apply perm_1N_iff; [assumption|]. split.
    + apply (NoDup_nth _ 0%Z). rewrite Hlc.
      intros x x' Hx Hx' E. rewrite !nth_column in E by lia.
      apply (Hinj x y x' y Hx Hy Hx' Hy); [right; left; reflexivity | exact E].
    + intros v Hin. apply (In_column n0) in Hin; auto.
      destruct Hin as (x & Hx & <-). auto.
  - intros bx by_ Hbx Hby.
    assert (Hk : 0 < k) by lia.
    pose proof (length_box n0 k a _ _ Hs Hn Hbx Hby) as Hlb.
    apply perm_1N_iff; [assumption|]. split.
    + apply (NoDup_nth _ 0%Z). rewrite Hlb.
      intros i j Hi Hj E.
      destruct (split_box k i Hk) as [Si Mi].
      destruct (split_box k j Hk) as [Sj Mj].
      assert (Di : i / k < k) by (apply Nat.Div0.div_lt_upper_bound; nia).
      assert (Dj : j / k < k) by (apply Nat.Div0.div_lt_upper_bound; nia).
      rewrite Si, Sj in E.
      rewrite (nth_box n0), (nth_box n0) in E by assumption.
      assert (Hc : bx * k + i / k = bx * k + j / k
                   /\ by_ * k + i mod k = by_ * k + j mod k).
      { apply Hinj; try (rewrite Hn; apply box_cell_lt; assumption).
        - right; right. rewrite !div_box by assumption. split; reflexivity.
        - exact E. }
      destruct Hc as [E1 E2]. rewrite Si, Sj.
      assert (i / k = j / k) by lia. assert (i mod k = j mod k) by lia.
      congruence.
    + intros v Hin. apply (In_box n0) in Hin; auto.
      destruct Hin as (dx & dy & Hdx & Hdy & <-).
      apply Hrng; rewrite Hn; apply box_cell_lt; assumption.
Qed.

End UnitLemmas.

Section ScanLemmas.
Local Open Scope nat_scope.

Lemma In_combine_seq : forall (A : Type) (l : list A) s i v d,
  In (i, v) (combine (seq s (length l)) l) <->
  s <= i < s + length l /\ nth (i - s) l d = v.
Proof.
  intros A l; induction l as [|h t IH]; intros s i v d; simpl.
  - split; [contradiction | lia].
  - rewrite IH. split.
    + intros [E | [Hi E]].
      * inversion E; subst. rewrite Nat.sub_diag. split; [lia | reflexivity].
      * split; [lia|]. destruct (i - s) as [|j] eqn:Ej; [lia|].
        replace (i - S s) with j in E by lia. exact E.
    + intros [Hi E]. destruct (i - s) as [|j] eqn:Ej.
      * left. f_equal; [lia | assumption].
      * right. split; [lia|]. replace (i - S s) with j by lia. exact E.
Qed.

Lemma In_indices_where : forall p l idx,
  In idx (indices_where p l) <-> idx < length l /\ p (nth idx l 0) = true.
Proof.
  intros p l idx. unfold indices_where. rewrite in_map_iff. split.
  - intros ([i n] & E & Hin). simpl in E. subst i.
    apply filter_In in Hin. destruct Hin as [Hin Hp]. simpl in Hp.
    apply (In_combine_seq _ l 0 idx n 0) in Hin.
    destruct Hin as [Hi E]. rewrite Nat.sub_0_r in E. subst n.
    split; [lia | assumption].
  - intros [Hi Hp]. exists (idx, nth idx l 0). split; [reflexivity|].
    apply filter_In. split; [|assumption].
    apply (In_combine_seq _ l 0 idx _ 0). rewrite Nat.sub_0_r.
    split; [lia | reflexivity].
Qed.

Lemma In_nonzero_eq0 : forall n0 a x y,
  square_shape n0 a ->
  (In (x, y) (nonzero_eq0 a) <-> x < n0 /\ y < n0 /\ get a x y = 0%Z).
Proof.
  intros n0 a x y Hs. apply square_shape_rows in Hs. destruct Hs as [Hl Hr].
  unfold nonzero_eq0. rewrite in_flat_map. split.
  - intros ([x' r] & Hin & Hz). simpl in Hz.
    apply (In_combine_seq _ a 0 x' r []) in Hin.
    destruct Hin as [Hx' E]. rewrite Nat.sub_0_r in E. subst r.
    unfold zeros_of_row in Hz. apply in_map_iff in Hz.
    destruct Hz as (y' & E & Hy'). inversion E; subst x' y'.
    apply filter_In in Hy'. destruct Hy' as [Hy' Hz].
    apply in_seq in Hy'. rewrite Hr in Hy' by lia.
    apply Z.eqb_eq in Hz. repeat split; try lia. exact Hz.
  - intros (Hx & Hy & Hz). exists (x, nth x a []). split.
    + apply (In_combine_seq _ a 0 x _ []). rewrite Nat.sub_0_r.
      split; [lia | reflexivity].
    + simpl. unfold zeros_of_row. apply in_map_iff. exists y.
      split; [reflexivity|]. apply filter_In. split.
      * apply in_seq. rewrite Hr by assumption. lia.
      * apply Z.eqb_eq. exact Hz.
Qed.

Lemma length_filter_seq : forall (f : Z -> bool) (l : list Z) (g : nat -> Z) s,
  (forall i, i < length l -> g (s + i) = nth i l 0%Z) ->
  length (filter (fun y => f (g y)) (seq s (length l))) = length (filter f l).
Proof.
  intros f l; induction l as [|h t IH]; intros g s Hg; [reflexivity|].
  simpl. pose proof (Hg 0 ltac:(simpl; lia)) as H0.
  rewrite Nat.add_0_r in H0. simpl in H0. rewrite H0.
  assert (IH' : length (filter (fun y => f (g y)) (seq (S s) (length t)))
                = length (filter f t)).
  { apply IH. intros i Hi. specialize (Hg (S i) ltac:(simpl; lia)).
    simpl in Hg. rewrite <- Hg. f_equal. lia. }
  destruct (f h); simpl; rewrite IH'; reflexivity.
Qed.

Lemma length_zeros_of_row : forall x r,
  length (zeros_of_row x r) = length (filter (Z.eqb 0) r).
Proof.
  intros x r. unfold zeros_of_row. rewrite length_map.
  rewrite <- (length_filter_seq (Z.eqb 0) r (fun y => nth y r 0%Z) 0)
    by reflexivity.
  reflexivity.
Qed.

Lemma count_zeros_cells : forall a, count_zeros a = length (nonzero_eq0 a).
Proof.
  intros a. unfold count_zeros, nonzero_eq0, flatten.
  generalize 0 as s. induction a as [|r t IH]; intros s; [reflexivity|].
  simpl. rewrite filter_app, !length_app, length_zeros_of_row.
  f_equal. apply IH.
Qed.

Lemma length_filter_upd : forall (f : Z -> bool) v (l : list Z) n,
  n < length l ->
  length (filter f (upd n (fun _ => v) l))
  + (if f (nth n l 0%Z) then 1 else 0)
  = length (filter f l) + (if f v then 1 else 0).
Proof.
  intros f v l; induction l as [|h t IH]; intros n Hn; [simpl in Hn; lia|].
  destruct n as [|n]; simpl.
  - destruct (f h), (f v); simpl; lia.
  - simpl in Hn. specialize (IH n ltac:(lia)).
    destruct (f h); simpl; lia.
Qed.

Lemma length_filter_concat_upd : forall (f : Z -> bool) g (a : grid) x,
  x < length a ->
  length (filter f (concat (upd x g a))) + length (filter f (nth x a []))
  = length (filter f (concat a)) + length (filter f (g (nth x a []))).
Proof.
  intros f g a; induction a as [|r t IH]; intros x Hx; [simpl in Hx; lia|].
  destruct x as [|x]; simpl.
  - rewrite !filter_app, !length_app. lia.
  - simpl in Hx. specialize (IH x ltac:(lia)).
    rewrite !filter_app, !length_app. lia.
Qed.

(** Writing one cell changes the number of zeros by the cell alone. *)
Lemma count_zeros_set_cell : forall a x y v,
  x < length a -> y < length (nth x a []) ->
  count_zeros (set_cell a x y v) + (if (get a x y =? 0)%Z then 1 else 0)
  = count_zeros a + (if (v =? 0)%Z then 1 else 0).
Proof.
  intros a x y v Hx Hy. unfold count_zeros, set_cell, flatten, get.
  pose proof (length_filter_concat_upd (Z.eqb 0) (upd y (fun _ => v)) a x Hx)
    as H1.
  pose proof (length_filter_upd (Z.eqb 0) v (nth x a []) y Hy) as H2.
  rewrite (Z.eqb_sym (nth y (nth x a []) 0%Z)), (Z.eqb_sym v).
  destruct (0 =? nth y (nth x a []) 0)%Z, (0 =? v)%Z; lia.
Qed.

Lemma py_min_spec : forall l m,
  py_min l = Ok m -> In m l /\ forall n, In n l -> m <= n.
Proof.
  intros [|h t] m; simpl; [discriminate|]. intros E. inversion E; clear E.
  clear H0. revert h. induction t as [|x t IH]; intros h; simpl.
  - split; [left; reflexivity|]. intros n [<- | []]. lia.
  - destruct (IH (Nat.min h x)) as [Hin Hle]. split.
    + destruct Hin as [E | Hin]; [|right; right; exact Hin].
      rewrite <- E. destruct (Nat.min_spec h x) as [[_ ->] | [_ ->]]; auto.
    + intros n [<- | [<- | Hn]].
      * specialize (Hle _ (or_introl eq_refl)). lia.
      * specialize (Hle _ (or_introl eq_refl)). lia.
      * apply Hle. right. exact Hn.
Qed.

Lemma py_min_nonempty : forall l, l <> [] -> exists m, py_min l = Ok m.
Proof. intros [|h t] H; [contradiction | eexists; reflexivity]. Qed.

End ScanLemmas.

Section DomainLemmas.
Local Open Scope nat_scope.

Lemma fold_max_spec : forall t h,
  In (fold_left Z.max t h) (h :: t)
  /\ forall v, In v (h :: t) -> (v <= fold_left Z.max t h)%Z.
Proof.
  induction t as [|x t IH]; intros h; simpl.
  - split; [left; reflexivity|]. intros v [<- | []]. lia.
  - destruct (IH (Z.max h x)) as [Hin Hle]. split.
    + destruct Hin as [E | Hin]; [|right; right; exact Hin].
      rewrite <- E. destruct (Z.max_spec h x) as [[_ ->] | [_ ->]]; auto.
    + intros v [<- | [<- | Hv]].
      * specialize (Hle _ (or_introl eq_refl)). lia.
      * specialize (Hle _ (or_introl eq_refl)). lia.
      * apply Hle. right. exact Hv.
Qed.

Lemma fold_min_spec : forall t h,
  In (fold_left Z.min t h) (h :: t)
  /\ forall v, In v (h :: t) -> (fold_left Z.min t h <= v)%Z.
Proof.
  induction t as [|x t IH]; intros h; simpl.
  - split; [left; reflexivity|]. intros v [<- | []]. lia.
  - destruct (IH (Z.min h x)) as [Hin Hle]. split.
    + destruct Hin as [E | Hin]; [|right; right; exact Hin].
      rewrite <- E. destruct (Z.min_spec h x) as [[_ ->] | [_ ->]]; auto.
    + intros v [<- | [<- | Hv]].
      * specialize (Hle _ (or_introl eq_refl)). lia.
      * specialize (Hle _ (or_introl eq_refl)). lia.
      * apply Hle. right. exact Hv.
Qed.

Lemma np_max_spec : forall a m,
  np_max a = Ok m ->
  In m (flatten a) /\ forall v, In v (flatten a) -> (v <= m)%Z.
Proof.
  intros a m. unfold np_max. destruct (flatten a) as [|h t]; [discriminate|].
  intros E. inversion E. apply fold_max_spec.
Qed.

Lemma np_min_spec : forall a m,
  np_min a = Ok m ->
  In m (flatten a) /\ forall v, In v (flatten a) -> (m <= v)%Z.
Proof.
  intros a m. unfold np_min. destruct (flatten a) as [|h t]; [discriminate|].
  intros E. inversion E. apply fold_min_spec.
Qed.

Lemma In_flatten : forall n0 a v,
  square_shape n0 a ->
  (In v (flatten a) <-> exists x y, x < n0 /\ y < n0 /\ get a x y = v).
Proof.
  intros n0 a v Hs. unfold flatten. rewrite in_concat. split.
  - intros (r & Hr & Hv). destruct (In_nth _ _ [] Hr) as (x & Hx & <-).
    destruct Hs as [Hl Hf]. rewrite Hl in Hx.
    apply (In_row n0) in Hv; [|split; assumption|assumption].
    destruct Hv as (y & Hy & E). exists x, y. auto.
  - intros (x & y & Hx & Hy & E). exists (nth x a []). split.
    + apply nth_In. destruct Hs as [Hl _]. lia.
    + apply (In_row n0); auto. exists y. auto.
Qed.

Lemma np_max_ok : forall n0 k a,
  grid_ok n0 k a -> exists m, np_max a = Ok m /\ (m <= Z.of_nat n0)%Z.
Proof.
  intros n0 k a (Hs & Hn & Hk & Hle).
  assert (Hin : In (get a 0 0) (flatten a)).
  { apply (In_flatten n0); [assumption|]. exists 0, 0. repeat split; nia. }
  unfold np_max. destruct (flatten a) as [|h t] eqn:E; [contradiction|].
  eexists. split; [reflexivity|].
  destruct (fold_max_spec t h) as [Hm _]. rewrite <- E in Hm.
  apply (In_flatten n0) in Hm; [|assumption].
  destruct Hm as (x & y & Hx & Hy & <-). auto.
Qed.

Lemma grid_ok_checks : forall n0 k a,
  grid_ok n0 k a ->
  shape0 a = n0 /\ shape1 a = n0 /\ Nat.sqrt n0 = k /\ n0 = k ^ 2.
Proof.
  intros n0 k a (Hs & Hn & Hk & _).
  pose proof Hs as Hs'. apply square_shape_rows in Hs'.
  destruct Hs' as [Hl Hr]. repeat split.
  - exact Hl.
  - unfold shape1. destruct a as [|r t]; [simpl in Hl; nia|].
    apply (Hr 0). nia.
  - subst n0. apply Nat.sqrt_square.
  - simpl. lia.
Qed.

Lemma available_digits_all : forall n0 k a,
  grid_ok n0 k a ->
  available_digits a None =
  Ok (map (avail_at a n0 k) (nonzero_eq0 a),
      map fst (nonzero_eq0 a), map snd (nonzero_eq0 a)).
Proof.
  intros n0 k a Hok.
  destruct (grid_ok_checks _ _ _ Hok) as (H0 & H1 & Hq & Hp).
  destruct (np_max_ok _ _ _ Hok) as (m & Hm & Hle).
  unfold available_digits. rewrite H0, H1, Hq, <- Hp, Nat.eqb_refl. simpl.
  rewrite Hm. simpl. destruct (Z.ltb_spec (Z.of_nat n0) m); [lia|].
  reflexivity.
Qed.

Lemma available_digits_at : forall n0 k a x y,
  grid_ok n0 k a -> x < n0 -> y < n0 ->
  available_digits a (Some (Z.of_nat x, Z.of_nat y)) =
  Ok ([avail_at a n0 k (x, y)], [x], [y]).
Proof.
  intros n0 k a x y Hok Hx Hy.
  destruct (grid_ok_checks _ _ _ Hok) as (H0 & H1 & Hq & Hp).
  destruct (np_max_ok _ _ _ Hok) as (m & Hm & Hle).
  unfold available_digits. rewrite H0, H1, Hq, <- Hp, Nat.eqb_refl. simpl.
  rewrite Hm. simpl. destruct (Z.ltb_spec (Z.of_nat n0) m); [lia|].
  destruct (Z.ltb_spec (Z.of_nat x) 0); [lia|].
  destruct (Z.ltb_spec (Z.of_nat y) 0); [lia|].
  destruct (Z.geb_spec (Z.of_nat x) (Z.of_nat n0)); [lia|].
  destruct (Z.geb_spec (Z.of_nat y) (Z.of_nat n0)); [lia|].
  simpl. rewrite !Nat2Z.id. reflexivity.
Qed.

Lemma In_exist_lst : forall n0 k a x y v,
  square_shape n0 a -> n0 = k * k -> 0 < k -> x < n0 -> y < n0 ->
  (In v (exist_lst a k x y) <->
   exists x' y', x' < n0 /\ y' < n0 /\ related k x y x' y'
                 /\ get a x' y' = v).
Proof.
  intros n0 k a x y v Hs Hn Hk Hx Hy.
  assert (Hbx : x / k < k) by (apply Nat.Div0.div_lt_upper_bound; nia).
  assert (Hby : y / k < k) by (apply Nat.Div0.div_lt_upper_bound; nia).
  unfold exist_lst. rewrite !in_app_iff.
  rewrite (In_row n0), (In_column n0), (In_box n0) by assumption.
  split.
  - intros [(y' & Hy' & E) | [(x' & Hx' & E) | (dx & dy & Hdx & Hdy & E)]].
    + exists x, y'. repeat split; auto. left. reflexivity.
    + exists x', y. repeat split; auto. right; left. reflexivity.
    + exists (x / k * k + dx), (y / k * k + dy).
      repeat split; try (rewrite Hn; apply box_cell_lt; assumption);
        [|exact E].
      right; right. rewrite !div_box by assumption. split; reflexivity.
  - intros (x' & y' & Hx' & Hy' & [-> | [-> | [Ex Ey]]] & E).
    + left. exists y'. auto.
    + right; left. exists x'. auto.
    + right; right. destruct (split_box k x' Hk) as [Sx Mx].
      destruct (split_box k y' Hk) as [Sy My].
      exists (x' mod k), (y' mod k). repeat split; try assumption.
      rewrite <- Ex, <- Ey, <- Sx, <- Sy. exact E.
Qed.

Lemma In_avail_at : forall n0 k a x y v,
  square_shape n0 a -> n0 = k * k -> 0 < k -> x < n0 -> y < n0 ->
  (In v (avail_at a n0 k (x, y)) <->
   (1 <= v <= Z.of_nat n0)%Z
   /\ forall x' y', x' < n0 -> y' < n0 -> related k x y x' y' ->
                    get a x' y' <> v).
Proof.
  intros n0 k a x y v Hs Hn Hk Hx Hy. unfold avail_at. simpl fst; simpl snd.
  rewrite filter_In, In_range1, negb_true_iff.
  split; intros [Hr Hm]; (split; [exact Hr|]).
  - intros x' y' Hx' Hy' Hrel E.
    assert (H : memZ v (exist_lst a k x y) = true).
    { apply memZ_In. apply (In_exist_lst n0); auto. exists x', y'. auto. }
    congruence.
  - destruct (memZ v (exist_lst a k x y)) eqn:E; [|reflexivity].
    apply memZ_In in E. apply (In_exist_lst n0) in E; auto.
    destruct E as (x' & y' & Hx' & Hy' & Hrel & E).
    exfalso. apply (Hm x' y'); auto.
Qed.

End DomainLemmas.

(** * The domain calculator *)

Lemma combine_fst_snd : forall (A B : Type) (l : list (A * B)),
  combine (map fst l) (map snd l) = l.
Proof.
  intros A B l; induction l as [|[a b] t IH]; simpl; [|rewrite IH];
    reflexivity.
Qed.

Lemma grid_ok_of_max : forall n0 k a m,
  square_shape n0 a -> n0 = (k * k)%nat -> (0 < k)%nat ->
  np_max a = Ok m -> m <= Z.of_nat n0 ->
  grid_ok n0 k a.
Proof.
  intros n0 k a m Hs Hn Hk Hm Hle. repeat split; try assumption;
    try (destruct Hs; assumption).
  intros x y Hx Hy. apply np_max_spec in Hm. destruct Hm as [_ Hm].
  transitivity m; [|assumption]. apply Hm.
  apply (In_flatten n0); [assumption|]. exists x, y. auto.
Qed.

(** C10.  The overflow check of [available_digits] is one-sided.  On a
    square array of side [N = k * k] whose maximum is at most [N] the call
    for all empty cells raises nothing, whatever negative entries the
    array holds; the cells it lists are exactly the cells equal to 0, so a
    negative entry counts as filled; and a value of [1..N] is missing from
    a candidate list only when a positive entry of the row, the column or
    the box of the cell equals it, so a negative entry removes nothing. *)
Theorem available_digits_overflow_one_sided :
  forall (n0 k : nat) (a : grid) (m : Z),
    square_shape n0 a -> n0 = (k * k)%nat -> (0 < k)%nat ->
    np_max a = Ok m -> m <= Z.of_nat n0 ->
    exists avail_lst pos_x pos_y,
      available_digits a None = Ok (avail_lst, pos_x, pos_y)
      /\ (forall x y, In (x, y) (combine pos_x pos_y) <->
                      (x < n0)%nat /\ (y < n0)%nat /\ get a x y = 0)
      /\ (forall i x y v,
            nth_error (combine pos_x pos_y) i = Some (x, y) ->
            (In v (nth i avail_lst []) <->
             1 <= v <= Z.of_nat n0
             /\ forall x' y', (x' < n0)%nat -> (y' < n0)%nat ->
                              related k x y x' y' ->
                              0 < get a x' y' -> get a x' y' <> v)).
Proof.
  intros n0 k a m Hs Hn Hk Hm Hle.
  pose proof (grid_ok_of_max _ _ _ _ Hs Hn Hk Hm Hle) as Hok.
  exists (map (avail_at a n0 k) (nonzero_eq0 a)),
         (map fst (nonzero_eq0 a)), (map snd (nonzero_eq0 a)).
  rewrite combine_fst_snd. split; [|split].
  - apply available_digits_all. exact Hok.
  - intros x y. apply In_nonzero_eq0. exact Hs.
  - intros i x y v Hi.
    assert (Hc : In (x, y) (nonzero_eq0 a)) by (eapply nth_error_In; eauto).
    apply (In_nonzero_eq0 n0) in Hc; [|exact Hs].
    destruct Hc as (Hx & Hy & _).
    assert (E : nth i (map (avail_at a n0 k) (nonzero_eq0 a)) []
                = avail_at a n0 k (x, y)).
    { apply nth_error_nth. apply map_nth_error. exact Hi. }
    rewrite E, (In_avail_at n0) by assumption.
    split; intros [Hr Hc]; (split; [exact Hr|]).
    + intros x' y' Hx' Hy' Hrel _. apply Hc; assumption.
    + intros x' y' Hx' Hy' Hrel Ev. apply (Hc x' y'); try assumption. lia.
Qed.

Lemma available_digits_overflow_one_sided_witness :
  square_shape 4 g_negative /\ np_max g_negative = Ok 4
  /\ exists avail_lst pos_x pos_y,
      available_digits g_negative None = Ok (avail_lst, pos_x, pos_y)
      /\ (forall x y, In (x, y) (combine pos_x pos_y) <->
                      (x < 4)%nat /\ (y < 4)%nat /\ get g_negative x y = 0)
      /\ (forall i x y v,
            nth_error (combine pos_x pos_y) i = Some (x, y) ->
            (In v (nth i avail_lst []) <->
             1 <= v <= Z.of_nat 4
             /\ forall x' y', (x' < 4)%nat -> (y' < 4)%nat ->
                              related 2 x y x' y' ->
                              0 < get g_negative x' y' ->
                              get g_negative x' y' <> v)).
Proof.
  assert (Hs : square_shape 4 g_negative)
    by (split; [reflexivity | repeat constructor]).
  split; [exact Hs|]. split; [reflexivity|].
  apply (available_digits_overflow_one_sided 4 2 g_negative 4).
  - exact Hs.
  - reflexivity.
  - lia.
  - reflexivity.
  - simpl. lia.
Defined.

(** * The solver *)

Lemma is_perm_1Nb_true : forall n0 l,
  is_perm_1Nb n0 l = true -> is_perm_1N n0 l.
Proof.
  intros n0 l H. unfold is_perm_1Nb in H. apply andb_true_iff in H.
  destruct H as [Hlen Hall]. apply Nat.eqb_eq in Hlen.
  unfold is_perm_1N. apply Permutation_sym. apply NoDup_Permutation_bis.
  - apply NoDup_range1.
  - rewrite length_range1. lia.
  - intros v Hv. apply memZ_In.
    rewrite forallb_forall in Hall. apply Hall. exact Hv.
Qed.

Lemma complete_validb_true : forall a,
  complete_validb a = true -> complete_valid a.
Proof.
  intros a H. unfold complete_validb in H.
  apply andb_true_iff in H. destruct H as [H Hbox].
  apply andb_true_iff in H. destruct H as [H Hcol].
  apply andb_true_iff in H. destruct H as [H Hrow].
  apply Nat.eqb_eq in H. rewrite forallb_forall in Hrow, Hcol, Hbox.
  unfold complete_valid. split; [exact H|]. split; [|split].
  - intros x Hx. apply is_perm_1Nb_true, Hrow, in_seq. lia.
  - intros y Hy. apply is_perm_1Nb_true, Hcol, in_seq. lia.
  - intros bx by_ Hbx Hby. apply is_perm_1Nb_true.
    specialize (Hbox bx ltac:(apply in_seq; lia)).
    rewrite forallb_forall in Hbox. apply Hbox, in_seq. lia.
Qed.

Lemma solve_loop_S : forall fuel n0_zeros sudoku_arr n_zeros,
  solve_loop (S fuel) n0_zeros sudoku_arr n_zeros =
  if (0 <? n_zeros)%nat then
    match available_digits sudoku_arr None with
    | Raise e => Some (Raise e)
    | Ok (avail_lst, pos_x, pos_y) =>
        let n_avail := map (@length Z) avail_lst in
        match py_min n_avail with
        | Raise e => Some (Raise e)
        | Ok mn =>
            if (mn =? 0)%nat then
              Some (Ok (None,
                        [RInt (Z.of_nat n_zeros
                               - Z.of_nat (count_zeros sudoku_arr))]))
            else if (mn =? 1)%nat then
              let indices := indices_where (fun n => (n =? 1)%nat) n_avail in
              let arr' := fill_singles sudoku_arr avail_lst pos_x pos_y
                                       indices in
              solve_loop fuel n0_zeros arr' (count_zeros arr')
            else
              let indices := indices_where (fun n => (n =? mn)%nat) n_avail in
              match branch_cells
                      (fun tmp => solve_loop fuel (count_zeros tmp) tmp
                                             (count_zeros tmp))
                      sudoku_arr avail_lst pos_x pos_y indices []
                      [RInt (Z.of_nat n0_zeros - Z.of_nat n_zeros)] with
              | None => None
              | Some (Raise e) => Some (Raise e)
              | Some (Ok (sols, record_indices)) =>
                  Some (Ok (Some sols, [RList record_indices]))
              end
        end
    end
  else
    Some (Ok (Some [sudoku_arr],
              [RList [RInt (Z.of_nat n0_zeros - Z.of_nat n_zeros);
                      RArr sudoku_arr]])).
Proof. reflexivity. Qed.

Lemma available_digits_None_inv : forall a avail_lst pos_x pos_y,
  available_digits a None = Ok (avail_lst, pos_x, pos_y) ->
  avail_lst = map (avail_at a (shape0 a) (Nat.sqrt (shape0 a)))
                  (nonzero_eq0 a)
  /\ pos_x = map fst (nonzero_eq0 a) /\ pos_y = map snd (nonzero_eq0 a).
Proof.
  intros a avail_lst pos_x pos_y. unfold available_digits.
  destruct (negb (shape0 a =? shape1 a)%nat
            || negb (shape0 a =? Nat.sqrt (shape0 a) ^ 2)%nat);
    [discriminate|].
  destruct (np_max a) as [m|e]; simpl; [|discriminate].
  destruct (Z.of_nat (shape0 a) <? m); [discriminate|].
  intros E. inversion E. auto.
Qed.

Lemma py_min_positive : forall (avail_lst : list (list Z)) mn,
  py_min (map (@length Z) avail_lst) = Ok mn -> avail_lst <> [].
Proof. intros [|h t] mn; [discriminate | discriminate]. Qed.

Lemma zeros_of_candidates : forall a avail_lst pos_x pos_y,
  available_digits a None = Ok (avail_lst, pos_x, pos_y) ->
  avail_lst <> [] -> (0 < count_zeros a)%nat.
Proof.
  intros a avail_lst pos_x pos_y E Hne.
  apply available_digits_None_inv in E. destruct E as (-> & _ & _).
  rewrite count_zeros_cells.
  destruct (nonzero_eq0 a); [contradiction | simpl; lia].
Qed.

Lemma dead_end_min : forall a avail_lst pos_x pos_y,
  available_digits a None = Ok (avail_lst, pos_x, pos_y) ->
  In [] avail_lst -> py_min (map (@length Z) avail_lst) = Ok 0%nat.
Proof.
  intros a avail_lst pos_x pos_y E Hin.
  destruct (py_min_nonempty (map (@length Z) avail_lst)) as [m Hm].
  { destruct avail_lst; [contradiction | discriminate]. }
  rewrite Hm. f_equal. apply py_min_spec in Hm. destruct Hm as [_ Hle].
  specialize (Hle 0%nat (in_map (@length Z) _ _ Hin)). lia.
Qed.

Lemma solve_loop_dead_end : forall a,
  reaches_dead_end a ->
  exists fuel0, forall fuel n0_zeros, (fuel0 <= fuel)%nat ->
    solve_loop fuel n0_zeros a (count_zeros a) = Some (Ok (None, [RInt 0])).
Proof.
  intros a H. induction H as [a (avail_lst & pos_x & pos_y & E & Hin)
                             | a avail_lst pos_x pos_y E Hmin _ IH].
  - exists 1%nat. intros [|fuel] n0_zeros Hf; [lia|].
    rewrite solve_loop_S.
    assert (Hz : (0 < count_zeros a)%nat).
    { eapply zeros_of_candidates; [exact E|].
      destruct avail_lst; [contradiction | discriminate]. }
    destruct (Nat.ltb_spec 0 (count_zeros a)); [|lia].
    rewrite E. cbv zeta. rewrite (dead_end_min _ _ _ _ E Hin).
    simpl. rewrite Z.sub_diag. reflexivity.
  - destruct IH as [fuel0 IH]. exists (S fuel0).
    intros [|fuel] n0_zeros Hf; [lia|]. rewrite solve_loop_S.
    assert (Hz : (0 < count_zeros a)%nat).
    { eapply zeros_of_candidates; [exact E|].
      eapply py_min_positive; exact Hmin. }
    destruct (Nat.ltb_spec 0 (count_zeros a)); [|lia].
    rewrite E. cbv zeta. rewrite Hmin. simpl. apply IH. lia.
Qed.

Lemma dead_end_g_dead : dead_end g_dead.
Proof.
  eexists _, _, _. split; [vm_compute; reflexivity|].
  left. reflexivity.
Qed.

(** C1, as stated, fails: on [g_dead], whose cell [(0,0)] has no candidate,
    the solver returns Python's [None], not an empty list. *)
Lemma solve_sudoku_dead_end_not_empty_list :
  dead_end g_dead
  /\ solutions_of (solve_sudoku 10 g_dead) = Some None
  /\ solutions_of (solve_sudoku 10 g_dead) <> Some (Some []).
Proof.
  split; [exact dead_end_g_dead|]. split; [reflexivity|].
  vm_compute. discriminate.
Qed.

(** C1, amended.  When the loop of a call of [solve_sudoku] meets a dead
    end, at once or after some turns of propagation and before any
    branching, the call returns [None] as its solutions (not an empty
    list), with the progress [0] since the last count as its record. *)
Theorem solve_sudoku_dead_end_None :
  forall a, reaches_dead_end a ->
    exists fuel0, forall fuel, (fuel0 <= fuel)%nat ->
      solve_sudoku fuel a = Some (Ok (None, [RInt 0])).
Proof.
  intros a H. destruct (solve_loop_dead_end a H) as [fuel0 Hf].
  exists fuel0. intros fuel Hle. unfold solve_sudoku. apply Hf. exact Hle.
Qed.

Lemma solve_sudoku_dead_end_None_witness :
  reaches_dead_end g_dead
  /\ exists fuel0, forall fuel, (fuel0 <= fuel)%nat ->
       solve_sudoku fuel g_dead = Some (Ok (None, [RInt 0])).
Proof.
  assert (H : reaches_dead_end g_dead) by (apply rde_now, dead_end_g_dead).
  split; [exact H|]. apply (solve_sudoku_dead_end_None g_dead). exact H.
Defined.

Ltac nodup_consts :=
  repeat (apply NoDup_cons; [simpl; intuition discriminate|]);
  apply NoDup_nil.

Lemma valid_partial_g_clash : valid_partial g_clash.
Proof.
  unfold valid_partial. change (shape0 g_clash) with 4%nat.
  change (Nat.sqrt 4) with 2%nat.
  split; [split; [reflexivity | repeat constructor]|].
  split; [reflexivity|]. split; [|split].
  - intros x Hx.
    do 4 (destruct x as [|x]; [simpl; nodup_consts|]). lia.
  - intros y Hy.
    do 4 (destruct y as [|y]; [simpl; nodup_consts|]). lia.
  - intros bx by_ Hbx Hby.
    do 2 (destruct bx as [|bx];
          [do 2 (destruct by_ as [|by_]; [simpl; nodup_consts|]); lia|]).
    lia.
Qed.

Lemma g_clash_out_invalid : ~ complete_valid g_clash_out.
Proof.
  intros (_ & Hrow & _). specialize (Hrow 1%nat ltac:(simpl; lia)).
  simpl in Hrow. unfold is_perm_1N in Hrow.
  pose proof (Permutation_NoDup (Permutation_sym Hrow) (NoDup_range1 4))
    as Hnd.
  inversion Hnd as [|v l Hnin _]. apply Hnin. simpl. auto.
Qed.

(** C2: the code breaks solver soundness.  On the duplicate-free partial
    grid [g_clash] the cells [(1,0)] and [(1,2)] both have the single
    candidate 1; the propagation step writes both, and the solver returns
    the grid [g_clash_out], whose row 1 is [1;2;1;3], as its only
    "solution". *)
Theorem solve_sudoku_unsound_on_clash :
  valid_partial g_clash
  /\ solutions_of (solve_sudoku 5 g_clash) = Some (Some [g_clash_out])
  /\ agrees g_clash g_clash_out
  /\ ~ complete_valid g_clash_out.
Proof.
  split; [exact valid_partial_g_clash|]. split; [vm_compute; reflexivity|].
  split; [|exact g_clash_out_invalid].
  intros x y. do 4 (destruct x as [|x];
    [do 4 (destruct y as [|y]; [vm_compute; try congruence; reflexivity|]);
     destruct y; vm_compute; congruence|]).
  destruct x; vm_compute; congruence.
Qed.

(** ** Branching and propagation *)

Section BranchLemmas.
Variable solve : grid -> solver_out.

Lemma branch_vals_ok : forall arr x y vals sols record_idx,
  (forall val, In val vals ->
     exists s r, solve (set_cell arr x y val) = Some (Ok (s, r))) ->
  exists sols' record_idx',
    branch_vals solve arr x y vals sols record_idx
    = Some (Ok (sols', record_idx'))
    /\ incl sols sols'
    /\ (forall val s r g, In val vals ->
          solve (set_cell arr x y val) = Some (Ok (Some s, r)) ->
          In g s -> In g sols').
Proof.
  intros arr x y vals; induction vals as [|val vs IH];
    intros sols record_idx Hall.
  - exists sols, record_idx. split; [reflexivity|].
    split; [apply incl_refl|]. intros val s r g [].
  - destruct (Hall val (or_introl eq_refl)) as (s0 & r0 & E0).
    simpl. rewrite E0.
    destruct (IH (match s0 with None => sols | Some s => sols ++ s end)
                 (record_idx ++ [RList r0])) as (sols' & rec' & E & Hi & Hc).
    { intros v Hv. apply Hall. right. exact Hv. }
    exists sols', rec'. split; [exact E|]. split.
    + intros g Hg. apply Hi. destruct s0; [apply in_or_app; left|]; exact Hg.
    + intros v s r g [<- | Hv] Es Hg.
      * rewrite E0 in Es. inversion Es; subst. apply Hi.
        apply in_or_app. right. exact Hg.
      * apply (Hc v s r g Hv Es Hg).
Qed.

Lemma branch_cells_ok : forall arr avail_lst pos_x pos_y indices sols recs,
  (forall idx val, In idx indices -> In val (nth idx avail_lst []) ->
     exists s r,
       solve (set_cell arr (nth idx pos_x 0%nat) (nth idx pos_y 0%nat) val)
       = Some (Ok (s, r))) ->
  exists sols' recs',
    branch_cells solve arr avail_lst pos_x pos_y indices sols recs
    = Some (Ok (sols', recs'))
    /\ incl sols sols'
    /\ (forall idx val s r g, In idx indices ->
          In val (nth idx avail_lst []) ->
          solve (set_cell arr (nth idx pos_x 0%nat) (nth idx pos_y 0%nat) val)
          = Some (Ok (Some s, r)) ->
          In g s -> In g sols').
Proof.
  intros arr avail_lst pos_x pos_y indices;
    induction indices as [|idx rest IH]; intros sols recs Hall.
  - exists sols, recs. split; [reflexivity|].
    split; [apply incl_refl|]. intros idx val s r g [].
  - destruct (branch_vals_ok arr (nth idx pos_x 0%nat) (nth idx pos_y 0%nat)
                             (nth idx avail_lst []) sols [])
      as (sols1 & rec1 & E1 & Hi1 & Hc1).
    { intros val Hv. apply (Hall idx val); [left; reflexivity | exact Hv]. }
    simpl. rewrite E1.
    destruct (IH sols1 (recs ++ [RList rec1])) as (sols' & recs' & E & Hi & Hc).
    { intros i v Hi' Hv. apply Hall; [right; exact Hi' | exact Hv]. }
    exists sols', recs'. split; [exact E|]. split.
    + intros g Hg. apply Hi, Hi1, Hg.
    + intros i v s r g [<- | Hi'] Hv Es Hg.
      * apply Hi. apply (Hc1 v s r g Hv Es Hg).
      * apply (Hc i v s r g Hi' Hv Es Hg).
Qed.

End BranchLemmas.

Lemma fill_singles_ind : forall (P : grid -> Prop) avail_lst pos_x pos_y
                                indices a,
  P a ->
  (forall b idx, In idx indices -> P b ->
     P (set_cell b (nth idx pos_x 0%nat) (nth idx pos_y 0%nat)
                 (nth 0 (nth idx avail_lst []) 0))) ->
  P (fill_singles a avail_lst pos_x pos_y indices).
Proof.
  intros P avail_lst pos_x pos_y indices; unfold fill_singles;
    induction indices as [|idx rest IH]; intros a Ha Hstep; simpl.
  - exact Ha.
  - apply IH.
    + apply Hstep; [left; reflexivity | exact Ha].
    + intros b i Hi Hb. apply Hstep; [right; exact Hi | exact Hb].
Qed.

Lemma grid_ok_set_cell : forall n0 k a x y v,
  grid_ok n0 k a -> (x < n0)%nat -> (y < n0)%nat -> v <= Z.of_nat n0 ->
  grid_ok n0 k (set_cell a x y v).
Proof.
  intros n0 k a x y v (Hs & Hn & Hk & Hle) Hx Hy Hv.
  pose proof Hs as Hs'. apply square_shape_rows in Hs'.
  destruct Hs' as [Hl Hr].
  split; [apply square_shape_set_cell; exact Hs|]. split; [exact Hn|].
  split; [exact Hk|]. intros x' y' Hx' Hy'.
  destruct (Nat.eq_dec x x') as [Ex|Nx]; [destruct (Nat.eq_dec y y') as [Ey|Ny]|].
  - subst x' y'. rewrite get_set_cell_same; [exact Hv | lia |].
    rewrite Hr by assumption. exact Hy.
  - rewrite get_set_cell_other by congruence. auto.
  - rewrite get_set_cell_other by congruence. auto.
Qed.

Lemma count_zeros_set_nonzero : forall n0 k a x y v,
  grid_ok n0 k a -> (x < n0)%nat -> (y < n0)%nat -> v <> 0 ->
  (count_zeros (set_cell a x y v) <= count_zeros a)%nat
  /\ (get a x y = 0 ->
      (count_zeros (set_cell a x y v) < count_zeros a)%nat).
Proof.
  intros n0 k a x y v (Hs & _) Hx Hy Hv.
  apply square_shape_rows in Hs. destruct Hs as [Hl Hr].
  pose proof (count_zeros_set_cell a x y v ltac:(lia)
                ltac:(rewrite Hr by assumption; exact Hy)) as H.
  destruct (Z.eqb_spec v 0); [contradiction|].
  destruct (Z.eqb_spec (get a x y) 0); split; intros; try lia.
Qed.

Lemma cell_of_index : forall n0 k a idx,
  grid_ok n0 k a -> (idx < length (nonzero_eq0 a))%nat ->
  exists x y,
    nth idx (map fst (nonzero_eq0 a)) 0%nat = x
    /\ nth idx (map snd (nonzero_eq0 a)) 0%nat = y
    /\ nth idx (map (avail_at a n0 k) (nonzero_eq0 a)) []
       = avail_at a n0 k (x, y)
    /\ (x < n0)%nat /\ (y < n0)%nat /\ get a x y = 0.
Proof.
  intros n0 k a idx (Hs & _) Hidx.
  destruct (nth idx (nonzero_eq0 a) (0%nat, 0%nat)) as [x y] eqn:E.
  assert (Hin : In (x, y) (nonzero_eq0 a)) by (rewrite <- E; apply nth_In, Hidx).
  apply (In_nonzero_eq0 n0) in Hin; [|exact Hs].
  destruct Hin as (Hx & Hy & Hz).
  exists x, y. repeat split; try assumption.
  - change 0%nat with (fst (0%nat, 0%nat)) at 1. rewrite map_nth, E. reflexivity.
  - change 0%nat with (snd (0%nat, 0%nat)) at 1. rewrite map_nth, E. reflexivity.
  - rewrite (nth_indep _ [] (avail_at a n0 k (0%nat, 0%nat)))
      by (rewrite length_map; exact Hidx).
    rewrite map_nth, E. reflexivity.
Qed.

Lemma index_of_where : forall n0 k a p idx,
  grid_ok n0 k a ->
  In idx (indices_where p
            (map (@length Z) (map (avail_at a n0 k) (nonzero_eq0 a)))) ->
  exists x y,
    nth idx (map fst (nonzero_eq0 a)) 0%nat = x
    /\ nth idx (map snd (nonzero_eq0 a)) 0%nat = y
    /\ nth idx (map (avail_at a n0 k) (nonzero_eq0 a)) []
       = avail_at a n0 k (x, y)
    /\ (x < n0)%nat /\ (y < n0)%nat /\ get a x y = 0
    /\ p (length (avail_at a n0 k (x, y))) = true.
Proof.
  intros n0 k a p idx Hok Hin. apply In_indices_where in Hin.
  destruct Hin as [Hlt Hp]. rewrite !length_map in Hlt.
  destruct (cell_of_index n0 k a idx Hok Hlt)
    as (x & y & Ex & Ey & Ea & Hx & Hy & Hz).
  exists x, y. repeat split; try assumption.
  rewrite <- Ea.
  change 0%nat with (@length Z []) in Hp. rewrite map_nth in Hp. exact Hp.
Qed.

Lemma single_value : forall (l : list Z),
  length l = 1%nat -> l = [nth 0 l 0].
Proof. intros [|v [|w t]] H; try discriminate. reflexivity. Qed.

Lemma avail_at_range : forall a n0 k p v,
  In v (avail_at a n0 k p) -> 1 <= v <= Z.of_nat n0.
Proof.
  intros a n0 k p v H. unfold avail_at in H. apply filter_In in H.
  apply In_range1. tauto.
Qed.

Lemma single_write : forall n0 k a idx,
  grid_ok n0 k a ->
  In idx (indices_where (fun n => (n =? 1)%nat)
            (map (@length Z) (map (avail_at a n0 k) (nonzero_eq0 a)))) ->
  exists x y v,
    nth idx (map fst (nonzero_eq0 a)) 0%nat = x
    /\ nth idx (map snd (nonzero_eq0 a)) 0%nat = y
    /\ nth 0 (nth idx (map (avail_at a n0 k) (nonzero_eq0 a)) []) 0 = v
    /\ (x < n0)%nat /\ (y < n0)%nat /\ get a x y = 0
    /\ avail_at a n0 k (x, y) = [v] /\ 1 <= v <= Z.of_nat n0.
Proof.
  intros n0 k a idx Hok Hin.
  destruct (index_of_where n0 k a _ idx Hok Hin)
    as (x & y & Ex & Ey & Ea & Hx & Hy & Hz & Hp).
  apply Nat.eqb_eq in Hp. apply single_value in Hp.
  exists x, y, (nth 0 (avail_at a n0 k (x, y)) 0).
  repeat split; try assumption.
  - rewrite Ea. reflexivity.
  - apply (avail_at_range a n0 k (x, y)). rewrite Hp. left. reflexivity.
  - apply (avail_at_range a n0 k (x, y)). rewrite Hp. left. reflexivity.
Qed.

Lemma min_index_exists : forall (avail_lst : list (list Z)) mn,
  py_min (map (@length Z) avail_lst) = Ok mn ->
  exists idx,
    In idx (indices_where (fun n => (n =? mn)%nat) (map (@length Z) avail_lst)).
Proof.
  intros avail_lst mn H. apply py_min_spec in H. destruct H as [Hin _].
  destruct (In_nth _ _ 0%nat Hin) as (idx & Hidx & E).
  exists idx. apply In_indices_where. split; [exact Hidx|].
  rewrite E. apply Nat.eqb_refl.
Qed.

(** A turn of propagation keeps the array acceptable and fills at least
    one empty cell. *)
Lemma fill_singles_progress : forall n0 k a,
  grid_ok n0 k a ->
  py_min (map (@length Z) (map (avail_at a n0 k) (nonzero_eq0 a)))
  = Ok 1%nat ->
  let a' := fill_singles a (map (avail_at a n0 k) (nonzero_eq0 a))
              (map fst (nonzero_eq0 a)) (map snd (nonzero_eq0 a))
              (indices_where (fun n => (n =? 1)%nat)
                 (map (@length Z) (map (avail_at a n0 k) (nonzero_eq0 a)))) in
  grid_ok n0 k a' /\ (count_zeros a' < count_zeros a)%nat.
Proof.
  intros n0 k a Hok Hmin.
  destruct (min_index_exists _ _ Hmin) as [idx0 Hidx0].
  set (indices := indices_where _ _) in *.
  assert (Hall : forall idx, In idx indices ->
            In idx (indices_where (fun n => (n =? 1)%nat)
              (map (@length Z) (map (avail_at a n0 k) (nonzero_eq0 a)))))
    by (intros; assumption).
  clearbody indices. destruct indices as [|i0 rest]; [contradiction|].
  cbv zeta. unfold fill_singles. simpl fold_left.
  destruct (single_write n0 k a i0 Hok (Hall i0 (or_introl eq_refl)))
    as (x & y & v & Ex & Ey & Ev & Hx & Hy & Hz & _ & Hv).
  rewrite Ex, Ey, Ev.
  apply (fill_singles_ind
           (fun b => grid_ok n0 k b /\ (count_zeros b < count_zeros a)%nat)).
  - split; [apply grid_ok_set_cell; auto; lia|].
    apply (count_zeros_set_nonzero n0 k); auto. lia.
  - intros b idx Hidx [Hb Hc].
    destruct (single_write n0 k a idx Hok (Hall idx (or_intror Hidx)))
      as (x' & y' & v' & Ex' & Ey' & Ev' & Hx' & Hy' & _ & _ & Hv').
    rewrite Ex', Ey', Ev'. split; [apply grid_ok_set_cell; auto; lia|].
    assert (count_zeros (set_cell b x' y' v') <= count_zeros b)%nat
      by (apply (count_zeros_set_nonzero n0 k); auto; lia).
    lia.
Qed.

Lemma solve_loop_terminates : forall n0 k fuel a n0_zeros,
  grid_ok n0 k a -> (count_zeros a < fuel)%nat ->
  exists s r, solve_loop fuel n0_zeros a (count_zeros a) = Some (Ok (s, r)).
Proof.
  intros n0 k fuel; induction fuel as [|fuel IH]; intros a n0_zeros Hok Hf;
    [lia|].
  rewrite solve_loop_S.
  destruct (Nat.ltb_spec 0 (count_zeros a)) as [Hz|Hz];
    [|eexists _, _; reflexivity].
  rewrite (available_digits_all n0 k a Hok). cbv zeta.
  destruct (py_min_nonempty
              (map (@length Z) (map (avail_at a n0 k) (nonzero_eq0 a))))
    as [mn Hmn].
  { rewrite count_zeros_cells in Hz.
    destruct (nonzero_eq0 a); [simpl in Hz; lia | discriminate]. }
  rewrite Hmn.
  destruct (mn =? 0)%nat; [eexists _, _; reflexivity|].
  destruct (Nat.eqb_spec mn 1) as [->|Hne].
  - destruct (fill_singles_progress n0 k a Hok Hmn) as [Hok' Hlt].
    apply IH; [exact Hok' | lia].
  - edestruct (branch_cells_ok
                 (fun tmp => solve_loop fuel (count_zeros tmp) tmp
                                        (count_zeros tmp)))
      as (sols' & recs' & E & _).
    2: { rewrite E. eexists _, _; reflexivity. }
    intros idx val Hidx Hval.
    destruct (index_of_where n0 k a _ idx Hok Hidx)
      as (x & y & Ex & Ey & Ea & Hx & Hy & Hz' & _).
    rewrite Ex, Ey. rewrite Ea in Hval.
    pose proof (avail_at_range _ _ _ _ _ Hval) as Hv.
    apply IH.
    + apply grid_ok_set_cell; auto; lia.
    + assert (count_zeros (set_cell a x y val) < count_zeros a)%nat
        by (apply (count_zeros_set_nonzero n0 k); auto; lia).
      lia.
Qed.

(** ** Every completion is found *)

Lemma completion_candidate : forall n0 k a s x y,
  grid_ok n0 k a -> complete_valid s -> shape0 s = n0 -> agrees a s ->
  (x < n0)%nat -> (y < n0)%nat -> get a x y = 0 ->
  In (get s x y) (avail_at a n0 k (x, y)).
Proof.
  intros n0 k a s x y (Hs & Hn & Hk & _) Hv Hsh Hag Hx Hy Hz.
  pose proof (complete_valid_cells s Hv) as [Hrng Hinj].
  rewrite Hsh in Hrng, Hinj.
  assert (Hq : Nat.sqrt n0 = k) by (subst n0; apply Nat.sqrt_square).
  rewrite Hq in Hinj.
  apply (In_avail_at n0); try assumption. split; [apply Hrng; assumption|].
  intros x' y' Hx' Hy' Hrel E.
  assert (Hnz : get a x' y' <> 0).
  { rewrite E. specialize (Hrng x y Hx Hy). lia. }
  pose proof (Hag x' y' Hnz) as Es.
  destruct (Hinj x y x' y' Hx Hy Hx' Hy' Hrel) as [-> ->]; [congruence|].
  contradiction.
Qed.

Lemma agrees_set_cell : forall n0 k b s x y,
  grid_ok n0 k b -> agrees b s -> (x < n0)%nat -> (y < n0)%nat ->
  agrees (set_cell b x y (get s x y)) s.
Proof.
  intros n0 k b s x y (Hs & _) Hag Hx Hy x' y' Hnz.
  apply square_shape_rows in Hs. destruct Hs as [Hl Hr].
  destruct (Nat.eq_dec x x') as [Ex|Nx]; [destruct (Nat.eq_dec y y') as [Ey|Ny]|].
  - subst x' y'. rewrite get_set_cell_same; [reflexivity | lia |].
    rewrite Hr by assumption. exact Hy.
  - rewrite get_set_cell_other in * by congruence. auto.
  - rewrite get_set_cell_other in * by congruence. auto.
Qed.

Lemma no_zero_cells : forall n0 a x y,
  square_shape n0 a -> count_zeros a = 0%nat ->
  (x < n0)%nat -> (y < n0)%nat -> get a x y <> 0.
Proof.
  intros n0 a x y Hs Hc Hx Hy Hz. rewrite count_zeros_cells in Hc.
  assert (Hin : In (x, y) (nonzero_eq0 a))
    by (apply (In_nonzero_eq0 n0); auto).
  destruct (nonzero_eq0 a); [contradiction | discriminate].
Qed.

Lemma solve_loop_complete : forall n0 k s,
  complete_valid s -> shape0 s = n0 -> n0 = (k * k)%nat ->
  forall fuel a n0_zeros,
    grid_ok n0 k a -> agrees a s -> (count_zeros a < fuel)%nat ->
    exists sols r,
      solve_loop fuel n0_zeros a (count_zeros a) = Some (Ok (Some sols, r))
      /\ In s sols.
Proof.
  intros n0 k s Hv Hsh Hn fuel; induction fuel as [|fuel IH];
    intros a n0_zeros Hok Hag Hf; [lia|].
  rewrite solve_loop_S.
  destruct (Nat.ltb_spec 0 (count_zeros a)) as [Hz|Hz].
  2: { eexists _, _. split; [reflexivity|]. left.
       apply (grid_ext n0).
       - destruct Hok; assumption.
       - rewrite <- Hsh. apply complete_valid_shape, Hv.
       - intros x y Hx Hy. symmetry. apply Hag.
         apply (no_zero_cells n0); [destruct Hok; assumption | lia | | ];
           assumption. }
  rewrite (available_digits_all n0 k a Hok). cbv zeta.
  destruct (py_min_nonempty
              (map (@length Z) (map (avail_at a n0 k) (nonzero_eq0 a))))
    as [mn Hmn].
  { rewrite count_zeros_cells in Hz.
    destruct (nonzero_eq0 a); [simpl in Hz; lia | discriminate]. }
  rewrite Hmn.
  destruct (min_index_exists _ _ Hmn) as [idx0 Hidx0].
  destruct (index_of_where n0 k a _ idx0 Hok Hidx0)
    as (x0 & y0 & Ex0 & Ey0 & Ea0 & Hx0 & Hy0 & Hz0 & Hl0).
  apply Nat.eqb_eq in Hl0.
  pose proof (completion_candidate n0 k a s x0 y0 Hok Hv Hsh Hag Hx0 Hy0 Hz0)
    as Hc0.
  assert (Hmn1 : (1 <= mn)%nat).
  { rewrite <- Hl0. destruct (avail_at a n0 k (x0, y0));
      [contradiction | simpl; lia]. }
  destruct (Nat.eqb_spec mn 0) as [|_]; [lia|].
  destruct (Nat.eqb_spec mn 1) as [->|Hne].
  - destruct (fill_singles_progress n0 k a Hok Hmn) as [Hok' Hlt].
    apply IH; [exact Hok' | | lia].
    apply (fill_singles_ind (fun b => grid_ok n0 k b /\ agrees b s));
      [split; assumption|].
    intros b idx Hidx [Hb Hbs].
    destruct (single_write n0 k a idx Hok Hidx)
      as (x & y & v & Ex & Ey & Ev & Hx & Hy & Hzc & Hav & Hvr).
    rewrite Ex, Ey, Ev.
    assert (Evs : v = get s x y).
    { pose proof (completion_candidate n0 k a s x y Hok Hv Hsh Hag Hx Hy Hzc)
        as Hc. rewrite Hav in Hc. destruct Hc as [Hc | []]. exact Hc. }
    rewrite Evs. split.
    + apply grid_ok_set_cell; auto. rewrite <- Evs. lia.
    + apply (agrees_set_cell n0 k); assumption.
  - edestruct (branch_cells_ok
                 (fun tmp => solve_loop fuel (count_zeros tmp) tmp
                                        (count_zeros tmp)))
      as (sols' & recs' & E & _ & Hfound).
    2: { rewrite E. eexists _, _. split; [reflexivity|].
         pose proof (avail_at_range _ _ _ _ _ Hc0) as Hr0.
         destruct (IH (set_cell a x0 y0 (get s x0 y0))
                      (count_zeros (set_cell a x0 y0 (get s x0 y0))))
           as (s0 & r0 & E0 & Hin0).
         - apply grid_ok_set_cell; auto; lia.
         - apply (agrees_set_cell n0 k); assumption.
         - assert (count_zeros (set_cell a x0 y0 (get s x0 y0))
                   < count_zeros a)%nat
             by (apply (count_zeros_set_nonzero n0 k); auto; lia).
           lia.
         - apply (Hfound idx0 (get s x0 y0) s0 r0 s Hidx0).
           + rewrite Ea0. exact Hc0.
           + rewrite Ex0, Ey0. exact E0.
           + exact Hin0. }
    intros idx val Hidx Hval.
    destruct (index_of_where n0 k a _ idx Hok Hidx)
      as (x & y & Ex & Ey & Ea & Hx & Hy & Hz' & _).
    rewrite Ex, Ey. rewrite Ea in Hval.
    pose proof (avail_at_range _ _ _ _ _ Hval) as Hvr.
    apply (solve_loop_terminates n0 k).
    + apply grid_ok_set_cell; auto; lia.
    + assert (count_zeros (set_cell a x y val) < count_zeros a)%nat
        by (apply (count_zeros_set_nonzero n0 k); auto; lia).
      lia.
Qed.

Lemma solve_sudoku_finds : forall p s,
  square_shape (shape0 p) p -> completion_of p s ->
  forall fuel, (count_zeros p < fuel)%nat ->
    exists sols r,
      solve_sudoku fuel p = Some (Ok (Some sols, r)) /\ In s sols.
Proof.
  intros p s Hs (Hsh & Hv & Hag) fuel Hf. unfold solve_sudoku.
  set (n0 := shape0 p) in *. set (k := Nat.sqrt n0).
  assert (Hn : n0 = (k * k)%nat).
  { destruct Hv as [Hn _]. rewrite Hsh in Hn. exact Hn. }
  destruct (Nat.eq_dec k 0) as [Hk0|Hk0].
  - assert (Hp : p = []).
    { destruct p; [reflexivity|]. unfold n0, shape0 in Hn. simpl in Hn. nia. }
    assert (Hs0 : s = []).
    { destruct s; [reflexivity|]. unfold shape0 in Hsh. simpl in Hsh.
      unfold n0, shape0 in Hsh. rewrite Hp in Hsh. discriminate. }
    subst p s. destruct fuel; [lia|]. eexists _, _.
    split; [reflexivity | left; reflexivity].
  - apply (solve_loop_complete n0 k s Hv Hsh Hn); try assumption.
    pose proof (complete_valid_cells s Hv) as [Hrng _]. rewrite Hsh in Hrng.
    split; [exact Hs|]. split; [exact Hn|]. split; [lia|].
    intros x y Hx Hy. destruct (Z.eq_dec (get p x y) 0) as [->|Hnz]; [lia|].
    rewrite <- (Hag x y Hnz). apply Hrng; assumption.
Qed.

Lemma agreesb_true : forall p s, agreesb p s = true -> agrees p s.
Proof.
  intros p s H x y Hnz. unfold agreesb in H. rewrite forallb_forall in H.
  destruct (Nat.lt_ge_cases x (length p)) as [Hx|Hx].
  - specialize (H x ltac:(apply in_seq; lia)). rewrite forallb_forall in H.
    destruct (Nat.lt_ge_cases y (length (nth x p []))) as [Hy|Hy].
    + specialize (H y ltac:(apply in_seq; lia)).
      apply orb_true_iff in H. destruct H as [H|H]; apply Z.eqb_eq in H;
        [contradiction | exact H].
    + exfalso. apply Hnz. unfold get. apply nth_overflow. exact Hy.
  - exfalso. apply Hnz. unfold get. rewrite (nth_overflow p [] Hx).
    apply nth_nil.
Qed.

Lemma valid_partial_g_two : valid_partial g_two.
Proof.
  unfold valid_partial. change (shape0 g_two) with 4%nat.
  change (Nat.sqrt 4) with 2%nat.
  split; [split; [reflexivity | repeat constructor]|].
  split; [reflexivity|]. split; [|split].
  - intros x Hx.
    do 4 (destruct x as [|x]; [simpl; nodup_consts|]). lia.
  - intros y Hy.
    do 4 (destruct y as [|y]; [simpl; nodup_consts|]). lia.
  - intros bx by_ Hbx Hby.
    do 2 (destruct bx as [|bx];
          [do 2 (destruct by_ as [|by_]; [simpl; nodup_consts|]); lia|]).
    lia.
Qed.

Lemma completions_of_g_two : forall s,
  completion_of g_two s <-> s = g_two_a \/ s = g_two_b.
Proof.
  intros s. split.
  - intros Hc.
    destruct (solve_sudoku_finds g_two s) with (fuel := 10%nat)
      as (sols & r & E & Hin).
    + destruct valid_partial_g_two as [Hs _]. exact Hs.
    + exact Hc.
    + vm_compute. lia.
    + vm_compute in E. inversion E; subst sols. simpl in Hin.
      intuition auto.
  - intros [-> | ->]; (split; [reflexivity|]);
      (split; [apply complete_validb_true | apply agreesb_true]);
      vm_compute; reflexivity.
Qed.

(** C3, as stated, fails: [g_two] is a valid partial grid with exactly two
    completions, and the solver returns a list of eight grids in which
    each completion occurs four times. *)
Lemma solve_sudoku_repeats_solutions :
  valid_partial g_two
  /\ (forall s, completion_of g_two s <-> s = g_two_a \/ s = g_two_b)
  /\ g_two_a <> g_two_b
  /\ exists sols,
      solutions_of (solve_sudoku 10 g_two) = Some (Some sols)
      /\ length sols = 8%nat /\ ~ NoDup sols.
Proof.
  split; [exact valid_partial_g_two|]. split; [exact completions_of_g_two|].
  split; [discriminate|]. eexists. split; [vm_compute; reflexivity|].
  split; [reflexivity|]. intros Hnd.
  inversion Hnd as [|g l Hnin _]. apply Hnin. simpl. auto 6.
Qed.

(** C3, amended.  The solution list may repeat a grid, since the branch
    step recurses over every cell tied for the minimum and concatenates
    all results; what holds for every valid partial grid is that each of
    its completions occurs in the returned list. *)
Theorem solve_sudoku_complete :
  forall p s, valid_partial p -> completion_of p s ->
    exists fuel0, forall fuel, (fuel0 <= fuel)%nat ->
      exists sols r,
        solve_sudoku fuel p = Some (Ok (Some sols, r)) /\ In s sols.
Proof.
  intros p s [Hs _] Hc. exists (S (count_zeros p)). intros fuel Hf.
  apply solve_sudoku_finds; [exact Hs | exact Hc | lia].
Qed.

Lemma solve_sudoku_complete_witness :
  valid_partial g_two /\ completion_of g_two g_two_a
  /\ exists fuel0, forall fuel, (fuel0 <= fuel)%nat ->
       exists sols r,
         solve_sudoku fuel g_two = Some (Ok (Some sols, r))
         /\ In g_two_a sols.
Proof.
  assert (Hc : completion_of g_two g_two_a).
  { split; [reflexivity|].
    split; [apply complete_validb_true | apply agreesb_true];
      vm_compute; reflexivity. }
  split; [exact valid_partial_g_two|]. split; [exact Hc|].
  apply (solve_sudoku_complete g_two g_two_a valid_partial_g_two Hc).
Defined.

(** * Binary64 arithmetic *)

Section FloatLemmas.

Lemma pow2_pos : forall t, (0 < pow2 t)%Q.
Proof.
  intros t. unfold pow2. destruct (0 <=? t) eqn:E.
  - rewrite <- (Zlt_Qlt 0). apply Z.pow_pos_nonneg; lia.
  - apply Qinv_lt_0_compat. rewrite <- (Zlt_Qlt 0).
    apply Z.pow_pos_nonneg; [lia|]. apply Z.leb_gt in E. lia.
Qed.

Lemma pow2_le_1 : forall t, t <= 0 -> (pow2 t <= 1)%Q.
Proof.
  intros t Ht. unfold pow2. destruct (Z.leb_spec 0 t) as [H|H].
  - replace t with 0 by lia. simpl. apply Qle_refl.
  - assert (Hp : 1 <= 2 ^ (- t)) by (apply (Z.pow_le_mono_r 2 0); lia).
    rewrite Zle_Qle in Hp.
    assert (H0 : (0 < inject_Z (2 ^ (- t)))%Q)
      by (rewrite <- (Zlt_Qlt 0); apply Z.pow_pos_nonneg; lia).
    apply Qle_shift_inv_r; [exact H0|]. rewrite Qmult_1_l. exact Hp.
Qed.

Lemma nearest_even_error : forall x,
  (Qabs (inject_Z (nearest_even x) - x) <= 1 # 2)%Q.
Proof.
  intros x. unfold nearest_even.
  pose proof (Qfloor_le x) as Hlo. pose proof (Qlt_floor x) as Hhi.
  rewrite inject_Z_plus in Hhi. change (inject_Z 1) with 1%Q in Hhi.
  apply Qabs_Qle_condition.
  destruct (Qcompare_spec (x - inject_Z (Qfloor x)) (1 # 2)) as [E|E|E].
  - destruct (Z.even (Qfloor x));
      [|rewrite inject_Z_plus; change (inject_Z 1) with 1%Q]; split; lra.
  - split; lra.
  - rewrite inject_Z_plus. change (inject_Z 1) with 1%Q. split; lra.
Qed.

Lemma nearest_even_nonneg : forall x, (0 <= x)%Q -> 0 <= nearest_even x.
Proof.
  intros x Hx. unfold nearest_even.
  assert (H0 : 0 <= Qfloor x).
  { rewrite <- (Qfloor_Z 0). apply Qfloor_resp_le. exact Hx. }
  destruct (_ ?= _)%Q; [destruct (Z.even _)| |]; lia.
Qed.

Lemma quantum_le : forall q,
  (pow2 (Z.max (binade (Qabs q) - 52) (-1074)) <= Qabs q + 1)%Q.
Proof.
  intros q. pose proof (Qabs_nonneg q) as Ha.
  set (a := Qabs q) in *. set (t := Z.max _ _).
  destruct (Z.le_gt_cases t 0) as [Ht|Ht].
  - pose proof (pow2_le_1 t Ht). lra.
  - assert (Hb : t <= binade a - 52) by lia. clearbody t.
    unfold binade in Hb. destruct (Qle_bool 1 a) eqn:E1.
    + apply Qle_bool_iff in E1.
      assert (Hf : 1 <= Qfloor a).
      { rewrite <- (Qfloor_Z 1). apply Qfloor_resp_le. exact E1. }
      assert (Hl : 2 ^ Z.log2 (Qfloor a) <= Qfloor a)
        by (apply Z.log2_spec; lia).
      assert (Hp : 2 ^ t <= 2 ^ Z.log2 (Qfloor a))
        by (apply Z.pow_le_mono_r; lia).
      unfold pow2. replace (0 <=? t) with true
        by (symmetry; apply Z.leb_le; lia).
      assert (Hq : (inject_Z (2 ^ t) <= inject_Z (Qfloor a))%Q)
        by (rewrite <- Zle_Qle; lia).
      pose proof (Qfloor_le a). lra.
    + cbv zeta in Hb. pose proof (Z.log2_nonneg (Qfloor (/ a))).
      destruct (Qle_bool _ a) in Hb; lia.
Qed.

Lemma round64_close : forall q,
  (Qabs (round64 q - q) <= (1 # 2) * (Qabs q + 1))%Q.
Proof.
  intros q. pose proof (Qabs_nonneg q) as Ha.
  apply Qabs_Qle_condition. unfold round64.
  destruct (Qeq_bool q 0) eqn:E0.
  - apply Qeq_bool_iff in E0. split; lra.
  - apply Qeq_bool_neq in E0.
    pose proof (quantum_le q) as Hq.
    set (t := Z.max _ _) in *.
    pose proof (pow2_pos t) as Hp.
    pose proof (nearest_even_error (q / pow2 t)) as Hm.
    apply Qabs_Qle_condition in Hm.
    set (m := inject_Z (nearest_even (q / pow2 t))) in *.
    rewrite Qred_correct.
    assert (Hu : q == (q / pow2 t) * pow2 t) by (field; lra).
    set (u := (q / pow2 t)%Q) in *.
    set (p := pow2 t) in *. set (a := Qabs q) in *.
    split; nra.
Qed.

Lemma round64_bound : forall q,
  (Qabs (round64 q) <= (3 # 2) * Qabs q + (1 # 2))%Q.
Proof.
  intros q. pose proof (round64_close q) as H.
  apply Qabs_Qle_condition in H. apply Qabs_Qle_condition.
  revert H. apply (Qabs_case q); intros; split; lra.
Qed.

Lemma round64_nonneg : forall q, (0 <= q)%Q -> (0 <= round64 q)%Q.
Proof.
  intros q Hq. unfold round64. destruct (Qeq_bool q 0); [apply Qle_refl|].
  set (t := Z.max _ _). pose proof (pow2_pos t) as Hp.
  rewrite Qred_correct. apply Qmult_le_0_compat; [|lra].
  rewrite <- (Zle_Qle 0). apply nearest_even_nonneg.
  apply Qle_shift_div_l; [exact Hp|]. lra.
Qed.

(** A result below the largest float in magnitude is a finite float. *)
Lemma fl_bounded : forall q B,
  (Qabs q <= inject_Z B)%Q -> 2 * B + 1 < 2 ^ 1024 ->
  exists v, fl q = Some v /\ (Qabs v <= inject_Z (2 * B + 1))%Q.
Proof.
  intros q B Hq HB. pose proof (round64_bound q) as Hr.
  pose proof (Qabs_nonneg q) as Ha.
  assert (Hv : (Qabs (round64 q) <= inject_Z (2 * B + 1))%Q).
  { rewrite inject_Z_plus, inject_Z_mult.
    change (inject_Z 2) with 2%Q. change (inject_Z 1) with 1%Q. lra. }
  exists (round64 q). split; [|exact Hv].
  unfold fl. destruct (Qle_bool _ _) eqn:E; [|reflexivity].
  exfalso. apply Qle_bool_iff in E. rewrite Zlt_Qlt in HB.
  apply (Qlt_irrefl (inject_Z (2 ^ 1024))).
  eapply Qle_lt_trans; [exact E|]. eapply Qle_lt_trans; [exact Hv|exact HB].
Qed.

Lemma fl_nonneg : forall q v, (0 <= q)%Q -> fl q = Some v -> (0 <= v)%Q.
Proof.
  intros q v Hq. unfold fl. destruct (Qle_bool _ _); [discriminate|].
  intros E. injection E as <-. apply round64_nonneg. exact Hq.
Qed.

Lemma pow2_nonpos : forall t, t <= 0 ->
  (pow2 t * inject_Z (2 ^ (- t)) == 1)%Q.
Proof.
  intros t Ht. unfold pow2. destruct (Z.leb_spec 0 t) as [H|H].
  - replace t with 0 by lia. reflexivity.
  - assert (H0 : (0 < inject_Z (2 ^ (- t)))%Q)
      by (rewrite <- (Zlt_Qlt 0); apply Z.pow_pos_nonneg; lia).
    field. lra.
Qed.

Lemma Qdiv_inverse : forall x p c : Q,
  (0 < p)%Q -> p * c == 1 -> x / p == x * c.
Proof.
  intros x p c Hp H. rewrite <- (Qmult_1_r x) at 1. rewrite <- H.
  field. lra.
Qed.

Lemma nearest_even_int : forall x z, x == inject_Z z -> nearest_even x = z.
Proof.
  intros x z E. unfold nearest_even.
  assert (Hf : Qfloor x = z) by (rewrite E; apply Qfloor_Z).
  cbv zeta. rewrite Hf.
  destruct (Qcompare_spec (x - inject_Z z) (1 # 2)) as [H|H|H];
    [exfalso; lra | reflexivity | exfalso; lra].
Qed.

(** An [int] of 53 bits or fewer converts to a float without rounding. *)
Lemma round64_int : forall n, 0 <= n < 2 ^ 53 ->
  round64 (inject_Z n) == inject_Z n.
Proof.
  intros n Hn. unfold round64.
  destruct (Qeq_bool (inject_Z n) 0) eqn:E0.
  - apply Qeq_bool_iff in E0. symmetry. exact E0.
  - apply Qeq_bool_neq in E0.
    assert (Hpos : 0 < n).
    { destruct (Z.eq_dec n 0) as [->|]; [exfalso; apply E0; reflexivity|lia]. }
    assert (Hq : (1 <= inject_Z n)%Q) by (rewrite <- (Zle_Qle 1); lia).
    change (Qabs (inject_Z n)) with (inject_Z (Z.abs n)).
    rewrite Z.abs_eq by lia.
    unfold binade. replace (Qle_bool 1 (inject_Z n)) with true
      by (symmetry; apply Qle_bool_iff; exact Hq).
    rewrite Qfloor_Z.
    assert (He : Z.log2 n < 53) by (apply Z.log2_lt_pow2; lia).
    pose proof (Z.log2_nonneg n) as He0.
    set (t := Z.max _ _).
    assert (Ht : t <= 0) by (unfold t; lia).
    pose proof (pow2_nonpos t Ht) as Hp. pose proof (pow2_pos t) as Hp0.
    rewrite Qred_correct.
    rewrite (nearest_even_int _ (n * 2 ^ (- t))).
    + rewrite inject_Z_mult. set (c := inject_Z (2 ^ (- t))) in *.
      rewrite <- Qmult_assoc, (Qmult_comm c), Hp. apply Qmult_1_r.
    + rewrite inject_Z_mult. apply Qdiv_inverse; assumption.
Qed.

Lemma fl_int : forall n, 0 <= n < 2 ^ 53 ->
  exists v, fl (inject_Z n) = Some v /\ v == inject_Z n.
Proof.
  intros n Hn. pose proof (round64_int n Hn) as E.
  exists (round64 (inject_Z n)). split; [|exact E].
  unfold fl. destruct (Qle_bool _ _) eqn:Eb; [|reflexivity].
  exfalso. apply Qle_bool_iff in Eb. rewrite E in Eb.
  change (Qabs (inject_Z n)) with (inject_Z (Z.abs n)) in Eb.
  rewrite Z.abs_eq in Eb by lia.
  rewrite <- Zle_Qle in Eb.
  assert (2 ^ 53 < 2 ^ 1024) by (apply Z.pow_lt_mono_r; lia). lia.
Qed.

(** The float square root of a square of 53 bits or fewer is its side. *)
Lemma sqrt64_square : forall k, 0 <= k -> k * k < 2 ^ 53 ->
  sqrt64 (k * k) == inject_Z k.
Proof.
  intros k Hk Hkk. unfold sqrt64.
  destruct (Z.leb_spec (k * k) 0) as [H0|H0].
  - assert (k = 0) by nia. subst k. reflexivity.
  - assert (Hl : Z.log2 (k * k) < 53) by (apply Z.log2_lt_pow2; lia).
    pose proof (Z.log2_nonneg (k * k)) as Hl0.
    assert (Ht : Z.log2 (k * k) / 2 - 52 < 0).
    { generalize dependent (Z.log2 (k * k)). intros l Hl Hl0.
      pose proof (Z.div_le_upper_bound l 2 26). lia. }
    set (t := Z.log2 (k * k) / 2 - 52) in *.
    pose proof (pow2_nonpos t (Z.lt_le_incl _ _ Ht)) as Hp.
    pose proof (pow2_pos t) as Hp0.
    assert (Hp2 : (pow2 (2 * t) * inject_Z (2 ^ (- t) * 2 ^ (- t)) == 1)%Q).
    { rewrite <- Z.pow_add_r by lia. replace (- t + - t) with (- (2 * t)) by lia.
      apply pow2_nonpos. lia. }
    pose proof (pow2_pos (2 * t)) as Hp20.
    set (c := 2 ^ (- t)) in *.
    assert (Hc : 0 < c) by (apply Z.pow_pos_nonneg; lia).
    assert (Hy : (inject_Z (k * k) / pow2 (2 * t)
                  == inject_Z ((k * c) * (k * c)))%Q).
    { replace (k * c * (k * c)) with (k * k * (c * c)) by ring.
      rewrite (inject_Z_mult (k * k)). apply Qdiv_inverse; assumption. }
    assert (Hfl : Qfloor (inject_Z (k * k) / pow2 (2 * t))
                  = (k * c) * (k * c)).
    { rewrite Hy. apply Qfloor_Z. }
    assert (Hlt : (4 * (inject_Z (k * k) / pow2 (2 * t))
                   ?= inject_Z ((2 * (k * c) + 1) ^ 2))%Q = Lt).
    { rewrite Hy, <- Qlt_alt, <- (inject_Z_mult 4), <- Zlt_Qlt. nia. }
    cbv zeta. rewrite Hfl, Z.sqrt_square by nia. rewrite Hlt.
    rewrite Qred_correct, inject_Z_mult.
    rewrite <- Qmult_assoc, (Qmult_comm (inject_Z c)), Hp. apply Qmult_1_r.
Qed.

(** The quantum of a number of magnitude 1 or more is at most that
    magnitude: rounding keeps the sign. *)
Lemma quantum_le_abs : forall q, (1 <= Qabs q)%Q ->
  (pow2 (Z.max (binade (Qabs q) - 52) (-1074)) <= Qabs q)%Q.
Proof.
  intros q Ha.
  set (a := Qabs q) in *. set (t := Z.max _ _).
  destruct (Z.le_gt_cases t 0) as [Ht|Ht].
  - pose proof (pow2_le_1 t Ht). lra.
  - assert (Hb : t <= binade a - 52) by (unfold t; lia). clearbody t.
    unfold binade in Hb.
    replace (Qle_bool 1 a) with true in Hb
      by (symmetry; apply Qle_bool_iff; exact Ha).
    assert (Hf : 1 <= Qfloor a).
    { rewrite <- (Qfloor_Z 1). apply Qfloor_resp_le. exact Ha. }
    assert (Hl : 2 ^ Z.log2 (Qfloor a) <= Qfloor a)
      by (apply Z.log2_spec; lia).
    assert (Hp : 2 ^ t <= 2 ^ Z.log2 (Qfloor a))
      by (apply Z.pow_le_mono_r; lia).
    unfold pow2. replace (0 <=? t) with true
      by (symmetry; apply Z.leb_le; lia).
    assert (Hq : (inject_Z (2 ^ t) <= inject_Z (Qfloor a))%Q)
      by (rewrite <- Zle_Qle; lia).
    pose proof (Qfloor_le a). lra.
Qed.

Lemma round64_negative : forall q, (q <= - (1))%Q -> (round64 q < 0)%Q.
Proof.
  intros q Hq. unfold round64.
  destruct (Qeq_bool q 0) eqn:E0.
  - apply Qeq_bool_iff in E0. lra.
  - assert (Ha : Qabs q == - q) by (apply Qabs_neg; lra).
    assert (Ha1 : (1 <= Qabs q)%Q) by lra.
    pose proof (quantum_le_abs q Ha1) as Hq'.
    set (t := Z.max _ _) in *.
    pose proof (pow2_pos t) as Hp.
    pose proof (nearest_even_error (q / pow2 t)) as Hm.
    apply Qabs_Qle_condition in Hm.
    set (m := inject_Z (nearest_even (q / pow2 t))) in *.
    rewrite Qred_correct.
    assert (Hu : q == (q / pow2 t) * pow2 t) by (field; lra).
    set (u := (q / pow2 t)%Q) in *.
    set (p := pow2 t) in *. set (a := Qabs q) in *.
    nra.
Qed.

(** The size check of the generator on a square of 53 bits or fewer, on
    a negative size, and on a size within the range of the floats. *)
Lemma size_root_square : forall k, 0 <= k -> k * k < 2 ^ 53 ->
  size_root (k * k) = Ok k.
Proof.
  intros k Hk Hkk. unfold size_root.
  destruct (fl_int (k * k)) as (v & Ev & Hv); [nia|]. rewrite Ev.
  assert (H0 : (0 <= v)%Q) by (rewrite Hv, <- (Zle_Qle 0); nia).
  apply Qle_bool_iff in H0. rewrite H0.
  rewrite Hv, Qfloor_Z, (sqrt64_square k Hk Hkk), Qfloor_Z. reflexivity.
Qed.

Lemma size_root_side : forall k : nat, Z.of_nat (k * k) < 2 ^ 53 ->
  size_root (Z.of_nat (k * k)) = Ok (Z.of_nat k).
Proof.
  intros k Hk. rewrite Nat2Z.inj_mul in *. apply size_root_square; lia.
Qed.

Lemma size_root_negative : forall n, n < 0 ->
  size_root n = Raise TypeError \/ size_root n = Raise OverflowError.
Proof.
  intros n Hn. unfold size_root, fl.
  destruct (Qle_bool (inject_Z (2 ^ 1024)) _); [right; reflexivity|].
  left. assert (H : (round64 (inject_Z n) < 0)%Q).
  { apply round64_negative. change (- (1))%Q with (inject_Z (-1)).
    rewrite <- Zle_Qle. lia. }
  destruct (Qle_bool 0 _) eqn:E; [|reflexivity].
  apply Qle_bool_iff in E. lra.
Qed.

Lemma size_root_in_range : forall n, - 2 ^ 1023 < n < 2 ^ 1023 ->
  (n < 0 -> size_root n = Raise TypeError)
  /\ (0 <= n -> exists root, size_root n = Ok root).
Proof.
  intros n Hn.
  assert (Hfin : exists v, fl (inject_Z n) = Some v).
  { destruct (fl_bounded (inject_Z n) (2 ^ 1023 - 1)) as (v & Ev & _).
    - change (Qabs (inject_Z n)) with (inject_Z (Z.abs n)).
      rewrite <- Zle_Qle. lia.
    - change (2 ^ 1024) with (2 * 2 ^ 1023). lia.
    - exists v. exact Ev. }
  destruct Hfin as (v & Ev). split.
  - intros Hneg. destruct (size_root_negative n Hneg) as [E|E]; [exact E|].
    unfold size_root in E. rewrite Ev in E.
    destruct (Qle_bool 0 v); discriminate.
  - intros Hpos. unfold size_root. rewrite Ev.
    assert (H0 : (0 <= v)%Q).
    { apply (fl_nonneg (inject_Z n)); [|exact Ev].
      rewrite <- (Zle_Qle 0). exact Hpos. }
    apply Qle_bool_iff in H0. rewrite H0. eexists. reflexivity.
Qed.

(** The verdict of the size check where the root is no float: a size
    that is not a square is refused for every root, and so is the square
    of [2 ^ 53 + 1], which is no float, for every other root. *)
Lemma size_check_any_root : forall n root : Z,
  ((forall k, n <> k * k) -> (n =? root ^ 2) = false)
  /\ (0 <= root -> root <> 2 ^ 53 + 1 ->
      ((2 ^ 53 + 1) ^ 2 =? root ^ 2) = false)
  /\ round64 (inject_Z (2 ^ 53 + 1)) == inject_Z (2 ^ 53).
Proof.
  intros n root. split; [|split].
  - intros H. apply Z.eqb_neq. rewrite Z.pow_2_r. apply H.
  - intros H0 Hne. apply Z.eqb_neq. intros E.
    apply Z.pow_inj_l in E; lia.
  - vm_compute. reflexivity.
Qed.

End FloatLemmas.

(** * The full-grid generator *)

Lemma bind_Ok_inv : forall (A B : Type) (r : result A) (k : A -> result B) b,
  bind r k = Ok b -> exists a, r = Ok a /\ k a = Ok b.
Proof.
  intros A B [a|e] k b H; simpl in H; [eauto | discriminate].
Qed.

Section SizeCheck.
Variables (rng seedT : Type) (seed_state : seedT -> rng).
Variable shuffle : forall A : Type, rng -> list A -> list A * rng.

(** C8, amended.  [gen_sudoku_full] raises the size error for every
    positive size below [2 ^ 1023] that is not a perfect square, and the
    size 0 passes the check (0 = 0 * 0): the empty array is returned.  A
    negative size does not reach the comparison: the call fails in the
    square root, with an error of another kind. *)
Theorem gen_sudoku_full_size_check :
  forall (fuel : nat) (array_size : Z) (random_seed : seedT),
    (0 < array_size < 2 ^ 1023 -> (forall k, array_size <> k * k) ->
     gen_sudoku_full rng seedT seed_state shuffle fuel array_size random_seed
     = Some (Raise InvalidSize))
    /\ (array_size = 0 ->
        gen_sudoku_full rng seedT seed_state shuffle (S fuel) array_size
                        random_seed
        = Some (Ok []))
    /\ (array_size < 0 ->
        gen_sudoku_full rng seedT seed_state shuffle fuel array_size
                        random_seed
        = Some (Raise TypeError)
        \/ gen_sudoku_full rng seedT seed_state shuffle fuel array_size
                           random_seed
           = Some (Raise OverflowError)).
Proof.
  intros fuel array_size random_seed. unfold gen_sudoku_full.
  split; [|split].
  - intros Hpos Hsq.
    destruct (size_root_in_range array_size) as [_ Hroot]; [lia|].
    destruct Hroot as [root ->]; [lia|].
    destruct (Z.eqb_spec array_size (root ^ 2)) as [E|_]; [|reflexivity].
    exfalso. apply (Hsq root). rewrite E at 1. apply Z.pow_2_r.
  - intros ->. change 0 with (0 * 0) at 1.
    rewrite (size_root_square 0) by lia. reflexivity.
  - intros Hneg.
    destruct (size_root_negative array_size Hneg) as [-> | ->];
      [left | right]; reflexivity.
Qed.

End SizeCheck.

Lemma gen_sudoku_full_size_check_witness :
  0 < 5 < 2 ^ 1023 /\ (forall k, 5 <> k * k)
  /\ gen_sudoku_full unit unit unit_seed id_shuffle 0 5 tt
     = Some (Raise InvalidSize)
  /\ gen_sudoku_full unit unit unit_seed id_shuffle 1 0 tt = Some (Ok [])
  /\ (gen_sudoku_full unit unit unit_seed id_shuffle 0 (-4) tt
      = Some (Raise TypeError)
      \/ gen_sudoku_full unit unit unit_seed id_shuffle 0 (-4) tt
         = Some (Raise OverflowError)).
Proof.
  assert (H5 : forall k, 5 <> k * k).
  { intros k Hk. assert (Hb : -3 < k < 3) by nia.
    assert (Hc : k = -2 \/ k = -1 \/ k = 0 \/ k = 1 \/ k = 2) by lia.
    destruct Hc as [-> | [-> | [-> | [-> | ->]]]]; discriminate. }
  assert (Hr : 0 < 5 < 2 ^ 1023) by (split; reflexivity).
  split; [exact Hr|]. split; [exact H5|]. split; [|split].
  - apply (gen_sudoku_full_size_check unit unit unit_seed id_shuffle 0 5 tt);
      [exact Hr | exact H5].
  - apply (gen_sudoku_full_size_check unit unit unit_seed id_shuffle 0 0 tt).
    reflexivity.
  - apply (gen_sudoku_full_size_check unit unit unit_seed id_shuffle 0 (-4) tt).
    reflexivity.
Defined.

(** C8, as stated, fails: the size 0 is not rejected, the generator
    returns the empty array; and the sizes [-4] and [10 ^ 401], not
    squares of a positive side, fail with errors that are not the size
    error. *)
Lemma gen_sudoku_full_accepts_zero :
  gen_sudoku_full unit unit unit_seed id_shuffle 1 0 tt = Some (Ok [])
  /\ gen_sudoku_full unit unit unit_seed id_shuffle 1 0 tt
     <> Some (Raise InvalidSize)
  /\ gen_sudoku_full unit unit unit_seed id_shuffle 1 (-4) tt
     = Some (Raise TypeError)
  /\ gen_sudoku_full unit unit unit_seed id_shuffle 1 (10 ^ 401) tt
     = Some (Raise OverflowError).
Proof.
  split; [vm_compute; reflexivity|]. split; [vm_compute; discriminate|].
  split; vm_compute; reflexivity.
Qed.

(** ** A complete grid of every side *)

Section ShiftedGrid.
Local Open Scope nat_scope.

Lemma mod_eq_close : forall n u v,
  0 < n -> u mod n = v mod n -> u < v + n -> v < u + n -> u = v.
Proof.
  intros n u v Hn E Huv Hvu.
  pose proof (Nat.div_mod_eq u n) as Du.
  pose proof (Nat.div_mod_eq v n) as Dv.
  assert (Hq : u / n = v / n).
  { destruct (Nat.lt_trichotomy (u / n) (v / n)) as [L | [L | L]];
      [|assumption|].
    - assert (n * (u / n + 1) <= n * (v / n))
        by (apply Nat.mul_le_mono_l; lia). lia.
    - assert (n * (v / n + 1) <= n * (u / n))
        by (apply Nat.mul_le_mono_l; lia). lia. }
  rewrite Du, Dv, Hq, E. reflexivity.
Qed.

Lemma digits_lt : forall k x, 0 < k -> x < k * k ->
  x / k < k /\ x mod k < k /\ x = x / k * k + x mod k.
Proof.
  intros k x Hk Hx. split; [|split].
  - apply Nat.Div0.div_lt_upper_bound. exact Hx.
  - apply Nat.mod_upper_bound. lia.
  - apply split_box. exact Hk.
Qed.

Lemma length_shifted_grid : forall k, square_shape (k * k) (shifted_grid k).
Proof.
  intros k. unfold shifted_grid. split.
  - rewrite length_map, length_seq. reflexivity.
  - apply Forall_forall. intros r Hr. apply in_map_iff in Hr.
    destruct Hr as (x & <- & _). rewrite length_map, length_seq. reflexivity.
Qed.

Lemma get_shifted_grid : forall k x y,
  x < k * k -> y < k * k ->
  get (shifted_grid k) x y = (Z.of_nat (shifted_val k x y) + 1)%Z.
Proof.
  intros k x y Hx Hy. unfold get, shifted_grid.
  rewrite (nth_indep _ []
             ((fun x => map (fun y => (Z.of_nat (shifted_val k x y) + 1)%Z)
                            (seq 0 (k * k))) 0))
    by (rewrite length_map, length_seq; exact Hx).
  rewrite (map_nth (fun x => map (fun y => (Z.of_nat (shifted_val k x y) + 1)%Z)
                                 (seq 0 (k * k)))).
  rewrite seq_nth by exact Hx. simpl plus.
  rewrite (nth_indep _ 0%Z
             ((fun y => (Z.of_nat (shifted_val k x y) + 1)%Z) 0))
    by (rewrite length_map, length_seq; exact Hy).
  rewrite (map_nth (fun y => (Z.of_nat (shifted_val k x y) + 1)%Z)).
  rewrite seq_nth by exact Hy. reflexivity.
Qed.

Lemma shifted_val_inj : forall k x y x' y',
  0 < k -> x < k * k -> y < k * k -> x' < k * k -> y' < k * k ->
  related k x y x' y' -> shifted_val k x y = shifted_val k x' y' ->
  x = x' /\ y = y'.
Proof.
  intros k x y x' y' Hk Hx Hy Hx' Hy' Hrel E. unfold shifted_val in E.
  destruct (digits_lt k x Hk Hx) as (Qx & Mx & Sx).
  destruct (digits_lt k y Hk Hy) as (Qy & My & Sy).
  destruct (digits_lt k x' Hk Hx') as (Qx' & Mx' & Sx').
  destruct (digits_lt k y' Hk Hy') as (Qy' & My' & Sy').
  pose proof (box_cell_lt k (x mod k) (x / k) Mx Qx) as Fx.
  pose proof (box_cell_lt k (x' mod k) (x' / k) Mx' Qx') as Fx'.
  assert (Hnn : 0 < k * k) by nia.
  destruct Hrel as [-> | [-> | [Ex Ey]]].
  - split; [reflexivity|].
    apply mod_eq_close in E; [lia | exact Hnn | lia | lia].
  - split; [|reflexivity].
    apply mod_eq_close in E; [| exact Hnn | lia | lia].
    assert (Hd : x mod k * k + x / k = x' mod k * k + x' / k) by lia.
    apply box_index in Hd; [|assumption..]. destruct Hd as [H1 H2].
    rewrite Sx, Sx', H1, H2. reflexivity.
  - pose proof (box_cell_lt k (x mod k) (y mod k) Mx My) as Gx.
    pose proof (box_cell_lt k (x' mod k) (y' mod k) Mx' My') as Gx'.
    apply mod_eq_close in E; [| exact Hnn | lia | lia].
    assert (Hd : x mod k * k + y mod k = x' mod k * k + y' mod k) by lia.
    apply box_index in Hd; [|assumption..]. destruct Hd as [H1 H2].
    split; [rewrite Sx, Sx' | rewrite Sy, Sy']; congruence.
Qed.

Lemma shifted_grid_valid : forall k, 0 < k -> complete_valid (shifted_grid k).
Proof.
  intros k Hk. apply (cells_complete_valid (k * k) k).
  - apply length_shifted_grid.
  - reflexivity.
  - split.
    + intros x y Hx Hy. rewrite get_shifted_grid by assumption.
      assert (shifted_val k x y < k * k)
        by (apply Nat.mod_upper_bound; nia).
      lia.
    + intros x y x' y' Hx Hy Hx' Hy' Hrel E.
      rewrite !get_shifted_grid in E by assumption.
      apply (shifted_val_inj k x y x' y'); try assumption. lia.
Qed.

End ShiftedGrid.

(** ** Lists read from the end, and the mesh *)

Section MeshLemmas.
Local Open Scope nat_scope.

Lemma py_get_nat : forall (A : Type) (l : list A) j d,
  j < length l -> py_get l (Z.of_nat j) = Ok (nth j l d).
Proof.
  intros A l j d Hj. unfold py_get.
  destruct (Z.ltb_spec (Z.of_nat j) 0); [lia|].
  destruct (Z.ltb_spec (Z.of_nat j) 0); [lia|].
  rewrite Nat2Z.id. rewrite (nth_error_nth' l d Hj). reflexivity.
Qed.

Lemma py_get_last : forall (A : Type) (init : list A) top,
  py_get (init ++ [top]) (Z.of_nat (length (init ++ [top])) - 1) = Ok top.
Proof.
  intros A init top. rewrite length_app. simpl length.
  replace (Z.of_nat (length init + 1) - 1)%Z with (Z.of_nat (length init))
    by lia.
  rewrite (py_get_nat _ _ _ top) by (rewrite length_app; simpl; lia).
  rewrite app_nth2 by lia. rewrite Nat.sub_diag. reflexivity.
Qed.

Lemma upd_last : forall (A : Type) (f : A -> A) (init : list A) top,
  upd (length init) f (init ++ [top]) = init ++ [f top].
Proof.
  intros A f init top; induction init as [|h t IH]; simpl;
    [reflexivity | rewrite IH; reflexivity].
Qed.

Lemma py_upd_last : forall (A : Type) (f : A -> A) (init : list A) top,
  py_upd (init ++ [top]) (Z.of_nat (length (init ++ [top])) - 1) f
  = Ok (init ++ [f top]).
Proof.
  intros A f init top. unfold py_upd. rewrite length_app. simpl length.
  replace (Z.of_nat (length init + 1) - 1)%Z with (Z.of_nat (length init))
    by lia.
  destruct (Z.ltb_spec (Z.of_nat (length init)) 0); [lia|].
  destruct (Z.ltb_spec (Z.of_nat (length init)) 0); [lia|].
  destruct (Z.leb_spec (Z.of_nat (length init + 1)) (Z.of_nat (length init)));
    [lia|].
  simpl. rewrite Nat2Z.id, upd_last. reflexivity.
Qed.

Lemma length_mesh_x : forall n0, length (mesh_x n0) = n0 * n0.
Proof.
  intros n0. unfold mesh_x. rewrite flat_map_concat_map.
  rewrite (length_concat_rect _ n0).
  - rewrite length_map, length_seq. reflexivity.
  - apply Forall_forall. intros l Hl. apply in_map_iff in Hl.
    destruct Hl as (x & <- & _). apply repeat_length.
Qed.

Lemma length_mesh_y : forall n0, length (mesh_y n0) = n0 * n0.
Proof.
  intros n0. unfold mesh_y. rewrite (length_concat_rect _ n0).
  - rewrite repeat_length. reflexivity.
  - apply Forall_forall. intros l Hl. apply repeat_spec in Hl. subst l.
    apply length_seq.
Qed.

Lemma index_split : forall n0 j, j < n0 * n0 ->
  j / n0 < n0 /\ j mod n0 < n0 /\ j = j / n0 * n0 + j mod n0.
Proof.
  intros n0 j Hj. assert (Hn : 0 < n0) by nia. apply digits_lt; assumption.
Qed.

Lemma nth_mesh_x : forall n0 j, j < n0 * n0 -> nth j (mesh_x n0) 0 = j / n0.
Proof.
  intros n0 j Hj. destruct (index_split n0 j Hj) as (Hq & Hr & E).
  rewrite E at 1. unfold mesh_x. rewrite flat_map_concat_map.
  rewrite (nth_concat_rect _ n0); [| |exact Hr].
  - rewrite (nth_indep _ [] ((fun x => repeat x n0) 0))
      by (rewrite length_map, length_seq; exact Hq).
    rewrite (map_nth (fun x => repeat x n0)). rewrite seq_nth by exact Hq.
    simpl plus. apply nth_repeat_lt. exact Hr.
  - apply Forall_forall. intros l Hl. apply in_map_iff in Hl.
    destruct Hl as (x & <- & _). apply repeat_length.
Qed.

Lemma nth_mesh_y : forall n0 j, j < n0 * n0 -> nth j (mesh_y n0) 0 = j mod n0.
Proof.
  intros n0 j Hj. destruct (index_split n0 j Hj) as (Hq & Hr & E).
  rewrite E at 1. unfold mesh_y.
  rewrite (nth_concat_rect _ n0); [| |exact Hr].
  - rewrite nth_repeat_lt by exact Hq. rewrite seq_nth by exact Hr.
    reflexivity.
  - apply Forall_forall. intros l Hl. apply repeat_spec in Hl. subst l.
    apply length_seq.
Qed.

Lemma index_unique : forall n0 j j',
  j < n0 * n0 -> j' < n0 * n0 ->
  j / n0 = j' / n0 -> j mod n0 = j' mod n0 -> j = j'.
Proof.
  intros n0 j j' Hj Hj' Eq Er.
  destruct (index_split n0 j Hj) as (_ & _ & E).
  destruct (index_split n0 j' Hj') as (_ & _ & E').
  rewrite E, E', Eq, Er. reflexivity.
Qed.

Lemma index_of_cell : forall n0 x y, x < n0 -> y < n0 ->
  x * n0 + y < n0 * n0 /\ (x * n0 + y) / n0 = x /\ (x * n0 + y) mod n0 = y.
Proof.
  intros n0 x y Hx Hy. split; [apply box_cell_lt; assumption|].
  split; [apply div_box; exact Hy|].
  rewrite Nat.add_comm. rewrite Nat.Div0.mod_add. apply Nat.mod_small. exact Hy.
Qed.

Lemma cellv_set_cell : forall n0 a m j v,
  square_shape n0 a -> m < n0 * n0 -> j < n0 * n0 ->
  cellv n0 (set_cell a (m / n0) (m mod n0) v) j
  = if j =? m then v else cellv n0 a j.
Proof.
  intros n0 a m j v Hs Hm Hj. unfold cellv.
  destruct (index_split n0 m Hm) as (Hq & Hr & _).
  apply square_shape_rows in Hs. destruct Hs as [Hl Hrow].
  destruct (Nat.eqb_spec j m) as [->|Hne].
  - apply get_set_cell_same; [lia|]. rewrite Hrow by assumption. exact Hr.
  - apply get_set_cell_other. intros E. inversion E.
    apply Hne. apply (index_unique n0); auto.
Qed.

End MeshLemmas.

(** ** The measure of the backtracking loop *)

Lemma horner_snoc : forall B l x,
  horner B (l ++ [x]) = horner B l * B + Z.of_nat x.
Proof. intros. unfold horner. rewrite fold_left_app. reflexivity. Qed.

Lemma horner_nonneg : forall B l, 0 <= B -> 0 <= horner B l.
Proof.
  intros B l HB. induction l as [|x l IH] using rev_ind;
    [unfold horner; simpl; lia|].
  rewrite horner_snoc. nia.
Qed.

Lemma horner_app_ge : forall B l l',
  0 <= B -> horner B l * B ^ Z.of_nat (length l') <= horner B (l ++ l').
Proof.
  intros B l l' HB. induction l' as [|x l' IH] using rev_ind.
  - rewrite app_nil_r. simpl. lia.
  - rewrite app_assoc, horner_snoc, length_app. simpl length.
    rewrite Nat2Z.inj_add, Z.pow_add_r by lia. simpl Z.of_nat.
    rewrite Z.pow_1_r. nia.
Qed.

Lemma gen_measure_nonneg : forall n0 avail, 0 <= gen_measure n0 avail.
Proof.
  intros n0 avail. unfold gen_measure.
  pose proof (horner_nonneg (Z.of_nat n0 + 2) (map (@length Z) avail)
                            ltac:(lia)).
  assert (0 < (Z.of_nat n0 + 2) ^ Z.of_nat (n0 * n0 - length avail))
    by (apply Z.pow_pos_nonneg; lia).
  nia.
Qed.

(** A forward turn pushes a frame of at most [n0] candidates. *)
Lemma gen_measure_push : forall n0 avail fr,
  (length avail < n0 * n0)%nat -> (length fr <= n0)%nat ->
  gen_measure n0 (avail ++ [fr]) < gen_measure n0 avail.
Proof.
  intros n0 avail fr Hm Hl. unfold gen_measure. cbv zeta.
  rewrite map_app. simpl map. rewrite horner_snoc, length_app. simpl length.
  set (B := Z.of_nat n0 + 2). set (H := horner B (map (@length Z) avail)).
  replace (n0 * n0 - length avail)%nat
    with (S (n0 * n0 - (length avail + 1)))%nat by lia.
  set (r := (n0 * n0 - (length avail + 1))%nat).
  rewrite Nat2Z.inj_succ, Z.pow_succ_r by lia.
  assert (HB : 0 < B ^ Z.of_nat r) by (apply Z.pow_pos_nonneg; unfold B; lia).
  assert (HH : 0 <= H) by (apply horner_nonneg; unfold B; lia).
  assert (Hlt : H * B + Z.of_nat (length fr) + 1 < (H + 1) * B)
    by (unfold B; nia).
  nia.
Qed.

(** A backward turn pops frames and shortens the frame it stops at. *)
Lemma gen_measure_pop : forall n0 init fr fr' ones,
  (length (init ++ [fr] ++ ones) <= n0 * n0)%nat ->
  length fr = S (length fr') ->
  gen_measure n0 (init ++ [fr']) < gen_measure n0 (init ++ [fr] ++ ones).
Proof.
  intros n0 init fr fr' ones Hm Hl. unfold gen_measure. cbv zeta.
  set (B := Z.of_nat n0 + 2).
  assert (HB0 : 0 <= B) by (unfold B; lia).
  rewrite app_assoc, !map_app. simpl map.
  pose proof (horner_app_ge B (map (@length Z) init ++ [length fr])
                            (map (@length Z) ones) HB0) as Hge.
  rewrite !horner_snoc in *. rewrite length_map in Hge.
  rewrite !length_app in *. simpl length in *.
  set (H := horner B (map (@length Z) init)) in *.
  set (p := length ones) in *.
  replace (n0 * n0 - (length init + 1))%nat
    with ((n0 * n0 - (length init + 1 + p)) + p)%nat by lia.
  set (r := (n0 * n0 - (length init + 1 + p))%nat).
  rewrite Nat2Z.inj_add, Z.pow_add_r by lia.
  assert (HBr : 0 < B ^ Z.of_nat r) by (apply Z.pow_pos_nonneg; unfold B; lia).
  assert (HBp : 0 < B ^ Z.of_nat p) by (apply Z.pow_pos_nonneg; unfold B; lia).
  rewrite Hl in *. rewrite Nat2Z.inj_succ in *.
  set (X := horner B ((map (@length Z) init ++ [S (length fr')])
                      ++ map (@length Z) ones)) in *.
  assert (HX : (H * B + Z.succ (Z.of_nat (length fr'))) * B ^ Z.of_nat p <= X)
    by exact Hge.
  nia.
Qed.

(** ** The invariant is kept by every turn of the loop *)

Section GeneratorInvariant.
Variable rng : Type.
Variables (n0 k : nat) (s : grid).
Hypothesis Hk : (0 < k)%nat.
Hypothesis Hn : n0 = (k * k)%nat.
Hypothesis Hs : complete_valid s.
Hypothesis Hsh : shape0 s = n0.

Lemma py_get_mesh_x : forall j, (j < n0 * n0)%nat ->
  py_get (mesh_x n0) (Z.of_nat j) = Ok (j / n0)%nat.
Proof.
  intros j Hj. rewrite (py_get_nat _ _ _ 0%nat) by (rewrite length_mesh_x; exact Hj).
  rewrite nth_mesh_x by exact Hj. reflexivity.
Qed.

Lemma py_get_mesh_y : forall j, (j < n0 * n0)%nat ->
  py_get (mesh_y n0) (Z.of_nat j) = Ok (j mod n0)%nat.
Proof.
  intros j Hj. rewrite (py_get_nat _ _ _ 0%nat) by (rewrite length_mesh_y; exact Hj).
  rewrite nth_mesh_y by exact Hj. reflexivity.
Qed.

Lemma target_cells : cells_valid n0 k s.
Proof.
  pose proof (complete_valid_cells s Hs) as H. rewrite Hsh in H.
  replace (Nat.sqrt n0) with k in H; [exact H|].
  rewrite Hn. symmetry. apply Nat.sqrt_square.
Qed.

(** When the filled cells agree with [s], the value of [s] is a candidate
    of the next cell. *)
Lemma target_candidate : forall (st : gen_state rng),
  gen_inv_at n0 k s (length (gs_avail st)) st ->
  (length (gs_avail st) < n0 * n0)%nat ->
  In (cellv n0 s (length (gs_avail st)))
     (avail_at (gs_full st) n0 k
               ((length (gs_avail st) / n0)%nat,
                (length (gs_avail st) mod n0)%nat)).
Proof.
  intros [full avail i g]. unfold gen_inv_at. simpl.
  intros (_ & _ & Hok & H3 & _ & _ & _ & Hpre & _) Hm.
  set (m := length avail) in *.
  destruct (index_split n0 m Hm) as (Hq & Hr & _).
  destruct target_cells as [Hrng Hinj].
  destruct Hok as (Hsq & _).
  apply (In_avail_at n0); try assumption.
  split; [apply Hrng; assumption|].
  intros x' y' Hx' Hy' Hrel E.
  destruct (index_of_cell n0 x' y' Hx' Hy') as (Hj & Ejx & Ejy).
  set (j := (x' * n0 + y')%nat) in *.
  assert (Ec : cellv n0 full j = get full x' y')
    by (unfold cellv; rewrite Ejx, Ejy; reflexivity).
  specialize (H3 j Hj). rewrite Ec in H3.
  destruct (Nat.ltb_spec j m) as [Hlt|Hge].
  - specialize (Hpre j Hlt). rewrite Ec in Hpre.
    assert (Es : get s (m / n0) (m mod n0) = get s x' y').
    { unfold cellv in E, Hpre. rewrite <- E, Hpre, Ejx, Ejy. reflexivity. }
    destruct (Hinj _ _ _ _ Hq Hr Hx' Hy' Hrel Es) as [E1 E2].
    assert (m = j) by (apply (index_unique n0); try assumption; lia). lia.
  - specialize (Hrng _ _ Hq Hr). unfold cellv in E. lia.
Qed.

Lemma inv_pop : forall full init top i g d,
  gen_inv_at n0 k s d (mk_gen_state (rng := rng) full (init ++ [top]) i g) ->
  (d < length init)%nat ->
  gen_inv_at n0 k s d
    (mk_gen_state (set_cell full (length init / n0) (length init mod n0) 0)
                  init (i - 1) g).
Proof.
  intros full init top i g d. unfold gen_inv_at. simpl.
  rewrite length_app. simpl length.
  intros (Hi & HM & Hok & H3 & H4 & H5 & Hd & Hpre & Htl) Hdi.
  assert (Hm : (length init < n0 * n0)%nat) by lia.
  assert (Hsq : square_shape n0 full) by (destruct Hok; assumption).
  destruct (index_split n0 _ Hm) as (Hq & Hr & _).
  split; [lia|]. split; [lia|].
  split; [apply grid_ok_set_cell; auto; lia|].
  split; [|split; [|split; [|split; [|split]]]].
  - intros j Hj. rewrite cellv_set_cell by assumption. specialize (H3 j Hj).
    destruct (Nat.eqb_spec j (length init)) as [->|Hne].
    + rewrite Nat.ltb_irrefl. reflexivity.
    + rewrite H3. destruct (Nat.ltb_spec j (length init)).
      * destruct (Nat.ltb_spec j (length init + 1)); [|lia].
        rewrite app_nth1 by lia. reflexivity.
      * destruct (Nat.ltb_spec j (length init + 1)); [lia | reflexivity].
  - intros j v Hj Hv.
    destruct (H4 j v ltac:(lia) ltac:(rewrite app_nth1 by lia; exact Hv))
      as [Hrg Hc].
    split; [exact Hrg|]. intros j' Hj' Hrel.
    rewrite cellv_set_cell by (try assumption; lia).
    destruct (Nat.eqb_spec j' (length init)); [lia|]. apply Hc; assumption.
  - intros j Hj. specialize (H5 j ltac:(lia)).
    rewrite app_nth1 in H5 by lia. exact H5.
  - lia.
  - intros j Hj. rewrite cellv_set_cell by (try assumption; lia).
    destruct (Nat.eqb_spec j (length init)); [lia|]. apply Hpre. exact Hj.
  - intros _. specialize (Htl ltac:(lia)).
    rewrite app_nth1 in Htl by lia. exact Htl.
Qed.

Lemma inv_retop : forall full init h h' t i g d,
  gen_inv_at n0 k s d
    (mk_gen_state (rng := rng) full (init ++ [h :: h' :: t]) i g) ->
  (d <= length init)%nat ->
  exists d',
    gen_inv_at n0 k s d'
      (mk_gen_state (set_cell full (length init / n0) (length init mod n0) h')
                    (init ++ [h' :: t]) i g).
Proof.
  intros full init h h' t i g d. unfold gen_inv_at. simpl.
  rewrite !length_app. simpl length.
  intros (Hi & HM & Hok & H3 & H4 & H5 & Hd & Hpre & Htl) Hdi.
  assert (Hm : (length init < n0 * n0)%nat) by lia.
  assert (Hsq : square_shape n0 full) by (destruct Hok; assumption).
  destruct (index_split n0 _ Hm) as (Hq & Hr & _).
  assert (Htop : forall v, In v (h' :: t) ->
            1 <= v <= Z.of_nat n0
            /\ forall j', (j' < length init)%nat ->
                 rel_idx n0 k (length init) j' -> cellv n0 full j' <> v).
  { intros v Hv. apply (H4 (length init) v); [lia|].
    rewrite app_nth2 by lia. rewrite Nat.sub_diag. right. exact Hv. }
  assert (Hcommon :
    (i = Z.of_nat (length init + 1))
    /\ (length init + 1 <= n0 * n0)%nat
    /\ grid_ok n0 k
         (set_cell full (length init / n0) (length init mod n0) h')
    /\ (forall j, (j < n0 * n0)%nat ->
          cellv n0 (set_cell full (length init / n0) (length init mod n0) h') j
          = if (j <? length init + 1)%nat
            then hd 0 (nth j (init ++ [h' :: t]) []) else 0)
    /\ (forall j v, (j < length init + 1)%nat ->
          In v (nth j (init ++ [h' :: t]) []) ->
          1 <= v <= Z.of_nat n0
          /\ forall j', (j' < j)%nat -> rel_idx n0 k j j' ->
               cellv n0 (set_cell full (length init / n0)
                                  (length init mod n0) h') j' <> v)
    /\ (forall j, (j < length init + 1)%nat ->
          nth j (init ++ [h' :: t]) [] <> [])).
  { split; [exact Hi|]. split; [exact HM|].
    split; [apply grid_ok_set_cell; auto;
            destruct (Htop h' (or_introl eq_refl)) as [? _]; lia|].
    split; [|split].
    - intros j Hj. rewrite cellv_set_cell by assumption. specialize (H3 j Hj).
      destruct (Nat.eqb_spec j (length init)) as [->|Hne].
      + destruct (Nat.ltb_spec (length init) (length init + 1)); [|lia].
        rewrite app_nth2 by lia. rewrite Nat.sub_diag. reflexivity.
      + rewrite H3. destruct (Nat.ltb_spec j (length init + 1));
          [|reflexivity].
        rewrite !app_nth1 by lia. reflexivity.
    - intros j v Hj Hv.
      assert (Hold : 1 <= v <= Z.of_nat n0
                /\ forall j', (j' < j)%nat -> rel_idx n0 k j j' ->
                     cellv n0 full j' <> v).
      { destruct (Nat.eq_dec j (length init)) as [->|Hne].
        - rewrite app_nth2, Nat.sub_diag in Hv by lia. apply Htop. exact Hv.
        - apply (H4 j v Hj). rewrite app_nth1 in * by lia. exact Hv. }
      destruct Hold as [Hrg Hc]. split; [exact Hrg|].
      intros j' Hj' Hrel. rewrite cellv_set_cell by (try assumption; lia).
      destruct (Nat.eqb_spec j' (length init)); [lia|]. apply Hc; assumption.
    - intros j Hj. destruct (Nat.eq_dec j (length init)) as [->|Hne].
      + rewrite app_nth2, Nat.sub_diag by lia. discriminate.
      + specialize (H5 j Hj). rewrite app_nth1 in * by lia. exact H5. }
  destruct Hcommon as (C1 & C2 & C3 & C4 & C5 & C6).
  assert (Hpre' : forall j, (j < length init)%nat -> (j < d)%nat ->
            cellv n0 (set_cell full (length init / n0)
                               (length init mod n0) h') j = cellv n0 s j).
  { intros j Hj Hjd. rewrite cellv_set_cell by (try assumption; lia).
    destruct (Nat.eqb_spec j (length init)); [lia|]. apply Hpre. exact Hjd. }
  destruct (Nat.eq_dec d (length init)) as [Ed|Nd].
  - specialize (Htl ltac:(lia)). rewrite Ed in Htl.
    rewrite app_nth2, Nat.sub_diag in Htl by lia. simpl in Htl.
    destruct (Z.eq_dec h' (cellv n0 s (length init))) as [Eh|Nh].
    + exists (length init + 1)%nat.
      refine (conj C1 (conj C2 (conj C3 (conj C4 (conj C5 (conj C6
                (conj _ (conj _ _)))))))).
      * lia.
      * intros j Hj. destruct (Nat.eq_dec j (length init)) as [->|Hne].
        -- rewrite cellv_set_cell by assumption. rewrite Nat.eqb_refl.
           exact Eh.
        -- apply Hpre'; lia.
      * lia.
    + exists d.
      refine (conj C1 (conj C2 (conj C3 (conj C4 (conj C5 (conj C6
                (conj _ (conj _ _)))))))).
      * lia.
      * intros j Hj. apply Hpre'; lia.
      * intros _. rewrite Ed. rewrite app_nth2, Nat.sub_diag by lia. simpl.
        destruct Htl as [E|Hin]; [congruence | exact Hin].
  - exists d.
    refine (conj C1 (conj C2 (conj C3 (conj C4 (conj C5 (conj C6
              (conj _ (conj _ _)))))))).
    + lia.
    + intros j Hj. apply Hpre'; lia.
    + intros _. specialize (Htl ltac:(lia)).
      rewrite app_nth1 in * by lia. exact Htl.
Qed.

Lemma inv_push : forall full avail i (g g' : rng) v rest d,
  gen_inv_at n0 k s d (mk_gen_state (rng := rng) full avail i g) ->
  (length avail < n0 * n0)%nat ->
  Permutation (avail_at full n0 k ((length avail / n0)%nat,
                                   (length avail mod n0)%nat))
              (v :: rest) ->
  exists d',
    gen_inv_at n0 k s d'
      (mk_gen_state (set_cell full (length avail / n0) (length avail mod n0) v)
                    (avail ++ [v :: rest]) (i + 1) g').
Proof.
  intros full avail i g g' v rest d Hinv Hm Hperm.
  pose proof Hinv as Hinv0. revert Hinv. unfold gen_inv_at. simpl.
  rewrite !length_app. simpl length.
  intros (Hi & HM & Hok & H3 & H4 & H5 & Hd & Hpre & Htl).
  set (m := length avail) in *.
  assert (Hsq : square_shape n0 full) by (destruct Hok; assumption).
  destruct (index_split n0 _ Hm) as (Hq & Hr & _).
  assert (Hnew : forall w, In w (v :: rest) ->
            1 <= w <= Z.of_nat n0
            /\ forall j', (j' < m)%nat -> rel_idx n0 k m j' ->
                 cellv n0 full j' <> w).
  { intros w Hw. apply (Permutation_in _ (Permutation_sym Hperm)) in Hw.
    apply (In_avail_at n0) in Hw; try assumption.
    destruct Hw as [Hrg Hc]. split; [exact Hrg|].
    intros j' Hj' Hrel. unfold cellv.
    destruct (index_split n0 j' ltac:(lia)) as (Hq' & Hr' & _).
    apply Hc; assumption. }
  assert (C1 : i + 1 = Z.of_nat (m + 1)) by lia.
  assert (C2 : (m + 1 <= n0 * n0)%nat) by lia.
  assert (C3 : grid_ok n0 k (set_cell full (m / n0) (m mod n0) v)).
  { apply grid_ok_set_cell; auto.
    destruct (Hnew v (or_introl eq_refl)) as [? _]. lia. }
  assert (C4 : forall j, (j < n0 * n0)%nat ->
            cellv n0 (set_cell full (m / n0) (m mod n0) v) j
            = if (j <? m + 1)%nat
              then hd 0 (nth j (avail ++ [v :: rest]) []) else 0).
  { intros j Hj. rewrite cellv_set_cell by assumption. specialize (H3 j Hj).
    destruct (Nat.eqb_spec j m) as [->|Hne].
    - destruct (Nat.ltb_spec m (m + 1)); [|lia].
      rewrite app_nth2 by lia. rewrite Nat.sub_diag. reflexivity.
    - rewrite H3. destruct (Nat.ltb_spec j m).
      + destruct (Nat.ltb_spec j (m + 1)); [|lia].
        rewrite app_nth1 by lia. reflexivity.
      + destruct (Nat.ltb_spec j (m + 1)); [lia | reflexivity]. }
  assert (C5 : forall j w, (j < m + 1)%nat ->
            In w (nth j (avail ++ [v :: rest]) []) ->
            1 <= w <= Z.of_nat n0
            /\ forall j', (j' < j)%nat -> rel_idx n0 k j j' ->
                 cellv n0 (set_cell full (m / n0) (m mod n0) v) j' <> w).
  { intros j w Hj Hw.
    assert (Hold : 1 <= w <= Z.of_nat n0
              /\ forall j', (j' < j)%nat -> rel_idx n0 k j j' ->
                   cellv n0 full j' <> w).
    { destruct (Nat.eq_dec j m) as [->|Hne].
      - rewrite app_nth2, Nat.sub_diag in Hw by lia. apply Hnew. exact Hw.
      - apply (H4 j w ltac:(lia)). rewrite app_nth1 in Hw by lia. exact Hw. }
    destruct Hold as [Hrg Hc]. split; [exact Hrg|].
    intros j' Hj' Hrel. rewrite cellv_set_cell by (try assumption; lia).
    destruct (Nat.eqb_spec j' m); [lia|]. apply Hc; assumption. }
  assert (C6 : forall j, (j < m + 1)%nat ->
            nth j (avail ++ [v :: rest]) [] <> []).
  { intros j Hj. destruct (Nat.eq_dec j m) as [->|Hne].
    - rewrite app_nth2, Nat.sub_diag by lia. discriminate.
    - specialize (H5 j ltac:(lia)). rewrite app_nth1 by lia. exact H5. }
  assert (Hpre' : forall j, (j < m)%nat -> (j < d)%nat ->
            cellv n0 (set_cell full (m / n0) (m mod n0) v) j = cellv n0 s j).
  { intros j Hj Hjd. rewrite cellv_set_cell by (try assumption; lia).
    destruct (Nat.eqb_spec j m); [lia|]. apply Hpre. exact Hjd. }
  destruct (Nat.eq_dec d m) as [Ed|Nd].
  - assert (Hcand : In (cellv n0 s m) (v :: rest)).
    { apply (Permutation_in _ Hperm). subst d.
      apply (target_candidate (mk_gen_state full avail i g) Hinv0 Hm). }
    destruct (Z.eq_dec v (cellv n0 s m)) as [Ev|Nv].
    + exists (m + 1)%nat.
      refine (conj C1 (conj C2 (conj C3 (conj C4 (conj C5 (conj C6
                (conj _ (conj _ _)))))))).
      * lia.
      * intros j Hj. destruct (Nat.eq_dec j m) as [->|Hne].
        -- rewrite cellv_set_cell by assumption. rewrite Nat.eqb_refl.
           exact Ev.
        -- apply Hpre'; lia.
      * lia.
    + exists m.
      refine (conj C1 (conj C2 (conj C3 (conj C4 (conj C5 (conj C6
                (conj _ (conj _ _)))))))).
      * lia.
      * intros j Hj. apply Hpre'; lia.
      * intros _. rewrite app_nth2, Nat.sub_diag by lia. simpl.
        destruct Hcand as [E|Hin]; [congruence | exact Hin].
  - exists d.
    refine (conj C1 (conj C2 (conj C3 (conj C4 (conj C5 (conj C6
              (conj _ (conj _ _)))))))).
    + lia.
    + intros j Hj. apply Hpre'; lia.
    + intros _. specialize (Htl ltac:(lia)).
      rewrite app_nth1 by lia. exact Htl.
Qed.

Lemma rollback_spec : forall n (st : gen_state rng) d,
  gen_inv_at n0 k s d st ->
  (d < length (gs_avail st))%nat -> (length (gs_avail st) <= n)%nat ->
  exists st1 ones,
    rollback rng n (mesh_x n0) (mesh_y n0) st = Ok st1
    /\ gen_inv_at n0 k s d st1
    /\ (d < length (gs_avail st1))%nat
    /\ gs_avail st = gs_avail st1 ++ ones
    /\ Forall (fun f => length f = 1%nat) ones
    /\ length (last (gs_avail st1) []) <> 1%nat
    /\ gs_rng st1 = gs_rng st.
Proof.
  induction n as [|n IH]; intros [full avail i g] d Hinv Hd Hle;
    simpl in Hd, Hle; [lia|].
  assert (Hne : avail <> []) by (intros ->; simpl in Hd; lia).
  destruct (exists_last Hne) as (init & top & ->).
  pose proof Hinv as Hinv0. unfold gen_inv_at in Hinv. simpl in Hinv.
  destruct Hinv as (Hi & HM & Hok & H3 & H4 & H5 & Hdm & Hpre & Htl).
  subst i. cbn [rollback gs_avail gs_i gs_full gs_rng].
  rewrite py_get_last. cbn [bind].
  destruct (Nat.eqb_spec (length top) 1) as [E1|N1].
  - rewrite length_app in *. simpl length in *.
    assert (Hdi : (d < length init)%nat).
    { destruct (Nat.eq_dec d (length init)) as [Ed|]; [|lia]. exfalso.
      specialize (Htl ltac:(lia)). rewrite Ed in Htl.
      rewrite app_nth2, Nat.sub_diag in Htl by lia.
      destruct top as [|a [|b t]]; simpl in *; try discriminate.
      contradiction. }
    apply inv_pop in Hinv0; [|exact Hdi].
    replace (Z.of_nat (length init + 1) - 1) with (Z.of_nat (length init))
      in * by lia.
    rewrite py_get_mesh_x, py_get_mesh_y by lia. cbn [bind].
    rewrite removelast_last.
    destruct (IH _ d Hinv0 Hdi ltac:(simpl; lia))
      as (st1 & ones & E & I1 & D1 & A1 & F1 & L1 & R1).
    exists st1, (ones ++ [top]). split; [exact E|]. split; [exact I1|].
    split; [exact D1|]. simpl in A1, R1. split; [|split; [|split]].
    + simpl. rewrite A1. rewrite app_assoc. reflexivity.
    + apply Forall_app. split; [exact F1|]. constructor; [exact E1|constructor].
    + exact L1.
    + exact R1.
  - exists (mk_gen_state full (init ++ [top])
                         (Z.of_nat (length (init ++ [top]))) g), [].
    split; [reflexivity|]. split; [exact Hinv0|].
    split; [exact Hd|]. simpl. rewrite app_nil_r, last_last.
    split; [reflexivity|]. split; [constructor|]. split; [exact N1|reflexivity].
Qed.

Variable shuffle : forall A : Type, rng -> list A -> list A * rng.
Hypothesis shuffle_ok : shuffle_permutes rng shuffle.

Lemma py_get_head : forall (A : Type) (a : A) l, py_get (a :: l) 0 = Ok a.
Proof. reflexivity. Qed.

Lemma length_filter_le : forall (A : Type) (f : A -> bool) l,
  (length (filter f l) <= length l)%nat.
Proof.
  intros A f l; induction l as [|h t IH]; simpl; [lia|].
  destruct (f h); simpl; lia.
Qed.

Lemma length_avail_at : forall a p, (length (avail_at a n0 k p) <= n0)%nat.
Proof.
  intros a p. unfold avail_at.
  pose proof (length_filter_le _
                (fun v => negb (memZ v (exist_lst a k (fst p) (snd p))))
                (range1 n0)) as H.
  rewrite length_range1 in H. exact H.
Qed.

(** A dead end is never met while [s] agrees with all the filled cells;
    the rollback stops at a frame that still holds the value of [s]. *)
Lemma dead_end_rollback : forall (st : gen_state rng) d,
  gen_inv_at n0 k s d st ->
  (length (gs_avail st) < n0 * n0)%nat ->
  avail_at (gs_full st) n0 k
           ((length (gs_avail st) / n0)%nat,
            (length (gs_avail st) mod n0)%nat) = [] ->
  (d < length (gs_avail st))%nat
  /\ exists st1 ones,
       rollback rng (length (gs_avail st)) (mesh_x n0) (mesh_y n0) st = Ok st1
       /\ gen_inv_at n0 k s d st1
       /\ (d < length (gs_avail st1))%nat
       /\ gs_avail st = gs_avail st1 ++ ones
       /\ Forall (fun f => length f = 1%nat) ones
       /\ length (last (gs_avail st1) []) <> 1%nat
       /\ gs_rng st1 = gs_rng st.
Proof.
  intros st d Hinv Hm Hempty.
  assert (Hd : (d < length (gs_avail st))%nat).
  { assert (Hle : (d <= length (gs_avail st))%nat)
      by (destruct Hinv as (_ & _ & _ & _ & _ & _ & Hle & _); exact Hle).
    destruct (Nat.eq_dec d (length (gs_avail st))) as [Ed|]; [|lia].
    subst d. pose proof (target_candidate st Hinv Hm) as Hc.
    rewrite Hempty in Hc. contradiction. }
  split; [exact Hd|].
  apply rollback_spec; [exact Hinv | exact Hd | lia].
Qed.

(** Every turn of the loop succeeds, keeps the invariant and lowers the
    measure. *)
Lemma gen_step_ok : forall (st : gen_state rng) d,
  gen_inv_at n0 k s d st ->
  (length (gs_avail st) < n0 * n0)%nat ->
  exists st' d',
    gen_step rng shuffle (mesh_x n0) (mesh_y n0) st = Ok st'
    /\ gen_inv_at n0 k s d' st'
    /\ gen_measure n0 (gs_avail st') < gen_measure n0 (gs_avail st).
Proof.
  intros st d Hinv Hm.
  pose proof (dead_end_rollback st d Hinv Hm) as Hback.
  destruct st as [full avail i g]. simpl in Hm, Hback.
  pose proof Hinv as Hinv0. unfold gen_inv_at in Hinv. simpl in Hinv.
  destruct Hinv as (Hi & HM & Hok & H3 & H4 & H5 & Hdm & Hpre & Htl).
  subst i. unfold gen_step. cbn [gs_full gs_avail gs_i gs_rng].
  rewrite py_get_mesh_x, py_get_mesh_y by exact Hm. cbn [bind].
  destruct (index_split n0 _ Hm) as (Hq & Hr & _).
  rewrite (available_digits_at n0 k full _ _ Hok Hq Hr). cbn [bind].
  rewrite py_get_head. cbn [bind].
  set (a_lst := avail_at full n0 k ((length avail / n0)%nat,
                                    (length avail mod n0)%nat)) in *.
  destruct (Nat.eqb_spec (length a_lst) 0) as [E0|N0].
  - assert (Ea : a_lst = []) by (destruct a_lst; [reflexivity|discriminate]).
    destruct (Hback Ea)
      as (Hdlt & st1 & ones & E & I1 & D1 & A1 & F1 & L1 & R1).
    rewrite E. cbn [bind]. destruct st1 as [full1 avail1 i1 g1].
    simpl in D1, A1, L1, R1.
    assert (Hne : avail1 <> []) by (intros ->; simpl in D1; lia).
    destruct (exists_last Hne) as (init & top & ->).
    rewrite last_last in L1.
    pose proof I1 as I1'. unfold gen_inv_at in I1'. simpl in I1'.
    destruct I1' as (Hi1 & HM1 & _ & _ & _ & H51 & _ & _ & _).
    rewrite length_app in HM1, D1, H51. simpl length in HM1, D1, H51.
    assert (Htop : top <> []).
    { specialize (H51 (length init) ltac:(lia)).
      rewrite app_nth2, Nat.sub_diag in H51 by lia. exact H51. }
    destruct top as [|h [|h' t]]; [contradiction | simpl in L1; lia |].
    subst i1. cbn [gs_full gs_avail gs_i gs_rng].
    rewrite py_get_last. cbn [bind].
    rewrite py_upd_last. cbn [bind].
    replace (Z.of_nat (length (init ++ [h :: h' :: t])) - 1)
      with (Z.of_nat (length init))
      by (rewrite length_app; simpl length; lia).
    rewrite py_get_mesh_x, py_get_mesh_y by lia. cbn [bind].
    rewrite py_get_head. cbn [bind].
    destruct (inv_retop full1 init h h' t _ g1 d I1 ltac:(lia)) as [d' I2].
    eexists _, d'. split; [reflexivity|]. split; [exact I2|].
    cbn [gs_avail]. rewrite A1. rewrite <- app_assoc.
    apply gen_measure_pop; [|reflexivity].
    rewrite app_assoc, <- A1. lia.
  - destruct (shuffle Z g a_lst) as [a' g'] eqn:Esh.
    pose proof (shuffle_ok Z g a_lst) as Hperm. rewrite Esh in Hperm.
    simpl in Hperm.
    destruct a' as [|v rest].
    { apply Permutation_length in Hperm. simpl in Hperm. lia. }
    rewrite py_get_head. cbn [bind].
    destruct (inv_push full avail _ g g' v rest d Hinv0 Hm Hperm) as [d' I2].
    eexists _, d'. split; [reflexivity|]. split; [exact I2|].
    cbn [gs_avail]. apply gen_measure_push; [exact Hm|].
    rewrite <- (Permutation_length Hperm). apply length_avail_at.
Qed.

Lemma gen_loop_ok : forall fuel (st : gen_state rng) d,
  gen_inv_at n0 k s d st ->
  gen_measure n0 (gs_avail st) < Z.of_nat fuel ->
  exists (st_f : gen_state rng) d',
    gen_loop rng shuffle fuel (mesh_x n0) (mesh_y n0) st
    = Some (Ok (gs_full st_f))
    /\ gen_inv_at n0 k s d' st_f
    /\ length (gs_avail st_f) = (n0 * n0)%nat.
Proof.
  induction fuel as [|fuel IH]; intros st d Hinv Hmu.
  - pose proof (gen_measure_nonneg n0 (gs_avail st)). simpl in Hmu. lia.
  - cbn [gen_loop]. rewrite length_mesh_x.
    assert (Hi : gs_i st = Z.of_nat (length (gs_avail st)))
      by (destruct Hinv as (Hi & _); exact Hi).
    assert (HM : (length (gs_avail st) <= n0 * n0)%nat)
      by (destruct Hinv as (_ & HM & _); exact HM).
    destruct (Z.ltb_spec (gs_i st) (Z.of_nat (n0 * n0))) as [Hlt|Hge].
    + destruct (gen_step_ok st d Hinv ltac:(lia))
        as (st' & d' & E & I' & Hdec).
      rewrite E. apply (IH st' d' I'). lia.
    + exists st, d. split; [reflexivity|]. split; [exact Hinv | lia].
Qed.

Lemma related_sym : forall x y x' y',
  related k x y x' y' -> related k x' y' x y.
Proof.
  intros x y x' y' [E | [E | [E1 E2]]]; unfold related; auto.
Qed.

(** When every cell is filled the array is a complete grid. *)
Lemma gen_inv_final : forall (st : gen_state rng) d,
  gen_inv_at n0 k s d st ->
  length (gs_avail st) = (n0 * n0)%nat ->
  square_shape n0 (gs_full st) /\ complete_valid (gs_full st).
Proof.
  intros [full avail i g] d. unfold gen_inv_at. simpl.
  intros (Hi & HM & Hok & H3 & H4 & H5 & _) Hlen.
  assert (Hsq : square_shape n0 full) by (destruct Hok; assumption).
  split; [exact Hsq|].
  assert (Hval : forall j, (j < n0 * n0)%nat ->
            In (cellv n0 full j) (nth j avail [])).
  { intros j Hj. rewrite (H3 j Hj).
    destruct (Nat.ltb_spec j (length avail)); [|lia].
    specialize (H5 j ltac:(lia)).
    destruct (nth j avail []); [contradiction | left; reflexivity]. }
  assert (Hlt : forall j j', (j < n0 * n0)%nat -> (j' < j)%nat ->
            rel_idx n0 k j j' -> cellv n0 full j <> cellv n0 full j').
  { intros j j' Hj Hj' Hrel E.
    destruct (H4 j (cellv n0 full j) ltac:(lia) (Hval j Hj)) as [_ Hc].
    apply (Hc j' Hj' Hrel). symmetry. exact E. }
  apply (cells_complete_valid n0 k); [exact Hsq | exact Hn |]. split.
  - intros x y Hx Hy.
    destruct (index_of_cell n0 x y Hx Hy) as (Hj & Ex & Ey).
    destruct (H4 _ _ ltac:(rewrite Hlen; exact Hj) (Hval _ Hj)) as [Hrg _].
    unfold cellv in Hrg. rewrite Ex, Ey in Hrg. exact Hrg.
  - intros x y x' y' Hx Hy Hx' Hy' Hrel E.
    destruct (index_of_cell n0 x y Hx Hy) as (Hj & Ex & Ey).
    destruct (index_of_cell n0 x' y' Hx' Hy') as (Hj' & Ex' & Ey').
    set (j := (x * n0 + y)%nat) in *. set (j' := (x' * n0 + y')%nat) in *.
    assert (Ec : cellv n0 full j = cellv n0 full j').
    { unfold cellv. rewrite Ex, Ey, Ex', Ey'. exact E. }
    destruct (Nat.lt_trichotomy j j') as [L | [L | L]].
    + exfalso. apply (Hlt j' j Hj' L); [|symmetry; exact Ec].
      unfold rel_idx. rewrite Ex, Ey, Ex', Ey'. apply related_sym. exact Hrel.
    + split; congruence.
    + exfalso. apply (Hlt j j' Hj L); [|exact Ec].
      unfold rel_idx. rewrite Ex, Ey, Ex', Ey'. exact Hrel.
Qed.

(** While no frame is pushed every cell is empty, and the first cell has
    the whole of [1..N] as its candidates. *)
Lemma first_domain : forall (st : gen_state rng) d,
  gen_inv_at n0 k s d st -> length (gs_avail st) = 0%nat ->
  avail_at (gs_full st) n0 k (0%nat, 0%nat) = range1 n0.
Proof.
  intros [full avail i g] d. unfold gen_inv_at. simpl.
  intros (_ & _ & Hok & H3 & _) Hlen.
  assert (Hsq : square_shape n0 full) by (destruct Hok; assumption).
  unfold avail_at. apply forallb_filter_id. apply forallb_forall.
  intros v Hv. apply In_range1 in Hv. apply negb_true_iff.
  destruct (memZ v (exist_lst full k (fst (0%nat, 0%nat))
                              (snd (0%nat, 0%nat)))) eqn:E; [|reflexivity].
  exfalso. apply memZ_In in E. simpl fst in E. simpl snd in E.
  apply (In_exist_lst n0) in E; try assumption; try nia.
  destruct E as (x' & y' & Hx' & Hy' & _ & E).
  destruct (index_of_cell n0 x' y' Hx' Hy') as (Hj & Ex & Ey).
  specialize (H3 _ Hj). rewrite Hlen in H3. simpl in H3.
  unfold cellv in H3. rewrite Ex, Ey in H3. lia.
Qed.

End GeneratorInvariant.

(** ** The generator returns a complete grid and never leaves its stack *)

Section GeneratorTotal.
Variables (rng seedT : Type) (seed_state : seedT -> rng).
Variable shuffle : forall A : Type, rng -> list A -> list A * rng.
Hypothesis shuffle_ok : shuffle_permutes rng shuffle.
Variable k : nat.
Hypothesis Hk : (0 < k)%nat.

Lemma square_shape_np_zeros : forall n0, square_shape n0 (np_zeros n0).
Proof.
  intros n0. unfold np_zeros. split; [apply repeat_length|].
  apply Forall_forall. intros r Hr. apply repeat_spec in Hr. subst r.
  apply repeat_length.
Qed.

Lemma get_np_zeros : forall n0 x y, get (np_zeros n0) x y = 0.
Proof.
  intros n0 x y. unfold get, np_zeros.
  destruct (Nat.lt_ge_cases x n0) as [Hx|Hx].
  - rewrite nth_repeat_lt by exact Hx. apply nth_repeat.
  - rewrite (nth_overflow (repeat (repeat 0 n0) n0))
      by (rewrite repeat_length; exact Hx).
    apply nth_nil.
Qed.

Lemma shape0_shifted_grid : shape0 (shifted_grid k) = (k * k)%nat.
Proof. destruct (length_shifted_grid k) as [H _]. exact H. Qed.

Lemma gen_init_inv : forall random_seed,
  gen_inv_at (k * k) k (shifted_grid k) 0
             (gen_init rng seedT seed_state (k * k) random_seed).
Proof.
  intros random_seed. unfold gen_inv_at, gen_init. simpl.
  split; [reflexivity|]. split; [lia|]. split; [|split; [|split; [|split]]].
  - split; [apply square_shape_np_zeros|]. split; [reflexivity|].
    split; [exact Hk|]. intros x y _ _. rewrite get_np_zeros. lia.
  - intros j _. unfold cellv. apply get_np_zeros.
  - intros j v Hj. lia.
  - intros j Hj. lia.
  - split; [lia|]. split; intros; lia.
Qed.

Lemma gen_sudoku_full_total : forall random_seed,
  size_root (Z.of_nat (k * k)) = Ok (Z.of_nat k) ->
  exists fuel0, forall fuel, (fuel0 <= fuel)%nat ->
    exists g,
      gen_sudoku_full rng seedT seed_state shuffle fuel
                      (Z.of_nat (k * k)) random_seed = Some (Ok g)
      /\ square_shape (k * k) g /\ complete_valid g.
Proof.
  intros random_seed Hsize.
  exists (S (Z.to_nat (gen_measure (k * k) []))). intros fuel Hf.
  assert (Hsq : Z.of_nat k ^ 2 = Z.of_nat (k * k)).
  { rewrite Nat2Z.inj_mul. apply Z.pow_2_r. }
  unfold gen_sudoku_full.
  rewrite Hsize, Hsq, Z.eqb_refl. simpl negb. cbv iota. rewrite Nat2Z.id.
  destruct (gen_loop_ok rng (k * k) k (shifted_grid k) Hk eq_refl
              (shifted_grid_valid k Hk) shape0_shifted_grid
              shuffle shuffle_ok fuel
              (gen_init rng seedT seed_state (k * k) random_seed) 0
              (gen_init_inv random_seed))
    as (st_f & d' & E & I & L).
  { simpl gs_avail. pose proof (gen_measure_nonneg (k * k) []). lia. }
  exists (gs_full st_f). split; [exact E|].
  apply (gen_inv_final rng (k * k) k (shifted_grid k) Hk eq_refl
                       shape0_shifted_grid st_f d' I L).
Qed.

Lemma gen_reachable_inv : forall random_seed st,
  gen_reachable rng shuffle (k * k)
                (gen_init rng seedT seed_state (k * k) random_seed) st ->
  exists d, gen_inv_at (k * k) k (shifted_grid k) d st.
Proof.
  intros random_seed st H. induction H as [|st st' _ [d IH] Hlt E].
  - exists 0%nat. apply gen_init_inv.
  - rewrite length_mesh_x in Hlt.
    assert (Hm : (length (gs_avail st) < k * k * (k * k))%nat).
    { destruct IH as (Hi & _). lia. }
    destruct (gen_step_ok rng (k * k) k (shifted_grid k) Hk eq_refl
                (shifted_grid_valid k Hk) shape0_shifted_grid
                shuffle shuffle_ok st d IH Hm)
      as (st'' & d' & E' & I' & _).
    rewrite E in E'. inversion E'; subst st''. exists d'. exact I'.
Qed.

Lemma gen_reachable_safe : forall random_seed st,
  gen_reachable rng shuffle (k * k)
                (gen_init rng seedT seed_state (k * k) random_seed) st ->
  gs_i st < Z.of_nat (k * k * (k * k)) ->
  let m := length (gs_avail st) in
  let cur := avail_at (gs_full st) (k * k) k
                      ((m / (k * k))%nat, (m mod (k * k))%nat) in
  gs_i st = Z.of_nat m
  /\ (m = 0%nat -> cur = range1 (k * k) /\ cur <> [])
  /\ (cur = [] ->
      exists st1,
        rollback rng m (mesh_x (k * k)) (mesh_y (k * k)) st = Ok st1
        /\ 1 <= gs_i st1 <= gs_i st
        /\ gs_i st1 = Z.of_nat (length (gs_avail st1)))
  /\ (exists st',
        gen_step rng shuffle (mesh_x (k * k)) (mesh_y (k * k)) st = Ok st').
Proof.
  intros random_seed st Hreach Hlt m cur.
  destruct (gen_reachable_inv random_seed st Hreach) as [d Hinv].
  assert (Hi : gs_i st = Z.of_nat m)
    by (destruct Hinv as (Hi & _); exact Hi).
  assert (Hm : (m < k * k * (k * k))%nat) by lia.
  split; [exact Hi|]. split; [|split].
  - intros Hm0. unfold cur. rewrite Hm0.
    rewrite Nat.Div0.div_0_l, Nat.Div0.mod_0_l.
    rewrite (first_domain rng (k * k) k (shifted_grid k) Hk eq_refl
                          shape0_shifted_grid st d Hinv Hm0).
    split; [reflexivity|].
    intros E. pose proof (length_range1 (k * k)) as Hl. rewrite E in Hl.
    simpl in Hl. nia.
  - intros Hempty.
    destruct (dead_end_rollback rng (k * k) k (shifted_grid k) Hk eq_refl
                (shifted_grid_valid k Hk) shape0_shifted_grid
                st d Hinv Hm Hempty)
      as (Hd & st1 & ones & E & I1 & D1 & A1 & _).
    exists st1. split; [exact E|].
    assert (Hi1 : gs_i st1 = Z.of_nat (length (gs_avail st1)))
      by (destruct I1 as (Hi1 & _); exact Hi1).
    split; [|exact Hi1].
    assert (Hlen : (length (gs_avail st1) <= m)%nat).
    { unfold m. rewrite A1, length_app. lia. }
    lia.
  - destruct (gen_step_ok rng (k * k) k (shifted_grid k) Hk eq_refl
                (shifted_grid_valid k Hk) shape0_shifted_grid
                shuffle shuffle_ok st d Hinv Hm)
      as (st' & _ & E & _).
    exists st'. exact E.
Qed.

End GeneratorTotal.

Lemma id_shuffle_permutes : shuffle_permutes unit id_shuffle.
Proof. intros A g l. apply Permutation_refl. Qed.

(** C4.  For each of the sizes 4, 9, 16 and 25 and every seed, whatever
    permutations the shuffles return, [gen_sudoku_full] returns (given
    enough fuel for its loop) an array of that side in which every row,
    every column and every box is a permutation of [1..N]. *)
Theorem gen_sudoku_full_valid :
  forall (rng seedT : Type) (seed_state : seedT -> rng)
         (shuffle : forall A : Type, rng -> list A -> list A * rng),
    shuffle_permutes rng shuffle ->
    forall (array_size : Z) (random_seed : seedT),
      array_size = 4 \/ array_size = 9 \/ array_size = 16
      \/ array_size = 25 ->
      exists fuel0, forall fuel, (fuel0 <= fuel)%nat ->
        exists g,
          gen_sudoku_full rng seedT seed_state shuffle fuel array_size
                          random_seed = Some (Ok g)
          /\ square_shape (Z.to_nat array_size) g /\ complete_valid g.
Proof.
  intros rng seedT seed_state shuffle Hsh array_size random_seed Hsz.
  destruct Hsz as [-> | [-> | [-> | ->]]].
  - apply (gen_sudoku_full_total rng seedT seed_state shuffle Hsh 2
                                 ltac:(lia) random_seed).
    apply (size_root_side 2). reflexivity.
  - apply (gen_sudoku_full_total rng seedT seed_state shuffle Hsh 3
                                 ltac:(lia) random_seed).
    apply (size_root_side 3). reflexivity.
  - apply (gen_sudoku_full_total rng seedT seed_state shuffle Hsh 4
                                 ltac:(lia) random_seed).
    apply (size_root_side 4). reflexivity.
  - apply (gen_sudoku_full_total rng seedT seed_state shuffle Hsh 5
                                 ltac:(lia) random_seed).
    apply (size_root_side 5). reflexivity.
Qed.

Lemma gen_sudoku_full_valid_witness :
  shuffle_permutes unit id_shuffle
  /\ (4 = 4 \/ 4 = 9 \/ 4 = 16 \/ 4 = 25)
  /\ exists fuel0, forall fuel, (fuel0 <= fuel)%nat ->
       exists g,
         gen_sudoku_full unit unit unit_seed id_shuffle fuel 4 tt
         = Some (Ok g)
         /\ square_shape (Z.to_nat 4) g /\ complete_valid g.
Proof.
  split; [exact id_shuffle_permutes|]. split; [left; reflexivity|].
  apply (gen_sudoku_full_valid unit unit unit_seed id_shuffle
                               id_shuffle_permutes 4 tt).
  left. reflexivity.
Defined.

(** C9.  For every side [N = k * k] with [k >= 1] and every seed, in every
    state that the loop of [gen_sudoku_full] reaches with the cursor inside
    the grid: the cursor equals the height of the frame stack; while the
    cursor is at the first cell the candidates of that cell are the whole
    of [1..N], so no dead end occurs there; at a dead end the rollback
    raises nothing and stops with the cursor at least 1, so that the
    indices [i-1] it reads stay inside the stack and the filled cells; and
    the whole turn raises nothing. *)
Theorem gen_sudoku_full_rollback_safe :
  forall (rng seedT : Type) (seed_state : seedT -> rng)
         (shuffle : forall A : Type, rng -> list A -> list A * rng),
    shuffle_permutes rng shuffle ->
    forall (k : nat) (random_seed : seedT) (st : gen_state rng),
      (0 < k)%nat ->
      gen_reachable rng shuffle (k * k)
                    (gen_init rng seedT seed_state (k * k) random_seed) st ->
      gs_i st < Z.of_nat (k * k * (k * k)) ->
      let m := length (gs_avail st) in
      let cur := avail_at (gs_full st) (k * k) k
                          ((m / (k * k))%nat, (m mod (k * k))%nat) in
      gs_i st = Z.of_nat m
      /\ (m = 0%nat -> cur = range1 (k * k) /\ cur <> [])
      /\ (cur = [] ->
          exists st1,
            rollback rng m (mesh_x (k * k)) (mesh_y (k * k)) st = Ok st1
            /\ 1 <= gs_i st1 <= gs_i st
            /\ gs_i st1 = Z.of_nat (length (gs_avail st1)))
      /\ (exists st',
            gen_step rng shuffle (mesh_x (k * k)) (mesh_y (k * k)) st
            = Ok st').
Proof.
  intros rng seedT seed_state shuffle Hsh k random_seed st Hk Hreach Hlt.
  apply (gen_reachable_safe rng seedT seed_state shuffle Hsh k Hk
                            random_seed st Hreach Hlt).
Qed.

(** C9, at the entry of the loop for the side 4. *)
Lemma gen_sudoku_full_rollback_safe_witness :
  shuffle_permutes unit id_shuffle /\ (0 < 2)%nat
  /\ gen_reachable unit id_shuffle (2 * 2)
                   (gen_init unit unit unit_seed (2 * 2) tt)
                   (gen_init unit unit unit_seed (2 * 2) tt)
  /\ exists st',
       gen_step unit id_shuffle (mesh_x (2 * 2)) (mesh_y (2 * 2))
                (gen_init unit unit unit_seed (2 * 2) tt) = Ok st'.
Proof.
  split; [exact id_shuffle_permutes|]. split; [lia|].
  split; [apply gr_start|].
  apply (gen_sudoku_full_rollback_safe unit unit unit_seed id_shuffle
           id_shuffle_permutes 2 tt
           (gen_init unit unit unit_seed (2 * 2) tt));
    [lia | apply gr_start | vm_compute; reflexivity].
Defined.

(** * The carver *)

Section CarverLemmas.
Local Open Scope nat_scope.

Lemma carve_step_eq : forall n0 k a i rest n,
  grid_ok n0 k a -> i < n0 * n0 ->
  carve_loop (mesh_x n0) (mesh_y n0) (i :: rest) a n
  = if tried_single n0 k a i then
      if (n - 1 =? 0)%Z then Ok (set_cell a (i / n0) (i mod n0) 0)
      else carve_loop (mesh_x n0) (mesh_y n0) rest
                      (set_cell a (i / n0) (i mod n0) 0) (n - 1)%Z
    else carve_loop (mesh_x n0) (mesh_y n0) rest a n.
Proof.
  intros n0 k a i rest n Hok Hi.
  destruct (index_split n0 i Hi) as (Hx & Hy & _).
  assert (Hok' : grid_ok n0 k (set_cell a (i / n0) (i mod n0) 0))
    by (apply grid_ok_set_cell; [exact Hok | exact Hx | exact Hy | lia]).
  cbn [carve_loop].
  rewrite (py_get_mesh_x n0 i Hi), (py_get_mesh_y n0 i Hi). cbn [bind].
  rewrite (available_digits_at n0 k _ _ _ Hok' Hx Hy). cbn [bind].
  unfold tried_single. reflexivity.
Qed.

Lemma carve_neg_irrel : forall mx my idx a n m,
  (n < 0)%Z -> (m < 0)%Z ->
  carve_loop mx my idx a n = carve_loop mx my idx a m.
Proof.
  intros mx my idx. induction idx as [|i rest IH]; intros a n m Hn Hm.
  - reflexivity.
  - cbn [carve_loop].
    destruct (py_get mx (Z.of_nat i)) as [x|e]; [|reflexivity].
    destruct (py_get my (Z.of_nat i)) as [y|e]; [|reflexivity].
    cbn [bind].
    destruct (available_digits _ _) as [[[a_lst px] py]|e]; [|reflexivity].
    cbn [bind].
    destruct (py_get a_lst 0) as [a0|e]; [|reflexivity]. cbn [bind].
    destruct (length a0 =? 1).
    + destruct (Z.eqb_spec (n - 1) 0); [lia|].
      destruct (Z.eqb_spec (m - 1) 0); [lia|].
      apply IH; lia.
    + apply IH; assumption.
Qed.

Lemma carve_neg_app : forall mx my pre post a n m,
  (n < 0)%Z -> (m < 0)%Z ->
  carve_loop mx my (pre ++ post) a n
  = (a' <- carve_loop mx my pre a n ;; carve_loop mx my post a' m).
Proof.
  intros mx my pre post. induction pre as [|i rest IH]; intros a n m Hn Hm.
  - cbn [app carve_loop bind]. apply carve_neg_irrel; assumption.
  - cbn [app carve_loop].
    destruct (py_get mx (Z.of_nat i)) as [x|e]; [|reflexivity].
    destruct (py_get my (Z.of_nat i)) as [y|e]; [|reflexivity].
    cbn [bind].
    destruct (available_digits _ _) as [[[a_lst px] py]|e]; [|reflexivity].
    cbn [bind].
    destruct (py_get a_lst 0) as [a0|e]; [|reflexivity]. cbn [bind].
    destruct (length a0 =? 1).
    + destruct (Z.eqb_spec (n - 1) 0); [lia|]. apply IH; lia.
    + apply IH; assumption.
Qed.

(** The loop raises nothing on an accepted array; it only writes zeros, and
    only to the cells it is given. *)
Lemma carve_total : forall n0 k idx a n,
  grid_ok n0 k a -> (forall i, In i idx -> i < n0 * n0) ->
  exists P,
    carve_loop (mesh_x n0) (mesh_y n0) idx a n = Ok P
    /\ grid_ok n0 k P
    /\ (forall j, j < n0 * n0 ->
                  cellv n0 P j = cellv n0 a j \/ cellv n0 P j = 0%Z)
    /\ (forall j, j < n0 * n0 -> ~ In j idx -> cellv n0 P j = cellv n0 a j).
Proof.
  intros n0 k idx. induction idx as [|i rest IH]; intros a n Hok Hidx.
  - exists a. cbn [carve_loop]. split; [reflexivity|]. split; [exact Hok|].
    split; intros; auto.
  - assert (Hi : i < n0 * n0) by (apply Hidx; left; reflexivity).
    assert (Hrest : forall i', In i' rest -> i' < n0 * n0)
      by (intros i' H'; apply Hidx; right; exact H').
    destruct (index_split n0 i Hi) as (Hx & Hy & _).
    assert (Hsq : square_shape n0 a) by (destruct Hok as (H & _); exact H).
    assert (Hok' : grid_ok n0 k (set_cell a (i / n0) (i mod n0) 0))
      by (apply grid_ok_set_cell; [exact Hok | exact Hx | exact Hy | lia]).
    assert (Hset : forall j, j < n0 * n0 ->
              cellv n0 (set_cell a (i / n0) (i mod n0) 0) j
              = if j =? i then 0%Z else cellv n0 a j)
      by (intros j Hj; apply cellv_set_cell; assumption).
    rewrite (carve_step_eq n0 k a i rest n Hok Hi).
    destruct (tried_single n0 k a i).
    + destruct (Z.eqb_spec (n - 1) 0).
      * exists (set_cell a (i / n0) (i mod n0) 0).
        split; [reflexivity|]. split; [exact Hok'|]. split.
        -- intros j Hj. rewrite (Hset j Hj).
           destruct (j =? i); [right|left]; reflexivity.
        -- intros j Hj Hnin. rewrite (Hset j Hj).
           destruct (Nat.eqb_spec j i) as [->|_]; [|reflexivity].
           exfalso. apply Hnin. left. reflexivity.
      * destruct (IH _ (n - 1)%Z Hok' Hrest) as (P & E & HP & Hsub & Hout).
        exists P. split; [exact E|]. split; [exact HP|]. split.
        -- intros j Hj. destruct (Hsub j Hj) as [H|H]; [|right; exact H].
           rewrite H, (Hset j Hj).
           destruct (j =? i); [right|left]; reflexivity.
        -- intros j Hj Hnin. rewrite (Hout j Hj), (Hset j Hj).
           ++ destruct (Nat.eqb_spec j i) as [->|_]; [|reflexivity].
              exfalso. apply Hnin. left. reflexivity.
           ++ intros H. apply Hnin. right. exact H.
    + destruct (IH a n Hok Hrest) as (P & E & HP & Hsub & Hout).
      exists P. split; [exact E|]. split; [exact HP|]. split.
      * exact Hsub.
      * intros j Hj Hnin. apply (Hout j Hj).
        intros H. apply Hnin. right. exact H.
Qed.

End CarverLemmas.

Section CheckLemmas.
Local Open Scope nat_scope.

Lemma NoDup_singleton : forall (l : list Z) g,
  NoDup l -> (forall v, In v l <-> v = g) -> l = [g].
Proof.
  intros l g Hnd H. destruct l as [|a l'].
  - exfalso. apply (proj2 (H g) eq_refl).
  - assert (Ha : a = g) by (apply H; left; reflexivity). subst a.
    destruct l' as [|b l'']; [reflexivity|].
    assert (Hb : b = g) by (apply H; right; left; reflexivity). subst b.
    inversion Hnd as [|? ? Hnin _]. exfalso. apply Hnin. left. reflexivity.
Qed.

Lemma length_nodup_le : forall l : list Z,
  length (nodup Z.eq_dec l) <= length l.
Proof.
  induction l as [|a l IH]; [apply le_n|].
  simpl. destruct (in_dec Z.eq_dec a l); simpl; lia.
Qed.

Lemma distinct_count_full : forall l : list Z,
  distinct_count l = length l <-> NoDup l.
Proof.
  unfold distinct_count. intros l. split.
  - induction l as [|a l IH]; intros H; [constructor|].
    simpl in H. destruct (in_dec Z.eq_dec a l) as [Hin|Hnin].
    + pose proof (length_nodup_le l). lia.
    + simpl in H. constructor; [exact Hnin|]. apply IH. lia.
  - intros H. rewrite nodup_fixed_point by exact H. reflexivity.
Qed.

(** The checks at the head of the carver pass exactly when every row is a
    permutation of [1..N]; otherwise the error is [InvalidSolution]. *)
Lemma check_full_rows : forall n0 a,
  square_shape n0 a -> 0 < n0 ->
  ((forall x, x < n0 -> is_perm_1N n0 (nth x a [])) ->
   check_full a = Ok tt)
  /\ (~ (forall x, x < n0 -> is_perm_1N n0 (nth x a [])) ->
      check_full a = Raise InvalidSolution).
Proof.
  intros n0 a Hsq Hn.
  assert (Hlen : shape0 a = n0) by (destruct Hsq as [H _]; exact H).
  assert (Hrows : forall x, x < n0 -> length (nth x a []) = n0)
    by (apply (square_shape_rows n0 a); exact Hsq).
  assert (Hne : exists v, In v (flatten a)).
  { exists (get a 0 0). apply (In_flatten n0 a _ Hsq).
    exists 0, 0. repeat split; assumption. }
  unfold check_full. rewrite Hlen.
  destruct (np_max a) as [m|e] eqn:Emax.
  2:{ exfalso. unfold np_max in Emax. destruct Hne as [v Hv].
      destruct (flatten a); [exact Hv | discriminate]. }
  destruct (np_min a) as [mn|e] eqn:Emin.
  2:{ exfalso. unfold np_min in Emin. destruct Hne as [v Hv].
      destruct (flatten a); [exact Hv | discriminate]. }
  destruct (np_max_spec a m Emax) as [Hm_in Hm_le].
  destruct (np_min_spec a mn Emin) as [Hmn_in Hmn_le].
  cbn [bind].
  assert (Hcell : forall x v, x < n0 -> In v (nth x a []) ->
                              In v (flatten a)).
  { intros x v Hx Hv. apply (In_flatten n0 a _ Hsq).
    apply (In_row n0 a x v Hsq Hx) in Hv. destruct Hv as (y & Hy & E).
    exists x, y. repeat split; assumption. }
  destruct (Z.ltb_spec (Z.of_nat n0) m) as [Hbig|Hbig].
  { cbn [orb]. split; [|reflexivity]. intros Hall. exfalso.
    apply (In_flatten n0 a _ Hsq) in Hm_in.
    destruct Hm_in as (x & y & Hx & Hy & E).
    assert (Hin : In m (nth x a [])).
    { apply (In_row n0 a x m Hsq Hx). exists y. split; assumption. }
    apply (Permutation_in _ (Hall x Hx)) in Hin.
    apply In_range1 in Hin. lia. }
  destruct (Z.ltb_spec mn 1) as [Hsmall|Hsmall].
  { cbn [orb]. split; [|reflexivity]. intros Hall. exfalso.
    apply (In_flatten n0 a _ Hsq) in Hmn_in.
    destruct Hmn_in as (x & y & Hx & Hy & E).
    assert (Hin : In mn (nth x a [])).
    { apply (In_row n0 a x mn Hsq Hx). exists y. split; assumption. }
    apply (Permutation_in _ (Hall x Hx)) in Hin.
    apply In_range1 in Hin. lia. }
  cbn [orb].
  assert (Hrange : forall x v, x < n0 -> In v (nth x a []) ->
                               (1 <= v <= Z.of_nat n0)%Z).
  { intros x v Hx Hv. pose proof (Hcell x v Hx Hv) as Hf.
    pose proof (Hm_le v Hf). pose proof (Hmn_le v Hf). lia. }
  destruct (existsb _ a) eqn:Eex.
  - split; [|reflexivity]. intros Hall. exfalso.
    apply existsb_exists in Eex. destruct Eex as (row & Hin & Hbad).
    apply (In_nth a row []) in Hin. destruct Hin as (x & Hx & Ex).
    fold (shape0 a) in Hx. rewrite Hlen in Hx.
    specialize (Hall x Hx). rewrite Ex in Hall.
    apply negb_true_iff, Nat.eqb_neq in Hbad. apply Hbad.
    assert (Hl : length row = n0) by (rewrite <- Ex; apply Hrows; exact Hx).
    rewrite <- Hl. apply distinct_count_full.
    apply (perm_1N_iff n0 row Hl). exact Hall.
  - split; [reflexivity|]. intros Hnot. exfalso. apply Hnot.
    intros x Hx. apply (perm_1N_iff n0 _ (Hrows x Hx)).
    split; [|intros v Hv; apply (Hrange x v Hx Hv)].
    apply distinct_count_full. rewrite (Hrows x Hx).
    assert (Hin : In (nth x a []) a)
      by (apply nth_In; fold (shape0 a); lia).
    destruct (Nat.eqb_spec (distinct_count (nth x a [])) n0) as [E|E];
      [exact E|].
    exfalso. rewrite <- not_true_iff_false in Eex. apply Eex.
    apply existsb_exists. exists (nth x a []). split; [exact Hin|].
    apply negb_true_iff, Nat.eqb_neq. exact E.
Qed.

Lemma rows_grid_ok : forall n0 k a,
  square_shape n0 a -> n0 = k * k -> 0 < k ->
  (forall x, x < n0 -> is_perm_1N n0 (nth x a [])) ->
  grid_ok n0 k a
  /\ forall x y, x < n0 -> y < n0 -> (1 <= get a x y <= Z.of_nat n0)%Z.
Proof.
  intros n0 k a Hsq Hn Hk Hall.
  assert (Hr : forall x y, x < n0 -> y < n0 ->
                           (1 <= get a x y <= Z.of_nat n0)%Z).
  { intros x y Hx Hy. apply In_range1.
    apply (Permutation_in _ (Hall x Hx)).
    apply (In_row n0 a x _ Hsq Hx). exists y. split; [exact Hy|reflexivity]. }
  split; [|exact Hr].
  split; [exact Hsq|]. split; [exact Hn|]. split; [exact Hk|].
  intros x y Hx Hy. apply (Hr x y Hx Hy).
Qed.

Lemma shuffled_cells : forall (rng : Type)
    (shuffle : forall A : Type, rng -> list A -> list A * rng) g n,
  shuffle_permutes rng shuffle ->
  let idx := fst (shuffle nat g (seq 0 n)) in
  NoDup idx /\ (forall i, In i idx <-> i < n).
Proof.
  intros rng shuffle g n Hsh idx. pose proof (Hsh nat g (seq 0 n)) as Hp.
  fold idx in Hp. split.
  - apply (Permutation_NoDup Hp). apply seq_NoDup.
  - intros i. split.
    + intros Hin. apply (Permutation_in _ (Permutation_sym Hp)) in Hin.
      apply in_seq in Hin. lia.
    + intros Hi. apply (Permutation_in _ Hp). apply in_seq. lia.
Qed.

End CheckLemmas.



(** ** The cap of the carver *)

Section CapLemmas.

Lemma count_zeros_le : forall n0 a,
  square_shape n0 a -> (count_zeros a <= n0 * n0)%nat.
Proof.
  intros n0 a [Hl Hr]. unfold count_zeros, flatten.
  eapply Nat.le_trans; [apply filter_length_le|].
  rewrite (length_concat_rect _ n0) by exact Hr. rewrite Hl. apply le_n.
Qed.

Lemma py_int_nonneg : forall x, (0 <= x)%Q -> py_int x = Qfloor x.
Proof.
  intros x Hx. unfold py_int. apply Qle_bool_iff in Hx. rewrite Hx.
  reflexivity.
Qed.

(** The cap is at least 1, whatever the ratio. *)
Lemma nmax_idx_of_positive : forall r n0 c,
  nmax_idx_of (Some r) n0 = Ok c -> 1 <= c.
Proof.
  intros r n0 c. unfold nmax_idx_of.
  destruct (fl (inject_Z (Z.of_nat n0 ^ 2))) as [s|]; [|discriminate].
  destruct (fl (r * s)) as [x|]; [|discriminate].
  intros H. inversion H. lia.
Qed.

(** The cap is computed when the product of the ratio and the number of
    cells is in the range of the floats. *)
Lemma nmax_idx_of_total : forall (r : Q) (n0 : nat) (D : Z),
  (Qabs r <= inject_Z D)%Q ->
  2 * Z.of_nat n0 ^ 2 + 1 < 2 ^ 1024 ->
  2 * (D * (2 * Z.of_nat n0 ^ 2 + 1)) + 1 < 2 ^ 1024 ->
  exists s x,
    fl (inject_Z (Z.of_nat n0 ^ 2)) = Some s
    /\ fl (r * s) = Some x
    /\ ((0 <= r)%Q -> (0 <= x)%Q)
    /\ nmax_idx_of (Some r) n0 = Ok (Z.max 1 (py_int x)).
Proof.
  intros r n0 D Hr Hn HD.
  destruct (fl_bounded (inject_Z (Z.of_nat n0 ^ 2)) (Z.of_nat n0 ^ 2))
    as (s & Es & Hs); [|exact Hn|].
  { change (Qabs (inject_Z (Z.of_nat n0 ^ 2)))
      with (inject_Z (Z.abs (Z.of_nat n0 ^ 2))).
    rewrite <- Zle_Qle, Z.abs_eq; [lia|]. apply Z.pow_nonneg. lia. }
  assert (Hs0 : (0 <= s)%Q).
  { apply (fl_nonneg (inject_Z (Z.of_nat n0 ^ 2))); [|exact Es].
    rewrite <- (Zle_Qle 0). apply Z.pow_nonneg. lia. }
  destruct (fl_bounded (r * s) (D * (2 * Z.of_nat n0 ^ 2 + 1)))
    as (x & Ex & _); [|exact HD|].
  { rewrite Qabs_Qmult, inject_Z_mult.
    pose proof (Qabs_nonneg r). pose proof (Qabs_nonneg s).
    set (ar := Qabs r) in *. set (as_ := Qabs s) in *.
    set (qD := inject_Z D) in *.
    set (qS := inject_Z (2 * Z.of_nat n0 ^ 2 + 1)) in *. nra. }
  exists s, x. split; [exact Es|]. split; [exact Ex|]. split.
  - intros Hr0. apply (fl_nonneg (r * s)); [|exact Ex].
    apply Qmult_le_0_compat; assumption.
  - unfold nmax_idx_of. rewrite Es, Ex. reflexivity.
Qed.


End CapLemmas.




Section CarveComplete.
Local Open Scope nat_scope.
Variables (k : nat) (G : grid).
Hypothesis Hk : 0 < k.
Hypothesis Hlen : shape0 G = k * k.
Hypothesis HG : complete_valid G.

Lemma complete_cells : cells_valid (k * k) k G.
Proof.
  pose proof (complete_valid_cells G HG) as H.
  rewrite Hlen, Nat.sqrt_square in H. exact H.
Qed.

Lemma complete_square : square_shape (k * k) G.
Proof. rewrite <- Hlen. apply complete_valid_shape. exact HG. Qed.

Lemma complete_rows : forall x, x < k * k -> is_perm_1N (k * k) (nth x G []).
Proof.
  destruct HG as (_ & Hr & _). rewrite Hlen in Hr. exact Hr.
Qed.

Lemma complete_grid_ok : grid_ok (k * k) k G.
Proof.
  apply (rows_grid_ok (k * k) k G complete_square eq_refl Hk complete_rows).
Qed.

(** A cell cleared in a complete grid has its former value as its only
    candidate. *)
Lemma cleared_cell_domain : forall x y, x < k * k -> y < k * k ->
  avail_at (set_cell G x y 0) (k * k) k (x, y) = [get G x y].
Proof.
  intros x y Hx Hy. destruct complete_cells as [Hrange Hdiff].
  pose proof complete_square as Hsq.
  assert (Hsq' : square_shape (k * k) (set_cell G x y 0))
    by (apply square_shape_set_cell; exact Hsq).
  apply NoDup_singleton.
  - unfold avail_at. apply NoDup_filter, NoDup_range1.
  - intros v.
    rewrite (In_avail_at (k * k) k _ x y v Hsq' eq_refl Hk Hx Hy).
    split.
    + intros [Hv Hfree].
      destruct (Z.eq_dec v (get G x y)) as [E|Hne]; [exact E|]. exfalso.
      assert (Hin : In v (nth x G [])).
      { apply (Permutation_in _ (Permutation_sym (complete_rows x Hx))).
        apply In_range1. exact Hv. }
      apply (In_row (k * k) G x v Hsq Hx) in Hin.
      destruct Hin as (y' & Hy' & E).
      apply (Hfree x y' Hx Hy').
      * left. reflexivity.
      * rewrite get_set_cell_other; [exact E|].
        intros Heq. inversion Heq. subst y'. apply Hne. symmetry. exact E.
    + intros ->. split; [apply (Hrange x y Hx Hy)|].
      intros x' y' Hx' Hy' Hrel.
      destruct (Nat.eq_dec x' x) as [Ex|Ex].
      * destruct (Nat.eq_dec y' y) as [Ey|Ey].
        -- subst x' y'. rewrite get_set_cell_same.
           ++ pose proof (Hrange x y Hx Hy). lia.
           ++ destruct Hsq as [Hl _]. rewrite Hl. exact Hx.
           ++ rewrite (proj2 (proj1 (square_shape_rows _ _) Hsq) x Hx).
              exact Hy.
        -- rewrite get_set_cell_other by (intros Heq; inversion Heq; auto).
           intros E. symmetry in E.
           destruct (Hdiff x y x' y' Hx Hy Hx' Hy' Hrel E) as [_ E2].
           auto.
      * rewrite get_set_cell_other by (intros Heq; inversion Heq; auto).
        intros E. symmetry in E.
        destruct (Hdiff x y x' y' Hx Hy Hx' Hy' Hrel E) as [E1 _].
        auto.
Qed.

Lemma complete_tried_single : forall i, i < k * k * (k * k) ->
  tried_single (k * k) k G i = true.
Proof.
  intros i Hi. destruct (index_split (k * k) i Hi) as (Hx & Hy & _).
  unfold tried_single. rewrite (cleared_cell_domain _ _ Hx Hy). reflexivity.
Qed.

(** The run to exhaustion on a complete grid, for a list of distinct
    cells. *)
Lemma carve_exhaust : forall idx n,
  (n < 0)%Z -> NoDup idx -> (forall i, In i idx -> i < k * k * (k * k)) ->
  exists P,
    carve_loop (mesh_x (k * k)) (mesh_y (k * k)) idx G n = Ok P
    /\ grid_ok (k * k) k P
    /\ agrees P G
    /\ (idx <> [] -> 1 <= count_zeros P)
    /\ forall pre i post, idx = pre ++ i :: post ->
         exists A,
           carve_loop (mesh_x (k * k)) (mesh_y (k * k)) pre G (-1) = Ok A
           /\ (cellv (k * k) P i = 0%Z <-> tried_single (k * k) k A i = true).
Proof.
  intros idx n Hneg Hnd Hidx.
  pose proof complete_grid_ok as Hok.
  destruct complete_cells as [Hrange _].
  destruct (carve_total (k * k) k idx G n Hok Hidx) as (P & E & HP & Hsub & _).
  assert (HsqP : square_shape (k * k) P) by (destruct HP as (H & _); exact H).
  assert (Hsplit : forall pre i post, idx = pre ++ i :: post ->
            exists A,
              carve_loop (mesh_x (k * k)) (mesh_y (k * k)) pre G (-1) = Ok A
              /\ (cellv (k * k) P i = 0%Z
                  <-> tried_single (k * k) k A i = true)).
  { intros pre i post Eidx.
    assert (Hi : i < k * k * (k * k))
      by (apply Hidx; rewrite Eidx; apply in_elt).
    destruct (index_split (k * k) i Hi) as (Hx & Hy & _).
    assert (Hpre : forall j, In j pre -> j < k * k * (k * k))
      by (intros j Hj; apply Hidx; rewrite Eidx; apply in_or_app; left;
          exact Hj).
    assert (Hpost : forall j, In j post -> j < k * k * (k * k))
      by (intros j Hj; apply Hidx; rewrite Eidx; apply in_or_app; right;
          right; exact Hj).
    assert (Hnin : ~ In i (pre ++ post))
      by (apply NoDup_remove_2; rewrite <- Eidx; exact Hnd).
    destruct (carve_total (k * k) k pre G (-1) Hok Hpre)
      as (A & EA & HA & _ & HoutA).
    exists A. split; [exact EA|].
    assert (HAi : cellv (k * k) A i <> 0%Z).
    { rewrite (HoutA i Hi)
        by (intros H; apply Hnin; apply in_or_app; left; exact H).
      unfold cellv. pose proof (Hrange _ _ Hx Hy). lia. }
    assert (HsqA : square_shape (k * k) A) by (destruct HA as (H & _); exact H).
    rewrite Eidx in E.
    rewrite (carve_neg_app _ _ pre (i :: post) G n n Hneg Hneg) in E.
    rewrite (carve_neg_irrel _ _ pre G n (-1) Hneg ltac:(lia)), EA in E.
    cbn [bind] in E.
    rewrite (carve_step_eq (k * k) k A i post n HA Hi) in E.
    destruct (tried_single (k * k) k A i).
    - destruct (Z.eqb_spec (n - 1) 0) as [Hz|_]; [lia|].
      assert (Hok' : grid_ok (k * k) k
                             (set_cell A (i / (k * k)) (i mod (k * k)) 0))
        by (apply grid_ok_set_cell; [exact HA | exact Hx | exact Hy | lia]).
      destruct (carve_total (k * k) k post _ (n - 1)%Z Hok' Hpost)
        as (P' & E' & _ & _ & Hout').
      rewrite E' in E. inversion E; subst P'.
      rewrite (Hout' i Hi)
        by (intros H; apply Hnin; apply in_or_app; right; exact H).
      rewrite (cellv_set_cell (k * k) A i i 0%Z HsqA Hi Hi), Nat.eqb_refl.
      split; reflexivity.
    - destruct (carve_total (k * k) k post A n HA Hpost)
        as (P' & E' & _ & _ & Hout').
      rewrite E' in E. inversion E; subst P'.
      rewrite (Hout' i Hi)
        by (intros H; apply Hnin; apply in_or_app; right; exact H).
      split; [intros H; exfalso; exact (HAi H) | discriminate]. }
  exists P. split; [exact E|]. split; [exact HP|]. split; [|split].
  - intros x y Hne.
    destruct (Nat.lt_ge_cases x (k * k)) as [Hx|Hx].
    2:{ exfalso. apply Hne. unfold get. rewrite (nth_overflow P).
        - apply nth_nil.
        - destruct HsqP as [Hl _]. rewrite Hl. exact Hx. }
    destruct (Nat.lt_ge_cases y (k * k)) as [Hy|Hy].
    2:{ exfalso. apply Hne. unfold get. apply nth_overflow.
        rewrite (proj2 (proj1 (square_shape_rows _ _) HsqP) x Hx).
        exact Hy. }
    destruct (index_of_cell (k * k) x y Hx Hy) as (Hj & Ex & Ey).
    destruct (Hsub _ Hj) as [H|H]; unfold cellv in H; rewrite Ex, Ey in H.
    + symmetry. exact H.
    + exfalso. exact (Hne H).
  - intros Hne. destruct idx as [|i rest]; [exfalso; apply Hne; reflexivity|].
    destruct (Hsplit [] i rest eq_refl) as (A & EA & Hiff).
    cbn [carve_loop] in EA. inversion EA; subst A.
    assert (Hi : i < k * k * (k * k)) by (apply Hidx; left; reflexivity).
    destruct (index_split (k * k) i Hi) as (Hx & Hy & _).
    assert (Hz : cellv (k * k) P i = 0%Z)
      by (apply Hiff, complete_tried_single; exact Hi).
    rewrite count_zeros_cells.
    assert (Hin : In (i / (k * k), i mod (k * k)) (nonzero_eq0 P)).
    { apply (In_nonzero_eq0 (k * k) P _ _ HsqP). repeat split; assumption. }
    destruct (nonzero_eq0 P); [destruct Hin | simpl; lia].
  - exact Hsplit.
Qed.

End CarveComplete.

(** C5.  For a complete valid grid [G] of side [N = k * k] and every seed,
    whatever permutation the shuffle returns, the carver run to exhaustion
    returns a grid [P] of the same side whose every non-zero cell is the
    cell of [G], with at least one cell cleared; every cell is tried once,
    and the cell of index [i] is cleared exactly when, on the working grid
    [A] left by the cells tried before it, clearing it in a scratch copy
    leaves one candidate. *)
Theorem gen_sudoku_puzzle_carves :
  forall (rng seedT : Type) (seed_state : seedT -> rng)
         (shuffle : forall A : Type, rng -> list A -> list A * rng),
    shuffle_permutes rng shuffle ->
    forall (k : nat) (G : grid) (seed : seedT),
      (0 < k)%nat -> shape0 G = (k * k)%nat -> complete_valid G ->
      let n0 := (k * k)%nat in
      let idx := fst (shuffle nat (seed_state seed) (seq 0 (n0 ^ 2))) in
      exists P,
        gen_sudoku_puzzle rng seedT seed_state shuffle G None seed = Ok P
        /\ square_shape n0 P
        /\ agrees P G
        /\ (1 <= count_zeros P)%nat
        /\ (forall i, (i < n0 * n0)%nat -> In i idx)
        /\ forall pre i post, idx = pre ++ i :: post ->
             exists A,
               carve_loop (mesh_x n0) (mesh_y n0) pre G (-1) = Ok A
               /\ (cellv n0 P i = 0 <-> tried_single n0 k A i = true).
Proof.
  intros rng seedT seed_state shuffle Hsh k G seed Hk Hlen HG n0 idx.
  destruct (shuffled_cells rng shuffle (seed_state seed) (n0 ^ 2) Hsh)
    as [Hnd Hidx].
  fold idx in Hnd, Hidx.
  assert (Hlt : forall i, In i idx -> (i < k * k * (k * k))%nat).
  { intros i Hi. apply Hidx in Hi. rewrite Nat.pow_2_r in Hi. exact Hi. }
  destruct (carve_exhaust k G Hk Hlen HG idx (-1) ltac:(lia) Hnd Hlt)
    as (P & E & HP & Hag & Hone & Hsplit).
  exists P.
  assert (Hn : (0 < k * k)%nat) by nia.
  destruct (check_full_rows (k * k) G (complete_square k G Hlen HG) Hn)
    as [Hpass _].
  split.
  { unfold gen_sudoku_puzzle.
    rewrite (Hpass (complete_rows k G Hlen HG)), Hlen. cbn [bind].
    exact E. }
  split; [destruct HP as (H & _); exact H|]. split; [exact Hag|].
  assert (Hall : forall i, (i < n0 * n0)%nat -> In i idx).
  { intros i Hi. apply Hidx. rewrite Nat.pow_2_r. exact Hi. }
  split; [|split; [exact Hall | exact Hsplit]].
  apply Hone. intros Hnil.
  assert (H0 : In 0%nat idx) by (apply Hall; unfold n0; nia).
  rewrite Hnil in H0. exact H0.
Qed.

Lemma g_two_a_valid : complete_valid g_two_a.
Proof. apply complete_validb_true. vm_compute. reflexivity. Qed.

Lemma gen_sudoku_puzzle_carves_witness :
  shuffle_permutes unit id_shuffle /\ (0 < 2)%nat
  /\ shape0 g_two_a = (2 * 2)%nat /\ complete_valid g_two_a
  /\ exists P,
       gen_sudoku_puzzle unit unit unit_seed id_shuffle g_two_a None tt = Ok P
       /\ square_shape (2 * 2) P /\ agrees P g_two_a
       /\ (1 <= count_zeros P)%nat.
Proof.
  split; [exact id_shuffle_permutes|]. split; [lia|].
  split; [reflexivity|]. split; [exact g_two_a_valid|].
  destruct (gen_sudoku_puzzle_carves unit unit unit_seed id_shuffle
              id_shuffle_permutes 2 g_two_a tt ltac:(lia) eq_refl
              g_two_a_valid)
    as (P & E & Hsq & Hag & Hz & _).
  exists P. split; [exact E|]. split; [exact Hsq|].
  split; [exact Hag | exact Hz].
Defined.

(** * The assembler *)

Section CarveCount.
Local Open Scope nat_scope.
Variables n0 k : nat.

Lemma count_zeros_clear : forall a i,
  grid_ok n0 k a -> i < n0 * n0 -> cellv n0 a i <> 0%Z ->
  count_zeros (set_cell a (i / n0) (i mod n0) 0) = S (count_zeros a).
Proof.
  intros a i Hok Hi Hne. destruct (index_split n0 i Hi) as (Hx & Hy & _).
  destruct Hok as (Hsq & _).
  pose proof (count_zeros_set_cell a (i / n0) (i mod n0) 0%Z) as H.
  unfold cellv in Hne.
  destruct (Z.eqb_spec (get a (i / n0) (i mod n0)) 0) as [E|_];
    [contradiction|].
  simpl in H. rewrite Nat.add_0_r, Nat.add_1_r in H. apply H.
  - destruct Hsq as [Hl _]. rewrite Hl. exact Hx.
  - rewrite (proj2 (proj1 (square_shape_rows _ _) Hsq) _ Hx). exact Hy.
Qed.

(** With a positive cap the loop clears the first [cap] cells that the run
    to exhaustion clears, or all of them when they are fewer. *)
Lemma carve_cap_count : forall idx a n,
  grid_ok n0 k a -> NoDup idx ->
  (forall i, In i idx -> i < n0 * n0 /\ cellv n0 a i <> 0%Z) ->
  (1 <= n)%Z ->
  exists P Pmax,
    carve_loop (mesh_x n0) (mesh_y n0) idx a n = Ok P
    /\ carve_loop (mesh_x n0) (mesh_y n0) idx a (-1) = Ok Pmax
    /\ count_zeros a <= count_zeros Pmax
    /\ count_zeros P
       = count_zeros a + Nat.min (Z.to_nat n) (count_zeros Pmax - count_zeros a).
Proof.
  induction idx as [|i rest IH]; intros a n Hok Hnd Hidx Hn.
  - exists a, a. cbn [carve_loop]. split; [reflexivity|].
    split; [reflexivity|]. split; [apply le_n|].
    rewrite Nat.sub_diag, Nat.min_0_r, Nat.add_0_r. reflexivity.
  - destruct (Hidx i (or_introl eq_refl)) as [Hi Hne].
    destruct (index_split n0 i Hi) as (Hx & Hy & _).
    inversion Hnd as [|? ? Hnin Hnd']; subst.
    assert (Hsq : square_shape n0 a) by (destruct Hok as (H & _); exact H).
    assert (Hok' : grid_ok n0 k (set_cell a (i / n0) (i mod n0) 0))
      by (apply grid_ok_set_cell; [exact Hok | exact Hx | exact Hy | lia]).
    assert (Hrest' : forall j, In j rest ->
              j < n0 * n0
              /\ cellv n0 (set_cell a (i / n0) (i mod n0) 0) j <> 0%Z).
    { intros j Hj. destruct (Hidx j (or_intror Hj)) as [Hj1 Hj2].
      split; [exact Hj1|].
      rewrite (cellv_set_cell n0 a i j 0%Z Hsq Hi Hj1).
      destruct (Nat.eqb_spec j i) as [->|_]; [contradiction | exact Hj2]. }
    assert (Hrest : forall j, In j rest ->
              j < n0 * n0 /\ cellv n0 a j <> 0%Z)
      by (intros j Hj; apply Hidx; right; exact Hj).
    pose proof (count_zeros_clear a i Hok Hi Hne) as Hclr.
    rewrite (carve_step_eq n0 k a i rest n Hok Hi).
    rewrite (carve_step_eq n0 k a i rest (-1) Hok Hi).
    destruct (tried_single n0 k a i).
    + change (-1 - 1 =? 0)%Z with false. cbv iota.
      rewrite (carve_neg_irrel _ _ rest _ (-1 - 1) (-1)) by lia.
      destruct (Z.eqb_spec (n - 1) 0) as [Hz|Hz].
      * destruct (IH _ 1%Z Hok' Hnd' Hrest' ltac:(lia))
          as (_ & Pmax & _ & Emax & Hmono & _).
        exists (set_cell a (i / n0) (i mod n0) 0), Pmax.
        split; [reflexivity|]. split; [exact Emax|]. split; [lia|].
        replace (Z.to_nat n) with 1 by lia. lia.
      * destruct (IH _ (n - 1)%Z Hok' Hnd' Hrest' ltac:(lia))
          as (P & Pmax & E & Emax & Hmono & Hcount).
        exists P, Pmax. split; [exact E|]. split; [exact Emax|].
        split; [lia|]. rewrite Hcount. lia.
    + destruct (IH a n Hok Hnd' Hrest Hn)
        as (P & Pmax & E & Emax & Hmono & Hcount).
      exists P, Pmax. split; [exact E|]. split; [exact Emax|].
      split; [exact Hmono | exact Hcount].
Qed.

End CarveCount.

Section Assembler.
Variables (rng seedT : Type) (seed_state : seedT -> rng).
Variable shuffle : forall A : Type, rng -> list A -> list A * rng.
Hypothesis shuffle_ok : shuffle_permutes rng shuffle.
Variable entropy : nat -> seedT.
Variable k : nat.
Hypothesis Hk : (0 < k)%nat.

Lemma complete_no_zeros : forall G,
  shape0 G = (k * k)%nat -> complete_valid G -> count_zeros G = 0%nat.
Proof.
  intros G Hlen HG. rewrite count_zeros_cells.
  destruct (nonzero_eq0 G) as [|[x y] l] eqn:E; [reflexivity|]. exfalso.
  assert (Hin : In (x, y) (nonzero_eq0 G)) by (rewrite E; left; reflexivity).
  apply (In_nonzero_eq0 (k * k) G x y (complete_square k G Hlen HG)) in Hin.
  destruct Hin as (Hx & Hy & Hz).
  destruct (complete_cells k G Hlen HG) as [Hrange _].
  pose proof (Hrange x y Hx Hy). lia.
Qed.

(** The run to exhaustion on a complete grid [sol]. *)
Lemma carve_none_on_solution : forall (sol : grid) (seed : seedT),
  shape0 sol = (k * k)%nat -> complete_valid sol ->
  exists pmax,
    gen_sudoku_puzzle rng seedT seed_state shuffle sol None seed = Ok pmax
    /\ square_shape (k * k) pmax
    /\ (1 <= count_zeros pmax)%nat.
Proof.
  intros sol seed Hlen HG.
  assert (Hn : (0 < k * k)%nat) by nia.
  set (idx := fst (shuffle nat (seed_state seed) (seq 0 ((k * k) ^ 2)))).
  destruct (shuffled_cells rng shuffle (seed_state seed) ((k * k) ^ 2)
                           shuffle_ok) as [Hnd Hidx].
  fold idx in Hnd, Hidx.
  assert (Hlt : forall i, In i idx -> (i < k * k * (k * k))%nat).
  { intros i Hi. apply Hidx in Hi. rewrite Nat.pow_2_r in Hi. exact Hi. }
  assert (Hne : idx <> []).
  { intros Hnil.
    assert (H0 : In 0%nat idx) by (apply Hidx; rewrite Nat.pow_2_r; nia).
    rewrite Hnil in H0. exact H0. }
  destruct (check_full_rows (k * k) sol (complete_square k sol Hlen HG) Hn)
    as [Hpass _].
  specialize (Hpass (complete_rows k sol Hlen HG)).
  destruct (carve_exhaust k sol Hk Hlen HG idx (-1) ltac:(lia) Hnd Hlt)
    as (pmax & Emax & Hokmax & _ & Hone & _).
  exists pmax. split.
  { unfold gen_sudoku_puzzle. rewrite Hpass, Hlen. cbn [bind nmax_idx_of].
    exact Emax. }
  split; [destruct Hokmax as (H & _); exact H | exact (Hone Hne)].
Qed.

(** The carver on a complete grid [sol], with the cap [c] of a ratio and
    without a ratio, for one seed: the two runs see the same cells in the
    same order, and the first stops at the cap. *)
Lemma carve_on_solution : forall (sol : grid) (seed : seedT) (r : Q) (c : Z),
  shape0 sol = (k * k)%nat -> complete_valid sol ->
  nmax_idx_of (Some r) (k * k) = Ok c ->
  exists pmax c_puzzle,
    gen_sudoku_puzzle rng seedT seed_state shuffle sol None seed = Ok pmax
    /\ square_shape (k * k) pmax
    /\ (1 <= count_zeros pmax)%nat
    /\ gen_sudoku_puzzle rng seedT seed_state shuffle sol (Some r) seed
       = Ok c_puzzle
    /\ Z.of_nat (count_zeros c_puzzle)
       = Z.min c (Z.of_nat (count_zeros pmax)).
Proof.
  intros sol seed r c Hlen HG Hc.
  assert (Hn : (0 < k * k)%nat) by nia.
  set (idx := fst (shuffle nat (seed_state seed) (seq 0 ((k * k) ^ 2)))).
  destruct (shuffled_cells rng shuffle (seed_state seed) ((k * k) ^ 2)
                           shuffle_ok) as [Hnd Hidx].
  fold idx in Hnd, Hidx.
  assert (Hlt : forall i, In i idx -> (i < k * k * (k * k))%nat).
  { intros i Hi. apply Hidx in Hi. rewrite Nat.pow_2_r in Hi. exact Hi. }
  assert (Hne : idx <> []).
  { intros Hnil.
    assert (H0 : In 0%nat idx) by (apply Hidx; rewrite Nat.pow_2_r; nia).
    rewrite Hnil in H0. exact H0. }
  destruct (check_full_rows (k * k) sol (complete_square k sol Hlen HG) Hn)
    as [Hpass _].
  specialize (Hpass (complete_rows k sol Hlen HG)).
  destruct (complete_cells k sol Hlen HG) as [Hrange _].
  destruct (carve_exhaust k sol Hk Hlen HG idx (-1) ltac:(lia) Hnd Hlt)
    as (pmax & Emax & Hokmax & _ & Hone & _).
  specialize (Hone Hne).
  pose proof (nmax_idx_of_positive r (k * k) c Hc) as Hc1.
  destruct (carve_cap_count (k * k) k idx sol c
              (complete_grid_ok k sol Hk Hlen HG) Hnd)
    as (P & Pmax' & E & Emax' & _ & Hcount).
  { intros i Hi. split; [apply Hlt; exact Hi|].
    destruct (index_split (k * k) i (Hlt i Hi)) as (Hx & Hy & _).
    unfold cellv. pose proof (Hrange _ _ Hx Hy). lia. }
  { exact Hc1. }
  rewrite Emax in Emax'. inversion Emax'; subst Pmax'.
  exists pmax, P.
  split.
  { unfold gen_sudoku_puzzle. rewrite Hpass, Hlen. cbn [bind nmax_idx_of].
    exact Emax. }
  split; [destruct Hokmax as (H & _); exact H|].
  split; [exact Hone|]. split.
  { unfold gen_sudoku_puzzle. rewrite Hpass, Hlen, Hc. cbn [bind].
    exact E. }
  rewrite Hcount, (complete_no_zeros sol Hlen HG). lia.
Qed.

(** The floats of the assembler are finite when its size is no more than
    53 bits wide and the difficulty no more than [2 ^ 900] in magnitude:
    the ratio of the run to exhaustion, the ratio asked for, and the
    product from which the cap is cut. *)
Lemma assembler_floats : forall (e : nat) (d : Q),
  (e <= k * k * (k * k))%nat -> Z.of_nat (k * k) < 2 ^ 53 ->
  (Qabs d <= inject_Z (2 ^ 900))%Q ->
  exists ratio target size2 x,
    fl (inject_Z (Z.of_nat e) / inject_Z (Z.of_nat (k * k) ^ 2))
    = Some ratio
    /\ fl (d * ratio) = Some target
    /\ fl (inject_Z (Z.of_nat (k * k) ^ 2)) = Some size2
    /\ fl (target * size2) = Some x
    /\ ((0 <= d)%Q -> (0 <= x)%Q)
    /\ nmax_idx_of (Some target) (k * k) = Ok (Z.max 1 (py_int x)).
Proof.
  intros e d He Hsize Hd.
  set (n2 := Z.of_nat (k * k) ^ 2).
  assert (Hn2 : 1 <= n2 < 2 ^ 106).
  { unfold n2. change (2 ^ 106) with (2 ^ 53 * 2 ^ 53).
    rewrite Z.pow_2_r. nia. }
  assert (Hn2q : (1 <= inject_Z n2)%Q) by (rewrite <- (Zle_Qle 1); lia).
  assert (Heq : (0 <= inject_Z (Z.of_nat e))%Q)
    by (rewrite <- (Zle_Qle 0); lia).
  assert (Hen : (inject_Z (Z.of_nat e) <= inject_Z n2)%Q).
  { rewrite <- Zle_Qle. unfold n2. rewrite Z.pow_2_r. nia. }
  set (q := (inject_Z (Z.of_nat e) / inject_Z n2)%Q).
  assert (Hq : (0 <= q)%Q /\ (q <= 1)%Q).
  { unfold q. split.
    - apply Qle_shift_div_l; lra.
    - apply Qle_shift_div_r; lra. }
  destruct (fl_bounded q 1) as (ratio & Er & Hr).
  { rewrite Qabs_pos by (apply Hq). apply Hq. }
  { reflexivity. }
  assert (Hr0 : (0 <= ratio)%Q) by (apply (fl_nonneg q); [apply Hq|exact Er]).
  destruct (fl_bounded (d * ratio) (3 * 2 ^ 900)) as (target & Et & Ht).
  { rewrite Qabs_Qmult, inject_Z_mult.
    pose proof (Qabs_nonneg d). pose proof (Qabs_nonneg ratio).
    change (inject_Z (2 * 1 + 1)) with 3%Q in Hr.
    change (inject_Z 3) with 3%Q.
    set (ad := Qabs d) in *. set (ar := Qabs ratio) in *.
    set (D := inject_Z (2 ^ 900)) in *. nra. }
  { reflexivity. }
  destruct (nmax_idx_of_total target (k * k) (2 * (3 * 2 ^ 900) + 1) Ht)
    as (size2 & x & Es & Ex & Hx0 & Ecap).
  { fold n2. assert (2 ^ 106 < 2 ^ 1000) by reflexivity.
    assert (2 ^ 1000 < 2 ^ 1024) by reflexivity. lia. }
  { fold n2.
    assert (Hb : 2 * (3 * 2 ^ 900) + 1 <= 2 ^ 903) by (apply Z.leb_le; reflexivity).
    assert (Hc : 2 * n2 + 1 <= 2 ^ 107) by (change (2 ^ 107) with (2 * 2 ^ 106); lia).
    assert (Hm : (2 * (3 * 2 ^ 900) + 1) * (2 * n2 + 1) <= 2 ^ 903 * 2 ^ 107)
      by (apply Z.mul_le_mono_nonneg; lia).
    assert (He' : 2 * (2 ^ 903 * 2 ^ 107) + 1 < 2 ^ 1024) by reflexivity.
    lia. }
  exists ratio, target, size2, x.
  split; [exact Er|]. split; [exact Et|]. split; [exact Es|].
  split; [exact Ex|]. split; [|exact Ecap].
  intros Hd0. apply Hx0. apply (fl_nonneg (d * ratio)); [|exact Et].
  apply Qmult_le_0_compat; assumption.
Qed.

(** What the assembler returns, call by call: the solution, the run to
    exhaustion, the three floats, the cap and the puzzle, which has as
    many empty cells as the cap allows among those that a run to
    exhaustion in the order of the last call clears. *)
Lemma gen_customized_puzzle_total : forall (random_seed : option seedT) (d : Q),
  Z.of_nat (k * k) < 2 ^ 53 -> (Qabs d <= inject_Z (2 ^ 900))%Q ->
  exists fuel0, forall fuel, (fuel0 <= fuel)%nat ->
    exists sol pmax ratio target size2 x c_puzzle pmax2,
      gen_sudoku_full rng seedT seed_state shuffle fuel (Z.of_nat (k * k))
                      (seed_of_call seedT entropy random_seed 0)
      = Some (Ok sol)
      /\ square_shape (k * k) sol /\ complete_valid sol
      /\ gen_sudoku_puzzle rng seedT seed_state shuffle sol None
                           (seed_of_call seedT entropy random_seed 1)
         = Ok pmax
      /\ fl (inject_Z (Z.of_nat (count_zeros pmax))
             / inject_Z (Z.of_nat (k * k) ^ 2)) = Some ratio
      /\ fl (d * ratio) = Some target
      /\ fl (inject_Z (Z.of_nat (k * k) ^ 2)) = Some size2
      /\ fl (target * size2) = Some x
      /\ ((0 <= d)%Q -> (0 <= x)%Q)
      /\ nmax_idx_of (Some target) (k * k) = Ok (Z.max 1 (py_int x))
      /\ gen_sudoku_puzzle rng seedT seed_state shuffle sol (Some target)
                           (seed_of_call seedT entropy random_seed 2)
         = Ok c_puzzle
      /\ gen_customized_puzzle rng seedT seed_state shuffle entropy fuel
                               (Z.of_nat (k * k)) random_seed d
         = Some (Ok (c_puzzle, sol))
      /\ gen_sudoku_puzzle rng seedT seed_state shuffle sol None
                           (seed_of_call seedT entropy random_seed 2)
         = Ok pmax2
      /\ Z.of_nat (count_zeros c_puzzle)
         = Z.min (Z.max 1 (py_int x)) (Z.of_nat (count_zeros pmax2)).
Proof.
  intros random_seed d Hsize Hd.
  destruct (gen_sudoku_full_total rng seedT seed_state shuffle shuffle_ok
              k Hk (seed_of_call seedT entropy random_seed 0)
              (size_root_side k Hsize)) as [fuel0 Hfull].
  exists fuel0. intros fuel Hfuel.
  destruct (Hfull fuel Hfuel) as (sol & Esol & Hsq & HG).
  assert (Hlen : shape0 sol = (k * k)%nat) by (destruct Hsq as [H _]; exact H).
  destruct (carve_none_on_solution
              sol (seed_of_call seedT entropy random_seed 1) Hlen HG)
    as (pmax & Epm & Hsqm & _).
  destruct (assembler_floats (count_zeros pmax) d
              (count_zeros_le (k * k) pmax Hsqm) Hsize Hd)
    as (ratio & target & size2 & x & Er & Et & Es & Ex & Hx0 & Ecap).
  destruct (carve_on_solution sol (seed_of_call seedT entropy random_seed 2)
              target _ Hlen HG Ecap)
    as (pmax2 & c_puzzle & Epm2 & _ & _ & Ec & Hcount).
  exists sol, pmax, ratio, target, size2, x, c_puzzle, pmax2.
  split; [exact Esol|]. split; [exact Hsq|]. split; [exact HG|].
  split; [exact Epm|]. split; [exact Er|]. split; [exact Et|].
  split; [exact Es|]. split; [exact Ex|]. split; [exact Hx0|].
  split; [exact Ecap|]. split; [exact Ec|]. split; [|split];
    [|exact Epm2|exact Hcount].
  unfold gen_customized_puzzle. rewrite Esol, Epm. cbn [bind].
  destruct (Z.eqb_spec (Z.of_nat (k * k) ^ 2) 0) as [Hz|_]; [nia|].
  rewrite Er, Et, Ec. reflexivity.
Qed.

End Assembler.

(** The cap in binary64 on two inputs where exact arithmetic gives another
    value: for the difficulty 0.6 (the float nearest to 3/5, which is
    below 3/5), 10 cells cleared by the run to exhaustion and the side 4,
    the three roundings give the product 6 where the exact product of the
    float 0.6 and 10 is below 6; for the difficulty 0.25, 372 cells and the
    side 25 they give a product below 93 where the exact product is 93. *)
Lemma cap_in_binary64 :
  (exists ratio target x,
     fl (inject_Z 10 / inject_Z (4 ^ 2)) = Some ratio
     /\ fl (round64 (3 # 5) * ratio) = Some target
     /\ fl (target * inject_Z (4 ^ 2)) = Some x
     /\ Qfloor x = 6
     /\ nmax_idx_of (Some target) 4 = Ok 6
     /\ Qfloor (round64 (3 # 5) * inject_Z 10) = 5)
  /\ (exists ratio target x,
        fl (inject_Z 372 / inject_Z (25 ^ 2)) = Some ratio
        /\ fl ((1 # 4) * ratio) = Some target
        /\ fl (target * inject_Z (25 ^ 2)) = Some x
        /\ Qfloor x = 92
        /\ nmax_idx_of (Some target) 25 = Ok 92
        /\ Qfloor ((1 # 4) * inject_Z 372) = 93).
Proof.
  split.
  - eexists. eexists. eexists. split; [vm_compute; reflexivity|].
    split; [vm_compute; reflexivity|]. split; [vm_compute; reflexivity|].
    split; [vm_compute; reflexivity|]. split; vm_compute; reflexivity.
  - eexists. eexists. eexists. split; [vm_compute; reflexivity|].
    split; [vm_compute; reflexivity|]. split; [vm_compute; reflexivity|].
    split; [vm_compute; reflexivity|]. split; vm_compute; reflexivity.
Qed.

(** C7, as stated, fails: for the side 4, the generator that leaves every
    list in order and the difficulty 3/4, the run to exhaustion clears 9
    cells; the floats are exact here, the ratio asked for is 27/64 and
    [targetRatio * N^2 = 6.75]; the cap of the code is 6 and the puzzle
    has 6 empty cells, where the rounded cap is 7. *)
Lemma gen_customized_puzzle_cap_not_rounded :
  gen_sudoku_full unit unit unit_seed id_shuffle 100 4 tt = Some (Ok g_two_a)
  /\ (exists pmax,
        gen_sudoku_puzzle unit unit unit_seed id_shuffle g_two_a None tt
        = Ok pmax /\ count_zeros pmax = 9%nat)
  /\ fl (inject_Z 9 / inject_Z (4 ^ 2)) = Some (9 # 16)
  /\ fl ((3 # 4) * (9 # 16)) = Some (27 # 64)
  /\ fl ((27 # 64) * inject_Z (4 ^ 2)) = Some (27 # 4)
  /\ nmax_idx_of (Some (27 # 64)) 4 = Ok 6
  /\ spec_cap (27 # 64) 4 = 7
  /\ (exists p,
        gen_customized_puzzle unit unit unit_seed id_shuffle (fun _ => tt)
                              100 4 (Some tt) (3 # 4)
        = Some (Ok (p, g_two_a)) /\ count_zeros p = 6%nat).
Proof.
  split; [vm_compute; reflexivity|].
  split; [eexists; split; vm_compute; reflexivity|].
  split; [vm_compute; reflexivity|].
  split; [vm_compute; reflexivity|].
  split; [vm_compute; reflexivity|].
  split; [vm_compute; reflexivity|].
  split; [vm_compute; reflexivity|].
  eexists. split; vm_compute; reflexivity.
Qed.

(** C7, as the code has it.  For every side [N = k * k] of 53 bits or
    fewer, every seed (none included) and every difficulty [d] in [0, 1]:
    the assembler returns; the cap of its last call of the carver is
    [max(1, floor(x))], where [x] is the float product of the ratio asked
    for and [N^2], the ratio asked for the float product of [d] and the
    ratio of the run to exhaustion, and that ratio the float quotient of
    the number of cells cleared and [N^2]: the fraction of [x] is cut, not
    rounded.  The puzzle returned has as many empty cells as the cap
    allows among the cells that a run to exhaustion in the order of the
    last call clears, which with a seed given is the run to exhaustion
    of the assembler itself. *)
Theorem gen_customized_puzzle_cap_floor :
  forall (rng seedT : Type) (seed_state : seedT -> rng)
         (shuffle : forall A : Type, rng -> list A -> list A * rng),
    shuffle_permutes rng shuffle ->
    forall (entropy : nat -> seedT) (k : nat) (random_seed : option seedT)
           (d : Q),
      (0 < k)%nat -> Z.of_nat (k * k) < 2 ^ 53 ->
      (0 <= d)%Q -> (d <= 1)%Q ->
      exists fuel0, forall fuel, (fuel0 <= fuel)%nat ->
        exists sol pmax ratio target size2 x c_puzzle pmax2,
          gen_sudoku_full rng seedT seed_state shuffle fuel
                          (Z.of_nat (k * k))
                          (seed_of_call seedT entropy random_seed 0)
          = Some (Ok sol)
          /\ gen_sudoku_puzzle rng seedT seed_state shuffle sol None
                               (seed_of_call seedT entropy random_seed 1)
             = Ok pmax
          /\ fl (inject_Z (Z.of_nat (count_zeros pmax))
                 / inject_Z (Z.of_nat (k * k) ^ 2)) = Some ratio
          /\ fl (d * ratio) = Some target
          /\ fl (inject_Z (Z.of_nat (k * k) ^ 2)) = Some size2
          /\ fl (target * size2) = Some x
          /\ nmax_idx_of (Some target) (k * k) = Ok (Z.max 1 (Qfloor x))
          /\ gen_customized_puzzle rng seedT seed_state shuffle entropy fuel
                                   (Z.of_nat (k * k)) random_seed d
             = Some (Ok (c_puzzle, sol))
          /\ gen_sudoku_puzzle rng seedT seed_state shuffle sol None
                               (seed_of_call seedT entropy random_seed 2)
             = Ok pmax2
          /\ Z.of_nat (count_zeros c_puzzle)
             = Z.min (Z.max 1 (Qfloor x)) (Z.of_nat (count_zeros pmax2))
          /\ (forall s, random_seed = Some s -> pmax2 = pmax).
Proof.
  intros rng seedT seed_state shuffle Hsh entropy k random_seed d
         Hk Hsize Hd0 Hd1.
  assert (Hd : (Qabs d <= inject_Z (2 ^ 900))%Q).
  { rewrite Qabs_pos by exact Hd0.
    apply (Qle_trans _ 1); [exact Hd1|]. rewrite <- (Zle_Qle 1).
    apply Z.leb_le. reflexivity. }
  destruct (gen_customized_puzzle_total rng seedT seed_state shuffle Hsh
              entropy k Hk random_seed d Hsize Hd) as [fuel0 H].
  exists fuel0. intros fuel Hfuel.
  destruct (H fuel Hfuel)
    as (sol & pmax & ratio & target & size2 & x & c_puzzle & pmax2
        & E1 & _ & _ & E2 & Er & Et & Es & Ex & Hx0 & Ecap & _ & E3 & E4
        & Hcount).
  rewrite (py_int_nonneg x (Hx0 Hd0)) in Ecap, Hcount.
  exists sol, pmax, ratio, target, size2, x, c_puzzle, pmax2.
  split; [exact E1|]. split; [exact E2|]. split; [exact Er|].
  split; [exact Et|]. split; [exact Es|]. split; [exact Ex|].
  split; [exact Ecap|]. split; [exact E3|]. split; [exact E4|].
  split; [exact Hcount|].
  intros s ->. cbn [seed_of_call] in E2, E4. rewrite E2 in E4.
  inversion E4. reflexivity.
Qed.

Lemma gen_customized_puzzle_cap_floor_witness :
  shuffle_permutes unit id_shuffle /\ (0 < 2)%nat
  /\ Z.of_nat (2 * 2) < 2 ^ 53 /\ (0 <= 3 # 4)%Q /\ (3 # 4 <= 1)%Q
  /\ exists fuel0, forall fuel, (fuel0 <= fuel)%nat ->
       exists sol pmax ratio target size2 x c_puzzle pmax2,
         gen_sudoku_full unit unit unit_seed id_shuffle fuel
                         (Z.of_nat (2 * 2))
                         (seed_of_call unit (fun _ => tt) (Some tt) 0)
         = Some (Ok sol)
         /\ gen_sudoku_puzzle unit unit unit_seed id_shuffle sol None
                              (seed_of_call unit (fun _ => tt) (Some tt) 1)
            = Ok pmax
         /\ fl (inject_Z (Z.of_nat (count_zeros pmax))
                / inject_Z (Z.of_nat (2 * 2) ^ 2)) = Some ratio
         /\ fl ((3 # 4) * ratio) = Some target
         /\ fl (inject_Z (Z.of_nat (2 * 2) ^ 2)) = Some size2
         /\ fl (target * size2) = Some x
         /\ nmax_idx_of (Some target) (2 * 2) = Ok (Z.max 1 (Qfloor x))
         /\ gen_customized_puzzle unit unit unit_seed id_shuffle
                                  (fun _ => tt) fuel (Z.of_nat (2 * 2))
                                  (Some tt) (3 # 4)
            = Some (Ok (c_puzzle, sol))
         /\ gen_sudoku_puzzle unit unit unit_seed id_shuffle sol None
                              (seed_of_call unit (fun _ => tt) (Some tt) 2)
            = Ok pmax2
         /\ Z.of_nat (count_zeros c_puzzle)
            = Z.min (Z.max 1 (Qfloor x)) (Z.of_nat (count_zeros pmax2))
         /\ (forall s, Some tt = Some s -> pmax2 = pmax).
Proof.
  split; [exact id_shuffle_permutes|]. split; [lia|].
  split; [reflexivity|].
  split; [unfold Qle; simpl; lia|]. split; [unfold Qle; simpl; lia|].
  apply (gen_customized_puzzle_cap_floor unit unit unit_seed id_shuffle
           id_shuffle_permutes (fun _ => tt) 2 (Some tt) (3 # 4)).
  - lia.
  - reflexivity.
  - unfold Qle; simpl; lia.
  - unfold Qle; simpl; lia.
Defined.

(** * Further properties of the solver *)

Section SolverResults.
Local Open Scope nat_scope.

Lemma branch_vals_from : forall solve arr x y vals sols recs sols' recs',
  branch_vals solve arr x y vals sols recs = Some (Ok (sols', recs')) ->
  forall g, In g sols' ->
    In g sols
    \/ exists val s r,
         In val vals /\ solve (set_cell arr x y val) = Some (Ok (Some s, r))
         /\ In g s.
Proof.
  intros solve arr x y vals.
  induction vals as [|val vs IH]; intros sols recs sols' recs' E g Hg.
  - simpl in E. inversion E; subst. left. exact Hg.
  - simpl in E.
    destruct (solve (set_cell arr x y val)) as [[[tmp r]|e]|] eqn:Es;
      try discriminate.
    destruct (IH _ _ _ _ E g Hg) as [Hin | (v & s & r' & Hv & Ev & Hs)].
    + destruct tmp as [s|]; [|left; exact Hin].
      apply in_app_or in Hin. destruct Hin as [Hin|Hin]; [left; exact Hin|].
      right. exists val, s, r. split; [left; reflexivity|].
      split; [exact Es | exact Hin].
    + right. exists v, s, r'. split; [right; exact Hv|].
      split; [exact Ev | exact Hs].
Qed.

Lemma branch_cells_from :
  forall solve arr avail_lst pos_x pos_y indices sols recs sols' recs',
  branch_cells solve arr avail_lst pos_x pos_y indices sols recs
  = Some (Ok (sols', recs')) ->
  forall g, In g sols' ->
    In g sols
    \/ exists idx val s r,
         In idx indices /\ In val (nth idx avail_lst [])
         /\ solve (set_cell arr (nth idx pos_x 0) (nth idx pos_y 0) val)
            = Some (Ok (Some s, r))
         /\ In g s.
Proof.
  intros solve arr avail_lst pos_x pos_y indices.
  induction indices as [|idx rest IH]; intros sols recs sols' recs' E g Hg.
  - simpl in E. inversion E; subst. left. exact Hg.
  - simpl in E.
    destruct (branch_vals solve arr (nth idx pos_x 0) (nth idx pos_y 0)
                          (nth idx avail_lst []) sols [])
      as [[[sols1 rec1]|e]|] eqn:Ev; try discriminate.
    destruct (IH _ _ _ _ E g Hg)
      as [Hin | (i & v & s & r & Hi & Hv & Es & Hs)].
    + destruct (branch_vals_from _ _ _ _ _ _ _ _ _ Ev g Hin)
        as [H0 | (v & s & r & Hv & Es & Hs)]; [left; exact H0|].
      right. exists idx, v, s, r. split; [left; reflexivity|].
      split; [exact Hv|]. split; [exact Es | exact Hs].
    + right. exists i, v, s, r. split; [right; exact Hi|].
      split; [exact Hv|]. split; [exact Es | exact Hs].
Qed.

Lemma fills_refl : forall n0 a, fills n0 a a.
Proof. intros n0 a x y _ _. left. reflexivity. Qed.

Lemma fills_trans : forall n0 a b c,
  fills n0 a b -> fills n0 b c -> fills n0 a c.
Proof.
  intros n0 a b c Hab Hbc x y Hx Hy.
  destruct (Hab x y Hx Hy) as [E1|[E1 R1]];
    destruct (Hbc x y Hx Hy) as [E2|[E2 R2]].
  - left. congruence.
  - right. split; [congruence | exact R2].
  - right. split; [exact E1 | rewrite E2; exact R1].
  - exfalso. rewrite E2 in R1. lia.
Qed.

Lemma fills_set_cell : forall n0 a b x y v,
  fills n0 a b -> get a x y = 0%Z -> (1 <= v <= Z.of_nat n0)%Z ->
  square_shape n0 b -> x < n0 -> y < n0 ->
  fills n0 a (set_cell b x y v).
Proof.
  intros n0 a b x y v Hab Hz Hv Hsq Hx Hy x' y' Hx' Hy'.
  destruct (Nat.eq_dec x' x) as [Ex|Ex];
    [destruct (Nat.eq_dec y' y) as [Ey|Ey]|].
  - subst x' y'. right. split; [exact Hz|].
    rewrite get_set_cell_same; [exact Hv| |].
    + destruct Hsq as [Hl _]. rewrite Hl. exact Hx.
    + rewrite (proj2 (proj1 (square_shape_rows _ _) Hsq) x Hx). exact Hy.
  - rewrite get_set_cell_other by (intros H; inversion H; auto).
    apply Hab; assumption.
  - rewrite get_set_cell_other by (intros H; inversion H; auto).
    apply Hab; assumption.
Qed.

Lemma fills_agrees : forall n0 a b,
  square_shape n0 a -> fills n0 a b -> agrees a b.
Proof.
  intros n0 a b Hsq Hf x y Hne.
  destruct (Nat.lt_ge_cases x n0) as [Hx|Hx].
  2:{ exfalso. apply Hne. unfold get. rewrite (nth_overflow a).
      - apply nth_nil.
      - destruct Hsq as [Hl _]. rewrite Hl. exact Hx. }
  destruct (Nat.lt_ge_cases y n0) as [Hy|Hy].
  2:{ exfalso. apply Hne. unfold get. apply nth_overflow.
      rewrite (proj2 (proj1 (square_shape_rows _ _) Hsq) x Hx). exact Hy. }
  destruct (Hf x y Hx Hy) as [E|[E _]]; [exact E | contradiction].
Qed.

Lemma fill_singles_fills : forall n0 k a,
  grid_ok n0 k a ->
  let avail := map (avail_at a n0 k) (nonzero_eq0 a) in
  fills n0 a
        (fill_singles a avail (map fst (nonzero_eq0 a))
           (map snd (nonzero_eq0 a))
           (indices_where (fun n => n =? 1) (map (@length Z) avail))).
Proof.
  intros n0 k a Hok avail.
  apply (fill_singles_ind (fun b => grid_ok n0 k b /\ fills n0 a b)).
  - split; [exact Hok | apply fills_refl].
  - intros b idx Hidx [Hb Hab].
    destruct (single_write n0 k a idx Hok Hidx)
      as (x & y & v & Ex & Ey & Ev & Hx & Hy & Hz & _ & Hv1 & Hv2).
    fold avail in Ev. rewrite Ex, Ey, Ev. split.
    + apply grid_ok_set_cell; [exact Hb | exact Hx | exact Hy | exact Hv2].
    + destruct Hb as (Hsq & _).
      apply fills_set_cell; try assumption. split; assumption.
Qed.

(** Every grid of the solution list is the input with its empty cells
    filled. *)
Lemma solve_loop_filled : forall n0 k fuel a n0_zeros sols r,
  grid_ok n0 k a ->
  solve_loop fuel n0_zeros a (count_zeros a) = Some (Ok (Some sols, r)) ->
  forall g, In g sols ->
    grid_ok n0 k g /\ count_zeros g = 0 /\ fills n0 a g.
Proof.
  intros n0 k fuel; induction fuel as [|fuel IH];
    intros a n0_zeros sols r Hok E g Hg; [discriminate|].
  rewrite solve_loop_S in E.
  destruct (Nat.ltb_spec 0 (count_zeros a)) as [Hz|Hz].
  2:{ inversion E; subst sols. destruct Hg as [<-|[]].
      split; [exact Hok|]. split; [lia | apply fills_refl]. }
  rewrite (available_digits_all n0 k a Hok) in E. cbv zeta in E.
  destruct (py_min (map (@length Z) (map (avail_at a n0 k) (nonzero_eq0 a))))
    as [mn|e] eqn:Hmn; [|discriminate].
  destruct (mn =? 0); [discriminate|].
  destruct (Nat.eqb_spec mn 1) as [->|Hne].
  - destruct (fill_singles_progress n0 k a Hok Hmn) as [Hok' _].
    destruct (IH _ _ _ _ Hok' E g Hg) as (Hg1 & Hg2 & Hg3).
    split; [exact Hg1|]. split; [exact Hg2|].
    apply (fills_trans n0 a _ g (fill_singles_fills n0 k a Hok) Hg3).
  - destruct (branch_cells _ a _ _ _ _ [] _) as [[[sols1 recs1]|e]|] eqn:Eb;
      try discriminate.
    inversion E; subst sols1 r.
    destruct (branch_cells_from _ _ _ _ _ _ _ _ _ _ Eb g Hg)
      as [[] | (idx & val & s & r' & Hidx & Hval & Es & Hs)].
    destruct (index_of_where n0 k a _ idx Hok Hidx)
      as (x & y & Ex & Ey & Ea & Hx & Hy & Hz' & _).
    rewrite Ex, Ey in Es. rewrite Ea in Hval.
    pose proof (avail_at_range _ _ _ _ _ Hval) as Hv.
    assert (Hok' : grid_ok n0 k (set_cell a x y val))
      by (apply grid_ok_set_cell; auto; lia).
    destruct (IH _ _ _ _ Hok' Es g Hs) as (Hg1 & Hg2 & Hg3).
    split; [exact Hg1|]. split; [exact Hg2|].
    apply (fills_trans n0 a (set_cell a x y val) g); [|exact Hg3].
    destruct Hok as (Hsq & _).
    apply fills_set_cell; try assumption. apply fills_refl.
Qed.

End SolverResults.

(** X1.  The solver returns on every accepted array (a square array of
    side [N = k * k], [k >= 1], with no entry above [N]): it raises
    nothing, and its loop and its recursion end, a fuel above the number
    of empty cells being enough since every turn of the loop and every
    recursive call fills at least one cell. *)
Theorem solve_sudoku_returns :
  forall (n0 k fuel : nat) (a : grid),
    grid_ok n0 k a -> (count_zeros a < fuel)%nat ->
    exists s r, solve_sudoku fuel a = Some (Ok (s, r)).
Proof.
  intros n0 k fuel a Hok Hf. unfold solve_sudoku.
  apply (solve_loop_terminates n0 k fuel a (count_zeros a) Hok Hf).
Qed.

Lemma grid_ok_g_clash : grid_ok 4 2 g_clash.
Proof.
  split; [split; [reflexivity | repeat constructor]|].
  split; [reflexivity|]. split; [lia|].
  intros x y Hx Hy.
  do 4 (destruct x as [|x];
        [do 4 (destruct y as [|y]; [apply Z.leb_le; reflexivity|]); lia|]).
  lia.
Qed.

Lemma solve_sudoku_returns_witness :
  grid_ok 4 2 g_clash /\ (count_zeros g_clash < 5)%nat
  /\ exists s r, solve_sudoku 5 g_clash = Some (Ok (s, r)).
Proof.
  split; [exact grid_ok_g_clash|]. split; [vm_compute; lia|].
  apply (solve_sudoku_returns 4 2 5 g_clash grid_ok_g_clash).
  vm_compute. lia.
Defined.

(** X2.  On an accepted array the solver returns, and every grid of its
    solution list is the input with its empty cells filled: it has the
    side of the input, no empty cell, the value of the input in every cell
    that was filled, and a value of [1..N] in every cell that was empty.
    (No more than this holds: the rows, columns and boxes of such a grid
    may repeat a value.) *)
Theorem solve_sudoku_fills_input :
  forall (n0 k fuel : nat) (a : grid),
    grid_ok n0 k a -> (count_zeros a < fuel)%nat ->
    exists s r,
      solve_sudoku fuel a = Some (Ok (s, r))
      /\ forall sols g, s = Some sols -> In g sols ->
           square_shape n0 g /\ count_zeros g = 0%nat
           /\ agrees a g /\ fills n0 a g.
Proof.
  intros n0 k fuel a Hok Hf. unfold solve_sudoku.
  destruct (solve_loop_terminates n0 k fuel a (count_zeros a) Hok Hf)
    as (s & r & E).
  exists s, r. split; [exact E|]. intros sols g -> Hg.
  destruct (solve_loop_filled n0 k fuel a _ sols r Hok E g Hg)
    as (Hg1 & Hg2 & Hg3).
  split; [destruct Hg1 as (H & _); exact H|]. split; [exact Hg2|].
  split; [|exact Hg3].
  destruct Hok as (Hsq & _). apply (fills_agrees n0 a g Hsq Hg3).
Qed.

Lemma solve_sudoku_fills_input_witness :
  grid_ok 4 2 g_clash /\ (count_zeros g_clash < 5)%nat
  /\ exists s r,
       solve_sudoku 5 g_clash = Some (Ok (s, r))
       /\ forall sols g, s = Some sols -> In g sols ->
            square_shape 4 g /\ count_zeros g = 0%nat
            /\ agrees g_clash g /\ fills 4 g_clash g.
Proof.
  split; [exact grid_ok_g_clash|]. split; [vm_compute; lia|].
  apply (solve_sudoku_fills_input 4 2 5 g_clash grid_ok_g_clash).
  vm_compute. lia.
Defined.

(** * Further properties of the carver *)

Section CarveUnique.
Local Open Scope nat_scope.
Variables (k : nat) (G : grid).
Hypothesis Hk : 0 < k.
Hypothesis Hlen : shape0 G = k * k.
Hypothesis HG : complete_valid G.

Lemma only_G_start : only_completion (k * k) k G G.
Proof.
  split; [apply (complete_grid_ok k G Hk Hlen HG)|].
  split; [intros x y _; reflexivity|].
  intros S HS HlenS Hag.
  assert (HsqS : square_shape (k * k) S)
    by (rewrite <- HlenS; apply complete_valid_shape; exact HS).
  apply (grid_ext (k * k) S G HsqS (complete_square k G Hlen HG)).
  intros x y Hx Hy. apply Hag.
  destruct (complete_cells k G Hlen HG) as [Hrange _].
  pose proof (Hrange x y Hx Hy). lia.
Qed.

Lemma only_G_clear : forall a i,
  only_completion (k * k) k G a -> i < k * k * (k * k) -> tried_single (k * k) k a i = true ->
  only_completion (k * k) k G (set_cell a (i / (k * k)) (i mod (k * k)) 0).
Proof.
  intros a i (Hok & Hag & Huniq) Hi Hsingle.
  destruct (index_split (k * k) i Hi) as (Hx & Hy & _).
  set (x := i / (k * k)) in *. set (y := i mod (k * k)) in *.
  assert (Hsq : square_shape (k * k) a) by (destruct Hok as (H & _); exact H).
  assert (Hok' : grid_ok (k * k) k (set_cell a x y 0))
    by (apply grid_ok_set_cell; [exact Hok | exact Hx | exact Hy | lia]).
  assert (Hzero : get (set_cell a x y 0) x y = 0%Z).
  { apply get_set_cell_same.
    - destruct Hsq as [Hl _]. rewrite Hl. exact Hx.
    - rewrite (proj2 (proj1 (square_shape_rows _ _) Hsq) x Hx). exact Hy. }
  assert (Hother : forall x' y', (x, y) <> (x', y') ->
            get (set_cell a x y 0) x' y' = get a x' y')
    by (intros x' y' Hne; apply get_set_cell_other; exact Hne).
  assert (Hag' : forall S, agrees a S -> agrees (set_cell a x y 0) S).
  { intros S HS x' y' Hne.
    destruct (Nat.eq_dec x' x) as [Ex|Ex];
      [destruct (Nat.eq_dec y' y) as [Ey|Ey]|].
    - subst x' y'. contradiction.
    - rewrite Hother in * by (intros H; inversion H; auto). apply HS, Hne.
    - rewrite Hother in * by (intros H; inversion H; auto). apply HS, Hne. }
  split; [exact Hok'|]. split; [apply Hag'; exact Hag|].
  intros S HS HlenS HagS. apply (Huniq S HS HlenS).
  intros x' y' Hne.
  destruct (Nat.eq_dec x' x) as [Ex|Ex];
    [destruct (Nat.eq_dec y' y) as [Ey|Ey]|].
  - subst x' y'.
    pose proof (completion_candidate (k * k) k _ S x y Hok' HS HlenS HagS
                                     Hx Hy Hzero) as HinS.
    pose proof (completion_candidate (k * k) k _ G x y Hok' HG Hlen
                                     (Hag' G Hag) Hx Hy Hzero) as HinG.
    unfold tried_single in Hsingle. fold x y in Hsingle.
    apply Nat.eqb_eq in Hsingle.
    rewrite (single_value _ Hsingle) in HinS, HinG.
    destruct HinS as [ES|[]]. destruct HinG as [EG|[]].
    rewrite <- ES, EG. apply Hag, Hne.
  - rewrite <- (Hother x' y') in * by (intros H; inversion H; auto).
    apply HagS, Hne.
  - rewrite <- (Hother x' y') in * by (intros H; inversion H; auto).
    apply HagS, Hne.
Qed.

Lemma carve_keeps_unique : forall idx a n,
  only_completion (k * k) k G a -> (forall i, In i idx -> i < k * k * (k * k)) ->
  exists P,
    carve_loop (mesh_x (k * k)) (mesh_y (k * k)) idx a n = Ok P /\ only_completion (k * k) k G P.
Proof.
  induction idx as [|i rest IH]; intros a n Ha Hidx.
  - exists a. split; [reflexivity | exact Ha].
  - assert (Hi : i < k * k * (k * k)) by (apply Hidx; left; reflexivity).
    assert (Hrest : forall j, In j rest -> j < k * k * (k * k))
      by (intros j Hj; apply Hidx; right; exact Hj).
    rewrite (carve_step_eq (k * k) k a i rest n (proj1 Ha) Hi).
    destruct (tried_single (k * k) k a i) eqn:Es.
    + pose proof (only_G_clear a i Ha Hi Es) as Ha'.
      destruct (n - 1 =? 0)%Z.
      * eexists. split; [reflexivity | exact Ha'].
      * apply IH; assumption.
    + apply IH; assumption.
Qed.

End CarveUnique.

Section CarveCap.
Local Open Scope nat_scope.

Lemma cells_agree : forall n0 P Q,
  square_shape n0 P ->
  (forall j, j < n0 * n0 -> cellv n0 P j = cellv n0 Q j \/ cellv n0 P j = 0%Z) ->
  agrees P Q.
Proof.
  intros n0 P Q HsqP H x y Hne.
  destruct (Nat.lt_ge_cases x n0) as [Hx|Hx].
  2:{ exfalso. apply Hne. unfold get. rewrite (nth_overflow P).
      - apply nth_nil.
      - destruct HsqP as [Hl _]. rewrite Hl. exact Hx. }
  destruct (Nat.lt_ge_cases y n0) as [Hy|Hy].
  2:{ exfalso. apply Hne. unfold get. apply nth_overflow.
      rewrite (proj2 (proj1 (square_shape_rows _ _) HsqP) x Hx). exact Hy. }
  destruct (index_of_cell n0 x y Hx Hy) as (Hj & Ex & Ey).
  destruct (H _ Hj) as [E|E]; unfold cellv in E; rewrite Ex, Ey in E.
  - symmetry. exact E.
  - contradiction.
Qed.

(** The run with a positive cap stops on a working grid of the run to
    exhaustion. *)
Lemma carve_cap_sub : forall n0 k idx a n,
  grid_ok n0 k a -> (forall i, In i idx -> i < n0 * n0) -> (1 <= n)%Z ->
  exists P Pmax,
    carve_loop (mesh_x n0) (mesh_y n0) idx a n = Ok P
    /\ carve_loop (mesh_x n0) (mesh_y n0) idx a (-1) = Ok Pmax
    /\ grid_ok n0 k P /\ grid_ok n0 k Pmax
    /\ forall j, j < n0 * n0 ->
         cellv n0 Pmax j = cellv n0 P j \/ cellv n0 Pmax j = 0%Z.
Proof.
  intros n0 k idx. induction idx as [|i rest IH]; intros a n Hok Hidx Hn.
  - exists a, a. cbn [carve_loop]. split; [reflexivity|].
    split; [reflexivity|]. split; [exact Hok|]. split; [exact Hok|].
    intros j _. left. reflexivity.
  - assert (Hi : i < n0 * n0) by (apply Hidx; left; reflexivity).
    assert (Hrest : forall j, In j rest -> j < n0 * n0)
      by (intros j Hj; apply Hidx; right; exact Hj).
    destruct (index_split n0 i Hi) as (Hx & Hy & _).
    assert (Hok' : grid_ok n0 k (set_cell a (i / n0) (i mod n0) 0))
      by (apply grid_ok_set_cell; [exact Hok | exact Hx | exact Hy | lia]).
    rewrite (carve_step_eq n0 k a i rest n Hok Hi).
    rewrite (carve_step_eq n0 k a i rest (-1) Hok Hi).
    destruct (tried_single n0 k a i).
    + change (-1 - 1 =? 0)%Z with false. cbv iota.
      rewrite (carve_neg_irrel _ _ rest _ (-1 - 1) (-1)) by lia.
      destruct (Z.eqb_spec (n - 1) 0) as [Hz|Hz].
      * destruct (carve_total n0 k rest _ (-1) Hok' Hrest)
          as (Pmax & Emax & HPmax & Hsub & _).
        exists (set_cell a (i / n0) (i mod n0) 0), Pmax.
        split; [reflexivity|]. split; [exact Emax|].
        split; [exact Hok'|]. split; [exact HPmax | exact Hsub].
      * apply (IH _ (n - 1)%Z Hok' Hrest). lia.
    + apply (IH a n Hok Hrest Hn).
Qed.

End CarveCap.

Section CarvedPuzzle.
Variables (rng seedT : Type) (seed_state : seedT -> rng).
Variable shuffle : forall A : Type, rng -> list A -> list A * rng.
Hypothesis shuffle_ok : shuffle_permutes rng shuffle.
Variables (k : nat) (G : grid).
Hypothesis Hk : (0 < k)%nat.
Hypothesis Hlen : shape0 G = (k * k)%nat.
Hypothesis HG : complete_valid G.

Lemma gen_sudoku_puzzle_eq : forall ratio c seed,
  nmax_idx_of ratio (k * k) = Ok c ->
  gen_sudoku_puzzle rng seedT seed_state shuffle G ratio seed
  = carve_loop (mesh_x (k * k)) (mesh_y (k * k))
               (fst (shuffle nat (seed_state seed) (seq 0 ((k * k) ^ 2))))
               G c.
Proof.
  intros ratio c seed Hc.
  assert (Hn : (0 < k * k)%nat) by nia.
  destruct (check_full_rows (k * k) G (complete_square k G Hlen HG) Hn)
    as [Hpass _].
  unfold gen_sudoku_puzzle.
  rewrite (Hpass (complete_rows k G Hlen HG)), Hlen, Hc. reflexivity.
Qed.

Lemma shuffled_in_range : forall seed i,
  In i (fst (shuffle nat (seed_state seed) (seq 0 ((k * k) ^ 2)))) ->
  (i < k * k * (k * k))%nat.
Proof.
  intros seed i Hi.
  destruct (shuffled_cells rng shuffle (seed_state seed) ((k * k) ^ 2)
                           shuffle_ok) as [_ Hidx].
  apply Hidx in Hi. rewrite Nat.pow_2_r in Hi. exact Hi.
Qed.

Lemma carved_only_completion : forall ratio c seed,
  nmax_idx_of ratio (k * k) = Ok c ->
  exists P,
    gen_sudoku_puzzle rng seedT seed_state shuffle G ratio seed = Ok P
    /\ only_completion (k * k) k G P.
Proof.
  intros ratio c seed Hc. rewrite (gen_sudoku_puzzle_eq ratio c seed Hc).
  apply (carve_keeps_unique k G Hk Hlen HG).
  - apply (only_G_start k G Hk Hlen HG).
  - apply shuffled_in_range.
Qed.

Lemma carved_completion : forall ratio c seed,
  nmax_idx_of ratio (k * k) = Ok c ->
  exists P,
    gen_sudoku_puzzle rng seedT seed_state shuffle G ratio seed = Ok P
    /\ square_shape (k * k) P /\ agrees P G
    /\ forall S, completion_of P S <-> S = G.
Proof.
  intros ratio c seed Hc.
  destruct (carved_only_completion ratio c seed Hc)
    as (P & E & (HsqP & _) & Hag & Huniq).
  exists P. split; [exact E|]. split; [exact HsqP|]. split; [exact Hag|].
  assert (HlenP : shape0 P = (k * k)%nat) by (destruct HsqP as [H _]; exact H).
  intros S. split.
  - intros (HlenS & HS & HagS). apply (Huniq S HS); [congruence | exact HagS].
  - intros ->. split; [congruence|]. split; [exact HG | exact Hag].
Qed.

Lemma nmax_idx_of_inv : forall r n0 c,
  nmax_idx_of (Some r) n0 = Ok c ->
  exists s x,
    fl (inject_Z (Z.of_nat n0 ^ 2)) = Some s /\ fl (r * s) = Some x
    /\ c = Z.max 1 (py_int x).
Proof.
  intros r n0 c. unfold nmax_idx_of.
  destruct (fl (inject_Z (Z.of_nat n0 ^ 2))) as [s|]; [|discriminate].
  destruct (fl (r * s)) as [x|] eqn:Ex; [|discriminate].
  intros H. injection H as <-. exists s, x.
  split; [reflexivity|]. split; [exact Ex | reflexivity].
Qed.

Lemma carved_capped : forall (r : Q) (cap : Z) seed,
  nmax_idx_of (Some r) (k * k) = Ok cap ->
  exists Pmax P,
    gen_sudoku_puzzle rng seedT seed_state shuffle G None seed = Ok Pmax
    /\ gen_sudoku_puzzle rng seedT seed_state shuffle G (Some r) seed = Ok P
    /\ count_zeros P = Nat.min (Z.to_nat cap) (count_zeros Pmax)
    /\ (1 <= count_zeros P)%nat
    /\ agrees Pmax P.
Proof.
  intros r cap seed Hc.
  rewrite (gen_sudoku_puzzle_eq None (-1) seed eq_refl).
  rewrite (gen_sudoku_puzzle_eq (Some r) cap seed Hc).
  set (idx := fst (shuffle nat (seed_state seed) (seq 0 ((k * k) ^ 2)))).
  pose proof (nmax_idx_of_positive r (k * k) cap Hc) as Hcap.
  destruct (shuffled_cells rng shuffle (seed_state seed) ((k * k) ^ 2)
                           shuffle_ok) as [Hnd Hall].
  fold idx in Hnd, Hall.
  pose proof (complete_grid_ok k G Hk Hlen HG) as Hok.
  destruct (complete_cells k G Hlen HG) as [Hrange _].
  destruct (carve_cap_count (k * k) k idx G cap Hok Hnd)
    as (P & Pmax & E & Emax & _ & Hcount); [|exact Hcap|].
  { intros i Hi. pose proof (shuffled_in_range seed i Hi) as Hlt.
    split; [exact Hlt|].
    destruct (index_split (k * k) i Hlt) as (Hx & Hy & _).
    unfold cellv. pose proof (Hrange _ _ Hx Hy). lia. }
  destruct (carve_cap_sub (k * k) k idx G cap Hok (shuffled_in_range seed)
                          Hcap)
    as (P' & Pmax' & E' & Emax' & _ & HPmax & Hsub).
  rewrite E in E'. inversion E'; subst P'.
  rewrite Emax in Emax'. inversion Emax'; subst Pmax'.
  destruct (carve_exhaust k G Hk Hlen HG idx (-1) ltac:(lia) Hnd
                          (shuffled_in_range seed))
    as (Pm & Em & _ & _ & Hone & _).
  rewrite Emax in Em. inversion Em; subst Pm.
  assert (Hne : idx <> []).
  { intros Hnil.
    assert (H0 : In 0%nat idx) by (apply Hall; rewrite Nat.pow_2_r; nia).
    rewrite Hnil in H0. exact H0. }
  specialize (Hone Hne).
  exists Pmax, P. split; [exact Emax|]. split; [exact E|].
  rewrite (complete_no_zeros k Hk G Hlen HG) in Hcount.
  rewrite Nat.sub_0_r, Nat.add_0_l in Hcount.
  split; [exact Hcount|].
  split; [rewrite Hcount; lia|].
  apply (cells_agree (k * k) Pmax P); [|exact Hsub].
  destruct HPmax as (H & _). exact H.
Qed.

End CarvedPuzzle.

(** X3.  A puzzle carved from a complete valid grid [G], without a ratio
    or with a ratio whose cap can be computed (the product of the ratio
    and [N^2] is a finite float), is returned and has [G] as its one and
    only completion: a cell is cleared only when the cells still filled
    leave it a single candidate. *)
Theorem gen_sudoku_puzzle_unique_completion :
  forall (rng seedT : Type) (seed_state : seedT -> rng)
         (shuffle : forall A : Type, rng -> list A -> list A * rng),
    shuffle_permutes rng shuffle ->
    forall (k : nat) (G : grid) (ratio : option Q) (c : Z) (seed : seedT),
      (0 < k)%nat -> shape0 G = (k * k)%nat -> complete_valid G ->
      nmax_idx_of ratio (k * k) = Ok c ->
      exists P,
        gen_sudoku_puzzle rng seedT seed_state shuffle G ratio seed = Ok P
        /\ forall S, completion_of P S <-> S = G.
Proof.
  intros rng seedT seed_state shuffle Hsh k G ratio c seed Hk Hlen HG Hc.
  destruct (carved_completion rng seedT seed_state shuffle Hsh k G
                              Hk Hlen HG ratio c seed Hc)
    as (P & E & _ & _ & H).
  exists P. split; [exact E | exact H].
Qed.

Lemma gen_sudoku_puzzle_unique_completion_witness :
  shuffle_permutes unit id_shuffle /\ (0 < 2)%nat
  /\ shape0 g_two_a = (2 * 2)%nat /\ complete_valid g_two_a
  /\ nmax_idx_of (Some (3 # 8)) (2 * 2) = Ok 6
  /\ exists P,
       gen_sudoku_puzzle unit unit unit_seed id_shuffle g_two_a
                         (Some (3 # 8)) tt = Ok P
       /\ forall S, completion_of P S <-> S = g_two_a.
Proof.
  split; [exact id_shuffle_permutes|]. split; [lia|].
  split; [reflexivity|]. split; [exact g_two_a_valid|].
  split; [vm_compute; reflexivity|].
  apply (gen_sudoku_puzzle_unique_completion unit unit unit_seed id_shuffle
           id_shuffle_permutes 2 g_two_a (Some (3 # 8)) 6 tt ltac:(lia)
           eq_refl g_two_a_valid).
  vm_compute. reflexivity.
Defined.

(** X4.  The solver recovers the grid a puzzle was carved from: for a
    puzzle carved from a complete valid grid [G], without a ratio or with
    a ratio whose cap can be computed, the solver returns a solution list
    in which [G] occurs. *)
Theorem solve_sudoku_recovers_carved :
  forall (rng seedT : Type) (seed_state : seedT -> rng)
         (shuffle : forall A : Type, rng -> list A -> list A * rng),
    shuffle_permutes rng shuffle ->
    forall (k : nat) (G : grid) (ratio : option Q) (c : Z) (seed : seedT),
      (0 < k)%nat -> shape0 G = (k * k)%nat -> complete_valid G ->
      nmax_idx_of ratio (k * k) = Ok c ->
      exists P,
        gen_sudoku_puzzle rng seedT seed_state shuffle G ratio seed = Ok P
        /\ forall fuel, (count_zeros P < fuel)%nat ->
             exists sols r,
               solve_sudoku fuel P = Some (Ok (Some sols, r)) /\ In G sols.
Proof.
  intros rng seedT seed_state shuffle Hsh k G ratio c seed Hk Hlen HG Hc.
  destruct (carved_only_completion rng seedT seed_state shuffle Hsh k G
                                   Hk Hlen HG ratio c seed Hc)
    as (P & E & (HsqP & _) & Hag & _).
  exists P. split; [exact E|]. intros fuel Hf.
  assert (HlenP : shape0 P = (k * k)%nat) by (destruct HsqP as [H _]; exact H).
  apply solve_sudoku_finds; [rewrite HlenP; exact HsqP | | exact Hf].
  split; [congruence|]. split; [exact HG | exact Hag].
Qed.

Lemma solve_sudoku_recovers_carved_witness :
  shuffle_permutes unit id_shuffle /\ (0 < 2)%nat
  /\ shape0 g_two_a = (2 * 2)%nat /\ complete_valid g_two_a
  /\ nmax_idx_of None (2 * 2) = Ok (-1)
  /\ exists P,
       gen_sudoku_puzzle unit unit unit_seed id_shuffle g_two_a None tt = Ok P
       /\ forall fuel, (count_zeros P < fuel)%nat ->
            exists sols r,
              solve_sudoku fuel P = Some (Ok (Some sols, r))
              /\ In g_two_a sols.
Proof.
  split; [exact id_shuffle_permutes|]. split; [lia|].
  split; [reflexivity|]. split; [exact g_two_a_valid|].
  split; [reflexivity|].
  apply (solve_sudoku_recovers_carved unit unit unit_seed id_shuffle
           id_shuffle_permutes 2 g_two_a None (-1) tt ltac:(lia) eq_refl
           g_two_a_valid eq_refl).
Defined.

(** X5.  The cap of the carver: with a ratio [r] whose cap can be
    computed, the cap is [max(1, int(x))], at least 1, where [x] is the
    float product of [r] and [N^2]; the puzzle carved from a complete
    valid grid has [min(cap, E)] empty cells, where [E] is the number of
    empty cells of the run to exhaustion seeded alike; so at least one
    cell is cleared whatever the ratio, zero and negative ratios
    included; and every cell kept by the run to exhaustion is kept,
    unchanged. *)
Theorem gen_sudoku_puzzle_cap :
  forall (rng seedT : Type) (seed_state : seedT -> rng)
         (shuffle : forall A : Type, rng -> list A -> list A * rng),
    shuffle_permutes rng shuffle ->
    forall (k : nat) (G : grid) (r : Q) (cap : Z) (seed : seedT),
      (0 < k)%nat -> shape0 G = (k * k)%nat -> complete_valid G ->
      nmax_idx_of (Some r) (k * k) = Ok cap ->
      (exists s x,
         fl (inject_Z (Z.of_nat (k * k) ^ 2)) = Some s
         /\ fl (r * s) = Some x /\ cap = Z.max 1 (py_int x))
      /\ exists Pmax P,
           gen_sudoku_puzzle rng seedT seed_state shuffle G None seed
           = Ok Pmax
           /\ gen_sudoku_puzzle rng seedT seed_state shuffle G (Some r) seed
              = Ok P
           /\ count_zeros P = Nat.min (Z.to_nat cap) (count_zeros Pmax)
           /\ (1 <= count_zeros P)%nat
           /\ agrees Pmax P.
Proof.
  intros rng seedT seed_state shuffle Hsh k G r cap seed Hk Hlen HG Hc.
  split; [apply nmax_idx_of_inv; exact Hc|].
  apply (carved_capped rng seedT seed_state shuffle Hsh k G Hk Hlen HG
                       r cap seed Hc).
Qed.

Lemma gen_sudoku_puzzle_cap_witness :
  shuffle_permutes unit id_shuffle /\ (0 < 2)%nat
  /\ shape0 g_two_a = (2 * 2)%nat /\ complete_valid g_two_a
  /\ nmax_idx_of (Some (1 # 4)) (2 * 2) = Ok 4
  /\ exists Pmax P,
       gen_sudoku_puzzle unit unit unit_seed id_shuffle g_two_a None tt
       = Ok Pmax
       /\ gen_sudoku_puzzle unit unit unit_seed id_shuffle g_two_a
            (Some (1 # 4)) tt = Ok P
       /\ count_zeros P = Nat.min (Z.to_nat 4) (count_zeros Pmax)
       /\ (1 <= count_zeros P)%nat
       /\ agrees Pmax P.
Proof.
  split; [exact id_shuffle_permutes|]. split; [lia|].
  split; [reflexivity|]. split; [exact g_two_a_valid|].
  split; [vm_compute; reflexivity|].
  apply (gen_sudoku_puzzle_cap unit unit unit_seed id_shuffle
           id_shuffle_permutes 2 g_two_a (1 # 4) 4 tt ltac:(lia) eq_refl
           g_two_a_valid).
  vm_compute. reflexivity.
Defined.

(** * Further properties of the assembler *)

(** X6.  For every side [N = k * k] of 53 bits or fewer, every seed (none
    included) and every difficulty of magnitude [2 ^ 900] or less (a
    difficulty outside [0, 1] included), the assembler returns a puzzle and
    its solution: the solution is a complete valid grid of side [N], the
    puzzle has the same side, at least one empty cell, the value of the
    solution in every filled cell, and the solution as its one and only
    completion. *)
Theorem gen_customized_puzzle_sound :
  forall (rng seedT : Type) (seed_state : seedT -> rng)
         (shuffle : forall A : Type, rng -> list A -> list A * rng),
    shuffle_permutes rng shuffle ->
    forall (entropy : nat -> seedT) (k : nat) (random_seed : option seedT)
           (d : Q),
      (0 < k)%nat -> Z.of_nat (k * k) < 2 ^ 53 ->
      (Qabs d <= inject_Z (2 ^ 900))%Q ->
      exists fuel0, forall fuel, (fuel0 <= fuel)%nat ->
        exists c_puzzle c_solution,
          gen_customized_puzzle rng seedT seed_state shuffle entropy fuel
                                (Z.of_nat (k * k)) random_seed d
          = Some (Ok (c_puzzle, c_solution))
          /\ square_shape (k * k) c_solution /\ complete_valid c_solution
          /\ square_shape (k * k) c_puzzle
          /\ agrees c_puzzle c_solution
          /\ (1 <= count_zeros c_puzzle)%nat
          /\ forall S, completion_of c_puzzle S <-> S = c_solution.
Proof.
  intros rng seedT seed_state shuffle Hsh entropy k random_seed d
         Hk Hsize Hd.
  destruct (gen_customized_puzzle_total rng seedT seed_state shuffle Hsh
              entropy k Hk random_seed d Hsize Hd) as [fuel0 H].
  exists fuel0. intros fuel Hfuel.
  destruct (H fuel Hfuel)
    as (sol & pmax & ratio & target & size2 & x & P & pmax2
        & _ & Hsq & HG & _ & _ & _ & _ & _ & _ & Ecap & EP & Eall & Epm2
        & Hcount).
  assert (Hlen : shape0 sol = (k * k)%nat) by (destruct Hsq as [H' _]; exact H').
  destruct (carved_completion rng seedT seed_state shuffle Hsh k sol
              Hk Hlen HG (Some target) _
              (seed_of_call seedT entropy random_seed 2) Ecap)
    as (P' & EP' & HsqP & Hag & Huniq).
  rewrite EP in EP'. inversion EP'; subst P'.
  destruct (carve_none_on_solution rng seedT seed_state shuffle Hsh k Hk sol
              (seed_of_call seedT entropy random_seed 2) Hlen HG)
    as (pmax2' & Epm2' & _ & Hone).
  rewrite Epm2 in Epm2'. inversion Epm2'; subst pmax2'.
  exists P, sol. split; [exact Eall|].
  split; [exact Hsq|]. split; [exact HG|]. split; [exact HsqP|].
  split; [exact Hag|]. split; [lia | exact Huniq].
Qed.

Lemma gen_customized_puzzle_sound_witness :
  shuffle_permutes unit id_shuffle /\ (0 < 2)%nat
  /\ Z.of_nat (2 * 2) < 2 ^ 53 /\ (Qabs (1 # 2) <= inject_Z (2 ^ 900))%Q
  /\ exists fuel0, forall fuel, (fuel0 <= fuel)%nat ->
       exists c_puzzle c_solution,
         gen_customized_puzzle unit unit unit_seed id_shuffle (fun _ => tt)
                               fuel (Z.of_nat (2 * 2)) None (1 # 2)
         = Some (Ok (c_puzzle, c_solution))
         /\ square_shape (2 * 2) c_solution /\ complete_valid c_solution
         /\ square_shape (2 * 2) c_puzzle
         /\ agrees c_puzzle c_solution
         /\ (1 <= count_zeros c_puzzle)%nat
         /\ forall S, completion_of c_puzzle S <-> S = c_solution.
Proof.
  assert (Hd : (Qabs (1 # 2) <= inject_Z (2 ^ 900))%Q)
    by (vm_compute; discriminate).
  split; [exact id_shuffle_permutes|]. split; [lia|].
  split; [reflexivity|]. split; [exact Hd|].
  apply (gen_customized_puzzle_sound unit unit unit_seed id_shuffle
           id_shuffle_permutes (fun _ => tt) 2 None (1 # 2)).
  - lia.
  - reflexivity.
  - exact Hd.
Defined.

(** X7.  The errors of the assembler, by the size asked for: an error of
    the size check of the generator is passed on, so a negative size above
    [- 2 ^ 1023] fails with the [TypeError] of [int] on a complex square
    root, and a positive size below [2 ^ 1023] that is not a perfect
    square fails with the size error of the generator; the size 0 passes
    the generator, which returns an array without cells, and fails in the
    carver with numpy's error on the maximum of an empty array (the
    division by [array_size ** 2] is never reached). *)
Theorem gen_customized_puzzle_size_errors :
  forall (rng seedT : Type) (seed_state : seedT -> rng)
         (shuffle : forall A : Type, rng -> list A -> list A * rng)
         (entropy : nat -> seedT)
         (fuel : nat) (array_size : Z) (random_seed : option seedT) (d : Q),
    (forall e, size_root array_size = Raise e ->
     gen_customized_puzzle rng seedT seed_state shuffle entropy fuel
                           array_size random_seed d = Some (Raise e))
    /\ (- 2 ^ 1023 < array_size < 0 ->
        gen_customized_puzzle rng seedT seed_state shuffle entropy fuel
                              array_size random_seed d
        = Some (Raise TypeError))
    /\ (0 < array_size < 2 ^ 1023 -> (forall k, array_size <> k * k) ->
        gen_customized_puzzle rng seedT seed_state shuffle entropy fuel
                              array_size random_seed d
        = Some (Raise InvalidSize))
    /\ (array_size = 0 ->
        gen_customized_puzzle rng seedT seed_state shuffle entropy (S fuel)
                              array_size random_seed d
        = Some (Raise ZeroSizeReduction)).
Proof.
  intros rng seedT seed_state shuffle entropy fuel array_size random_seed d.
  unfold gen_customized_puzzle, gen_sudoku_full.
  split; [|split; [|split]].
  - intros e ->. reflexivity.
  - intros Hneg. assert (Hp : 0 < 2 ^ 1023) by reflexivity.
    destruct (size_root_in_range array_size ltac:(lia)) as [Hn _].
    rewrite (Hn ltac:(lia)). reflexivity.
  - intros Hpos Hsq.
    destruct (size_root_in_range array_size) as [_ Hroot]; [lia|].
    destruct Hroot as [root ->]; [lia|].
    destruct (Z.eqb_spec array_size (root ^ 2)) as [E|_]; [|reflexivity].
    exfalso. apply (Hsq root). rewrite E at 1. apply Z.pow_2_r.
  - intros ->. change 0 with (0 * 0) at 1.
    rewrite (size_root_square 0) by lia. reflexivity.
Qed.

Lemma gen_customized_puzzle_size_errors_witness :
  size_root (10 ^ 401) = Raise OverflowError
  /\ gen_customized_puzzle unit unit unit_seed id_shuffle (fun _ => tt)
                           0 (10 ^ 401) None (1 # 2)
     = Some (Raise OverflowError)
  /\ gen_customized_puzzle unit unit unit_seed id_shuffle (fun _ => tt)
                           0 (-9) None (1 # 2)
     = Some (Raise TypeError)
  /\ gen_customized_puzzle unit unit unit_seed id_shuffle (fun _ => tt)
                           0 8 None (1 # 2)
     = Some (Raise InvalidSize)
  /\ gen_customized_puzzle unit unit unit_seed id_shuffle (fun _ => tt)
                           1 0 None (1 # 2)
     = Some (Raise ZeroSizeReduction).
Proof.
  assert (H8 : forall k, 8 <> k * k).
  { intros k Hk. assert (Hb : -3 < k < 3) by nia.
    assert (Hc : k = -2 \/ k = -1 \/ k = 0 \/ k = 1 \/ k = 2) by lia.
    destruct Hc as [-> | [-> | [-> | [-> | ->]]]]; discriminate. }
  assert (Hbig : size_root (10 ^ 401) = Raise OverflowError)
    by (vm_compute; reflexivity).
  split; [exact Hbig|]. split; [|split; [|split]].
  - apply (gen_customized_puzzle_size_errors unit unit unit_seed id_shuffle
             (fun _ => tt) 0 (10 ^ 401) None (1 # 2)). exact Hbig.
  - apply (gen_customized_puzzle_size_errors unit unit unit_seed id_shuffle
             (fun _ => tt) 0 (-9) None (1 # 2)). split; reflexivity.
  - apply (gen_customized_puzzle_size_errors unit unit unit_seed id_shuffle
             (fun _ => tt) 0 8 None (1 # 2)); [split; reflexivity | exact H8].
  - apply (gen_customized_puzzle_size_errors unit unit unit_seed id_shuffle
             (fun _ => tt) 0 0 None (1 # 2)). reflexivity.
Defined.

(** * Further properties of the domain calculator *)

Section DomainOrder.
Local Open Scope nat_scope.

Lemma combine_seq_nth : forall (a : grid) s,
  combine (seq s (length a)) a
  = map (fun x => (x, nth (x - s) a [])) (seq s (length a)).
Proof.
  induction a as [|r a IH]; intros s; [reflexivity|].
  cbn [length seq combine map]. rewrite Nat.sub_diag. f_equal.
  rewrite IH. apply map_ext_in. intros x Hx. apply in_seq in Hx.
  replace (x - s) with (S (x - S s)) by lia. reflexivity.
Qed.

Lemma filter_flat_map : forall (A B : Type) (f : B -> bool)
    (g : A -> list B) (l : list A),
  filter f (flat_map g l) = flat_map (fun x => filter f (g x)) l.
Proof.
  intros A B f g l. induction l as [|h t IH]; [reflexivity|].
  cbn [flat_map]. rewrite filter_app, IH. reflexivity.
Qed.

Lemma filter_map_swap : forall (A B : Type) (f : B -> bool) (g : A -> B)
    (l : list A),
  filter f (map g l) = map g (filter (fun x => f (g x)) l).
Proof.
  intros A B f g l. induction l as [|h t IH]; [reflexivity|].
  cbn [map filter]. destruct (f (g h)); cbn [map]; rewrite IH; reflexivity.
Qed.

Lemma flat_map_ext_In : forall (A B : Type) (f g : A -> list B) (l : list A),
  (forall x, In x l -> f x = g x) -> flat_map f l = flat_map g l.
Proof.
  intros A B f g l H. induction l as [|h t IH]; [reflexivity|].
  cbn [flat_map]. rewrite (H h (or_introl eq_refl)), IH; [reflexivity|].
  intros x Hx. apply H. right. exact Hx.
Qed.

(** [np.nonzero(a == 0)] lists the zero cells in row-major order. *)
Lemma nonzero_eq0_row_major : forall n0 a,
  square_shape n0 a ->
  nonzero_eq0 a
  = filter (fun p => (get a (fst p) (snd p) =? 0)%Z)
           (list_prod (seq 0 n0) (seq 0 n0)).
Proof.
  intros n0 a Hsq.
  pose proof (proj1 (square_shape_rows n0 a) Hsq) as [Hl Hrows].
  unfold nonzero_eq0. rewrite combine_seq_nth, Hl.
  rewrite flat_map_concat_map, map_map, <- flat_map_concat_map.
  assert (Hprod : forall l l' : list nat,
            list_prod l l' = flat_map (fun x => map (fun y => (x, y)) l') l).
  { intros l l'. induction l as [|h t IH]; [reflexivity|].
    cbn [list_prod flat_map]. rewrite IH. reflexivity. }
  rewrite Hprod, filter_flat_map.
  apply flat_map_ext_In. intros x Hx. apply in_seq in Hx.
  cbn [fst snd]. rewrite Nat.sub_0_r. unfold zeros_of_row.
  rewrite (Hrows x) by lia. rewrite filter_map_swap. reflexivity.
Qed.

Lemma NoDup_list_prod : forall (l l' : list nat),
  NoDup l -> NoDup l' -> NoDup (list_prod l l').
Proof.
  intros l l' Hl Hl'. induction Hl as [|h t Hnin Ht IH]; [constructor|].
  cbn [list_prod]. apply NoDup_app.
  - apply Injective_map_NoDup; [|exact Hl'].
    intros y y' E. inversion E. reflexivity.
  - exact IH.
  - intros [x y] Hin1 Hin2. apply in_map_iff in Hin1.
    destruct Hin1 as (y0 & E & _). inversion E; subst.
    apply in_prod_iff in Hin2. destruct Hin2 as [Hin2 _]. contradiction.
Qed.

End DomainOrder.

(** X8.  What the domain calculator returns for all the empty cells of an
    accepted array: the positions are the cells equal to 0 in row-major
    order, each once, and the candidate list of each position holds,
    without repetition, exactly the values of [1..N] that occur in no cell
    of its row, its column or its box. *)
Theorem available_digits_candidates :
  forall (n0 k : nat) (a : grid),
    grid_ok n0 k a ->
    exists avail pos_x pos_y,
      available_digits a None = Ok (avail, pos_x, pos_y)
      /\ combine pos_x pos_y
         = filter (fun p => get a (fst p) (snd p) =? 0)
                  (list_prod (seq 0 n0) (seq 0 n0))
      /\ length pos_x = count_zeros a /\ length pos_y = count_zeros a
      /\ length avail = count_zeros a
      /\ forall i, (i < count_zeros a)%nat ->
           let x := nth i pos_x 0%nat in
           let y := nth i pos_y 0%nat in
           (x < n0)%nat /\ (y < n0)%nat /\ get a x y = 0
           /\ NoDup (nth i avail [])
           /\ forall v, In v (nth i avail []) <->
                (1 <= v <= Z.of_nat n0
                 /\ forall x' y', (x' < n0)%nat -> (y' < n0)%nat ->
                      related k x y x' y' -> get a x' y' <> v).
Proof.
  intros n0 k a Hok.
  pose proof Hok as (Hsq & Hn & Hk & _).
  eexists _, _, _. split; [apply (available_digits_all n0 k a Hok)|].
  split; [rewrite combine_fst_snd; apply nonzero_eq0_row_major; exact Hsq|].
  rewrite !length_map, <- count_zeros_cells.
  split; [reflexivity|]. split; [reflexivity|]. split; [reflexivity|].
  intros i Hi. rewrite count_zeros_cells in Hi.
  destruct (cell_of_index n0 k a i Hok Hi)
    as (x & y & Ex & Ey & Ea & Hx & Hy & Hz).
  cbv zeta. rewrite Ex, Ey, Ea.
  split; [exact Hx|]. split; [exact Hy|]. split; [exact Hz|].
  split; [unfold avail_at; apply NoDup_filter, NoDup_range1|].
  intros v. apply (In_avail_at n0 k a x y v Hsq Hn Hk Hx Hy).
Qed.

Lemma available_digits_candidates_witness :
  grid_ok 4 2 g_clash
  /\ exists avail pos_x pos_y,
       available_digits g_clash None = Ok (avail, pos_x, pos_y)
       /\ combine pos_x pos_y
          = filter (fun p => get g_clash (fst p) (snd p) =? 0)
                   (list_prod (seq 0 4) (seq 0 4))
       /\ length avail = count_zeros g_clash.
Proof.
  split; [exact grid_ok_g_clash|].
  destruct (available_digits_candidates 4 2 g_clash grid_ok_g_clash)
    as (avail & pos_x & pos_y & E & Hpos & _ & _ & Hlen & _).
  exists avail, pos_x, pos_y. split; [exact E|].
  split; [exact Hpos | exact Hlen].
Defined.

(** X9.  The errors of the domain calculator and their order: the shape is
    tested first (a side that differs from the width, or is no perfect
    square), then the largest entry against the side, and the queried
    position last, so that an entry above [N] is reported even for a
    position outside the array; an array without cells passes the shape
    test and fails in numpy's maximum. *)
Theorem available_digits_errors :
  forall (a : grid) (pos : option (Z * Z)),
    (shape0 a <> shape1 a \/ (forall k : nat, shape0 a <> (k * k)%nat) ->
     available_digits a pos = Raise NotSquareGrid)
    /\ (a = [] -> available_digits a pos = Raise ZeroSizeReduction)
    /\ (forall n0 k x y,
          square_shape n0 a -> n0 = (k * k)%nat -> (0 < k)%nat ->
          (x < n0)%nat -> (y < n0)%nat -> Z.of_nat n0 < get a x y ->
          available_digits a pos = Raise ValueOverflow)
    /\ (forall n0 k px py,
          grid_ok n0 k a -> pos = Some (px, py) ->
          px < 0 \/ Z.of_nat n0 <= px \/ py < 0 \/ Z.of_nat n0 <= py ->
          available_digits a pos = Raise OutOfRange).
Proof.
  intros a pos. split; [|split; [|split]].
  - intros H. unfold available_digits.
    destruct (Nat.eqb_spec (shape0 a) (shape1 a)) as [E1|E1];
      [|reflexivity].
    destruct (Nat.eqb_spec (shape0 a) (Nat.sqrt (shape0 a) ^ 2)) as [E2|E2];
      [|reflexivity].
    exfalso. destruct H as [H|H]; [contradiction|].
    apply (H (Nat.sqrt (shape0 a))). rewrite E2 at 1. apply Nat.pow_2_r.
  - intros ->. reflexivity.
  - intros n0 k x y Hsq Hn Hk Hx Hy Hbig.
    pose proof (proj1 (square_shape_rows n0 a) Hsq) as [Hl Hrows].
    assert (H1 : shape1 a = n0).
    { unfold shape1. destruct a as [|r a']; [simpl in Hl; lia|].
      apply (Hrows 0%nat). lia. }
    unfold available_digits. unfold shape0 at 1 2 3. rewrite Hl, H1.
    rewrite Nat.eqb_refl. subst n0. rewrite Nat.sqrt_square, Nat.pow_2_r.
    rewrite Nat.eqb_refl. cbn [negb orb].
    assert (Hin : In (get a x y) (flatten a)).
    { apply (In_flatten (k * k) a _ Hsq). exists x, y. repeat split; auto. }
    destruct (np_max a) as [m|e] eqn:Emax.
    + destruct (np_max_spec a m Emax) as [_ Hmax]. cbn [bind].
      pose proof (Hmax _ Hin).
      destruct (Z.ltb_spec (Z.of_nat (shape0 a)) m) as [_|Hge];
        [reflexivity|].
      unfold shape0 in Hge. rewrite Hl in Hge. lia.
    + exfalso. unfold np_max in Emax.
      destruct (flatten a); [exact Hin | discriminate].
  - intros n0 k px py Hok -> Hout.
    destruct (grid_ok_checks n0 k a Hok) as (H0 & H1 & Hs & Hp).
    destruct (np_max_ok n0 k a Hok) as (m & Emax & Hm).
    unfold available_digits. rewrite H0, H1, Hs, <- Hp, Nat.eqb_refl, Emax.
    cbn [negb orb bind].
    destruct (Z.ltb_spec (Z.of_nat n0) m) as [Hlt|_]; [lia|].
    destruct (Z.ltb_spec px 0) as [_|H1']; [reflexivity|].
    destruct (Z.geb_spec px (Z.of_nat n0)) as [_|H2]; [reflexivity|].
    destruct (Z.ltb_spec py 0) as [_|H3]; [reflexivity|].
    destruct (Z.geb_spec py (Z.of_nat n0)) as [_|H4]; [reflexivity|].
    lia.
Qed.

Lemma available_digits_errors_witness :
  available_digits [[1; 2]; [3; 4]] None = Raise NotSquareGrid
  /\ available_digits [] None = Raise ZeroSizeReduction
  /\ available_digits g_dead (Some (4, 0)) = Raise OutOfRange.
Proof.
  split; [|split].
  - apply (available_digits_errors [[1; 2]; [3; 4]] None). right.
    intros k Hk. simpl in Hk. assert (Hb : (k < 2)%nat) by nia.
    destruct k as [|[|k]]; [discriminate | discriminate | lia].
  - apply (available_digits_errors [] None). reflexivity.
  - apply (available_digits_errors g_dead (Some (4, 0))) with (n0 := 4%nat)
                                                                (k := 2%nat)
                                                                (px := 4)
                                                                (py := 0).
    + split; [split; [reflexivity | repeat constructor]|].
      split; [reflexivity|]. split; [lia|].
      intros x y Hx Hy.
      do 4 (destruct x as [|x];
            [do 4 (destruct y as [|y]; [apply Z.leb_le; reflexivity|]); lia|]).
      lia.
    + reflexivity.
    + right. left. simpl. lia.
Defined.

(** X10.  The domain calculator on a complete valid grid: at a filled
    cell it returns no candidate, and at a cell that has just been cleared
    it returns the former value of the cell as the only candidate. *)
Theorem available_digits_complete_grid :
  forall (k : nat) (G : grid) (x y : nat),
    (0 < k)%nat -> shape0 G = (k * k)%nat -> complete_valid G ->
    (x < k * k)%nat -> (y < k * k)%nat ->
    available_digits G (Some (Z.of_nat x, Z.of_nat y)) = Ok ([[]], [x], [y])
    /\ available_digits (set_cell G x y 0) (Some (Z.of_nat x, Z.of_nat y))
       = Ok ([[get G x y]], [x], [y]).
Proof.
  intros k G x y Hk Hlen HG Hx Hy.
  pose proof (complete_grid_ok k G Hk Hlen HG) as Hok.
  pose proof (complete_square k G Hlen HG) as Hsq.
  split.
  - rewrite (available_digits_at (k * k) k G x y Hok Hx Hy).
    assert (E : avail_at G (k * k) k (x, y) = []).
    { destruct (avail_at G (k * k) k (x, y)) as [|v l] eqn:Ea;
        [reflexivity|].
      exfalso.
      assert (Hin : In v (avail_at G (k * k) k (x, y)))
        by (rewrite Ea; left; reflexivity).
      apply (In_avail_at (k * k) k G x y v Hsq eq_refl Hk Hx Hy) in Hin.
      destruct Hin as [Hv Hfree].
      assert (Hrow : In v (nth x G [])).
      { apply (Permutation_in _
                 (Permutation_sym (complete_rows k G Hlen HG x Hx))).
        apply In_range1. exact Hv. }
      apply (In_row (k * k) G x v Hsq Hx) in Hrow.
      destruct Hrow as (y' & Hy' & E).
      apply (Hfree x y' Hx Hy'); [left; reflexivity | exact E]. }
    rewrite E. reflexivity.
  - assert (Hok' : grid_ok (k * k) k (set_cell G x y 0))
      by (apply grid_ok_set_cell; [exact Hok | exact Hx | exact Hy | lia]).
    rewrite (available_digits_at (k * k) k _ x y Hok' Hx Hy).
    rewrite (cleared_cell_domain k G Hk Hlen HG x y Hx Hy). reflexivity.
Qed.

Lemma available_digits_complete_grid_witness :
  (0 < 2)%nat /\ shape0 g_two_a = (2 * 2)%nat /\ complete_valid g_two_a
  /\ available_digits g_two_a (Some (Z.of_nat 1, Z.of_nat 2))
     = Ok ([[]], [1%nat], [2%nat])
  /\ available_digits (set_cell g_two_a 1 2 0)
                      (Some (Z.of_nat 1, Z.of_nat 2))
     = Ok ([[get g_two_a 1 2]], [1%nat], [2%nat]).
Proof.
  split; [lia|]. split; [reflexivity|]. split; [exact g_two_a_valid|].
  apply (available_digits_complete_grid 2 g_two_a 1 2 ltac:(lia) eq_refl
           g_two_a_valid); simpl; lia.
Defined.

(** * The index conversion *)

Section ConvertLemmas.
Local Open Scope nat_scope.

Lemma upper_char_idem : forall c, upper_char (upper_char c) = upper_char c.
Proof.
  intros [[] [] [] [] [] [] [] []]; vm_compute; reflexivity.
Qed.

Lemma lower_char_idem : forall c, lower_char (lower_char c) = lower_char c.
Proof.
  intros [[] [] [] [] [] [] [] []]; vm_compute; reflexivity.
Qed.

Lemma upper_idem : forall s, upper (upper s) = upper s.
Proof.
  unfold upper. induction s as [|c s IH]; [reflexivity|].
  cbn [str_map]. rewrite upper_char_idem, IH. reflexivity.
Qed.

Lemma lower_idem : forall s, lower (lower s) = lower s.
Proof.
  unfold lower. induction s as [|c s IH]; [reflexivity|].
  cbn [str_map]. rewrite lower_char_idem, IH. reflexivity.
Qed.

(** The conversion of two strings sees them through [upper] and [lower]
    only. *)
Lemma convert_str_case : forall n x y,
  convert_str n x y = convert_str n (upper x) (lower y).
Proof.
  intros n x y. unfold convert_str. rewrite upper_idem, lower_idem.
  reflexivity.
Qed.

Lemma list_index_seq : forall n s i,
  i < n ->
  list_index Z.eqb (Z.of_nat (s + i)) (map Z.of_nat (seq s n)) = COk i.
Proof.
  induction n as [|n IH]; intros s i Hi; [lia|].
  cbn [seq map list_index].
  destruct (Z.eqb_spec (Z.of_nat s) (Z.of_nat (s + i))) as [E|E].
  - replace i with 0 by lia. reflexivity.
  - destruct i as [|i]; [exfalso; apply E; f_equal; lia|].
    replace (s + S i) with (S s + i) by lia.
    rewrite IH by lia. reflexivity.
Qed.

Lemma list_index_absent : forall (l : list Z) v,
  ~ In v l -> list_index Z.eqb v l = CRaise NotInList.
Proof.
  induction l as [|h t IH]; intros v Hn; [reflexivity|].
  cbn [list_index]. destruct (Z.eqb_spec h v) as [E|_].
  - exfalso. apply Hn. left. exact E.
  - rewrite IH; [reflexivity|]. intros H. apply Hn. right. exact H.
Qed.

Lemma array_xy_index : forall n x,
  (0 <= x < Z.of_nat n)%Z ->
  list_index Z.eqb x (array_xy n) = COk (Z.to_nat x).
Proof.
  intros n x Hx. unfold array_xy.
  rewrite <- (Z2Nat.id x) at 1 by lia.
  apply (list_index_seq n 0 (Z.to_nat x)). lia.
Qed.

Lemma array_xy_index_size : forall n,
  list_index Z.eqb (Z.of_nat n) (array_xy n) = CRaise NotInList.
Proof.
  intros n. apply list_index_absent. unfold array_xy. intros H.
  apply in_map_iff in H. destruct H as (i & E & Hi).
  apply in_seq in Hi. lia.
Qed.

Lemma array_xy_item : forall n i,
  i < n -> list_item (array_xy n) i = COk (Z.of_nat i).
Proof.
  intros n i Hi. unfold list_item, array_xy.
  rewrite nth_error_map, nth_error_nth' with (d := 0) by (rewrite length_seq; exact Hi).
  rewrite seq_nth by exact Hi. reflexivity.
Qed.

Lemma str_index_in : forall (l : list String.string) v,
  str_in v l = true ->
  exists i,
    list_index String.eqb v l = COk i
    /\ nth_error l i = Some v /\ i < length l.
Proof.
  unfold str_in. induction l as [|h t IH]; intros v H; [discriminate|].
  cbn [existsb] in H. cbn [list_index].
  destruct (String.eqb_spec h v) as [E|E].
  - exists 0. subst h. split; [reflexivity|]. split; [reflexivity|].
    simpl. lia.
  - destruct (String.eqb_spec v h) as [E'|_]; [congruence|].
    cbn [orb] in H. destruct (IH v H) as (i & Ei & Hn & Hl).
    exists (S i). rewrite Ei. split; [reflexivity|].
    split; [exact Hn | simpl; lia].
Qed.

Lemma length_display_x : forall n, length (display_x n) = Nat.min n 26.
Proof.
  intros n. unfold display_x, chars, ascii_uppercase.
  rewrite length_map, length_firstn, length_map, length_seq. reflexivity.
Qed.

Lemma length_display_y : forall n, length (display_y n) = Nat.min n 99.
Proof.
  intros n. unfold display_y, chars, slice.
  rewrite length_map, length_firstn, length_skipn.
  replace (1 + n - 1) with n by lia.
  change (length printable) with 100. reflexivity.
Qed.

Lemma roundtrip_26 : roundtrip_all 26 = true.
Proof. vm_compute. reflexivity. Qed.

Lemma roundtrip_all_spec : forall bound n x y,
  roundtrip_all bound = true -> n <= bound -> x < n -> y < n ->
  roundtrip_ok n x y = true.
Proof.
  intros bound n x y H Hn Hx Hy. unfold roundtrip_all in H.
  rewrite forallb_forall in H.
  specialize (H n ltac:(apply in_seq; lia)).
  rewrite forallb_forall in H.
  specialize (H x ltac:(apply in_seq; lia)).
  rewrite forallb_forall in H.
  apply H. apply in_seq. lia.
Qed.

Lemma roundtrip_cell : forall n x y,
  n <= 26 -> x < n -> y < n ->
  convert_int n (Z.of_nat x) (Z.of_nat y)
  = COk (row_letter x, column_symbol y)
  /\ upper (row_letter x) = row_letter x
  /\ lower (column_symbol y) = column_symbol y
  /\ convert_str n (row_letter x) (column_symbol y)
     = COk (Z.of_nat x, Z.of_nat y).
Proof.
  intros n x y Hn Hx Hy.
  pose proof (roundtrip_all_spec 26 n x y roundtrip_26 Hn Hx Hy) as H.
  unfold roundtrip_ok in H.
  destruct (convert_int n (Z.of_nat x) (Z.of_nat y)) as [[sx sy]|e];
    [|discriminate].
  apply andb_prop in H. destruct H as [H H5].
  apply andb_prop in H. destruct H as [H H4].
  apply andb_prop in H. destruct H as [H H3].
  apply andb_prop in H. destruct H as [H1 H2].
  apply String.eqb_eq in H1, H2, H3, H4. subst sx sy.
  split; [reflexivity|]. split; [exact H3|]. split; [exact H4|].
  destruct (convert_str n (row_letter x) (column_symbol y)) as [[vx vy]|e];
    [|discriminate].
  apply andb_prop in H5. destruct H5 as [H5 H6].
  apply Z.eqb_eq in H5, H6. subst. reflexivity.
Qed.

End ConvertLemmas.

Section RoundTrip.
Local Open Scope nat_scope.
Variable n : nat.
Hypothesis Hn : n <= 26.

Lemma int_loop_cells : forall xs ys cx cy,
  length xs = length ys ->
  (forall x, In x xs -> x < n) -> (forall y, In y ys -> y < n) ->
  convert_loop (convert_int n)
               (combine (map Z.of_nat xs) (map Z.of_nat ys)) cx cy
  = COk (cx ++ map row_letter xs, cy ++ map column_symbol ys).
Proof.
  induction xs as [|x xs IH]; intros [|y ys] cx cy Hlen Hxs Hys;
    try discriminate.
  - cbn. rewrite !app_nil_r. reflexivity.
  - cbn [map combine convert_loop].
    destruct (roundtrip_cell n x y Hn (Hxs x (or_introl eq_refl))
                             (Hys y (or_introl eq_refl))) as (E & _).
    rewrite E. cbn [cbind].
    rewrite IH.
    + rewrite <- !app_assoc. reflexivity.
    + simpl in Hlen. lia.
    + intros x' H'. apply Hxs. right. exact H'.
    + intros y' H'. apply Hys. right. exact H'.
Qed.

Lemma str_loop_cells : forall xs ys sxs sys cx cy,
  length xs = length ys ->
  (forall x, In x xs -> x < n) -> (forall y, In y ys -> y < n) ->
  map upper sxs = map row_letter xs ->
  map lower sys = map column_symbol ys ->
  convert_loop (convert_str n) (combine sxs sys) cx cy
  = COk (cx ++ map Z.of_nat xs, cy ++ map Z.of_nat ys).
Proof.
  induction xs as [|x xs IH];
    intros [|y ys] [|sx sxs] [|sy sys] cx cy Hlen Hxs Hys Ex Ey;
    try discriminate.
  - cbn. rewrite !app_nil_r. reflexivity.
  - cbn [map] in Ex, Ey. inversion Ex as [[Ex1 Ex2]].
    inversion Ey as [[Ey1 Ey2]].
    cbn [map combine convert_loop].
    destruct (roundtrip_cell n x y Hn (Hxs x (or_introl eq_refl))
                             (Hys y (or_introl eq_refl)))
      as (_ & _ & _ & E).
    rewrite convert_str_case, Ex1, Ey1, E. cbn [cbind].
    rewrite (IH ys sxs sys); try assumption.
    + rewrite <- !app_assoc. reflexivity.
    + simpl in Hlen. lia.
    + intros x' H'. apply Hxs. right. exact H'.
    + intros y' H'. apply Hys. right. exact H'.
Qed.

End RoundTrip.

(** X11.  The display index and back.  For a side [n <= 26] and two lists
    of the same length of row and column numbers inside the array,
    [convert_index] returns the capital letter of each row and the symbol
    of each column (the digits 1 to 9, then the small letters); given these
    display indices, in capital or in small letters, it returns the row
    and column numbers it started from. *)
Theorem convert_index_roundtrip :
  forall (n : nat) (xs ys : list nat),
    (n <= 26)%nat -> length xs = length ys ->
    (forall x, In x xs -> (x < n)%nat) ->
    (forall y, In y ys -> (y < n)%nat) ->
    convert_index n (IntLists (map Z.of_nat xs) (map Z.of_nat ys))
    = COk (DisplayIndex (map row_letter xs) (map column_symbol ys))
    /\ forall sxs sys,
         map upper sxs = map row_letter xs ->
         map lower sys = map column_symbol ys ->
         convert_index n (StrLists sxs sys)
         = COk (ArrayIndex (map Z.of_nat xs) (map Z.of_nat ys)).
Proof.
  intros n xs ys Hn Hlen Hxs Hys. split.
  - unfold convert_index. rewrite !length_map, Hlen, Nat.eqb_refl.
    cbn [negb].
    rewrite (int_loop_cells n Hn xs ys [] [] Hlen Hxs Hys). reflexivity.
  - intros sxs sys Hsx Hsy.
    assert (Hlx : length sxs = length xs)
      by (rewrite <- (length_map upper sxs), Hsx; apply length_map).
    assert (Hly : length sys = length ys)
      by (rewrite <- (length_map lower sys), Hsy; apply length_map).
    unfold convert_index. rewrite Hlx, Hly, Hlen, Nat.eqb_refl.
    cbn [negb].
    rewrite (str_loop_cells n Hn xs ys sxs sys [] [] Hlen Hxs Hys Hsx Hsy).
    reflexivity.
Qed.

Lemma convert_index_roundtrip_witness :
  (9 <= 26)%nat /\ length [0; 7]%nat = length [8; 3]%nat
  /\ convert_index 9 (IntLists (map Z.of_nat [0; 7]%nat)
                               (map Z.of_nat [8; 3]%nat))
     = COk (DisplayIndex (map row_letter [0; 7]%nat)
                         (map column_symbol [8; 3]%nat))
  /\ convert_index 9 (StrLists (map lower (map row_letter [0; 7]%nat))
                               (map column_symbol [8; 3]%nat))
     = COk (ArrayIndex (map Z.of_nat [0; 7]%nat) (map Z.of_nat [8; 3]%nat)).
Proof.
  assert (Hx : forall x, In x [0; 7]%nat -> (x < 9)%nat)
    by (intros x [<-|[<-|[]]]; lia).
  assert (Hy : forall y, In y [8; 3]%nat -> (y < 9)%nat)
    by (intros y [<-|[<-|[]]]; lia).
  split; [lia|]. split; [reflexivity|].
  destruct (convert_index_roundtrip 9 [0; 7]%nat [8; 3]%nat ltac:(lia)
              eq_refl Hx Hy) as [E1 E2].
  split; [exact E1|]. apply E2; reflexivity.
Defined.

(** X12.  Two integers, by their range.  A row or column number below 0
    or above [array_size] is refused with the overflow error of
    [convert_index]; the number [array_size] itself passes that test (it
    reads [x > array_size]) and fails in [list.index] instead; for a side
    up to 26 every number in [0, array_size) is converted; for a larger
    side a row number from 26 on, for which no letter is left, fails with
    an [IndexError]. *)
Theorem convert_index_int_range :
  forall (n : nat) (x y : Z),
    (x < 0 \/ Z.of_nat n < x \/ y < 0 \/ Z.of_nat n < y ->
     convert_index n (IntPair x y) = CRaise IndexOverflow)
    /\ (x = Z.of_nat n -> 0 <= y <= Z.of_nat n ->
        convert_index n (IntPair x y) = CRaise NotInList)
    /\ ((n <= 26)%nat -> 0 <= x < Z.of_nat n -> y = Z.of_nat n ->
        convert_index n (IntPair x y) = CRaise NotInList)
    /\ ((n <= 26)%nat -> 0 <= x < Z.of_nat n -> 0 <= y < Z.of_nat n ->
        convert_index n (IntPair x y)
        = COk (DisplayIndex [row_letter (Z.to_nat x)]
                            [column_symbol (Z.to_nat y)]))
    /\ (26 <= x < Z.of_nat n -> 0 <= y <= Z.of_nat n ->
        convert_index n (IntPair x y) = CRaise SubscriptError).
Proof.
  intros n x y.
  assert (Hpass : 0 <= x <= Z.of_nat n -> 0 <= y <= Z.of_nat n ->
            (x <? 0) || (x >? Z.of_nat n) || (y <? 0) || (y >? Z.of_nat n)
            = false).
  { intros Hx Hy. rewrite !Z.gtb_ltb.
    destruct (Z.ltb_spec x 0); [lia|].
    destruct (Z.ltb_spec (Z.of_nat n) x); [lia|].
    destruct (Z.ltb_spec y 0); [lia|].
    destruct (Z.ltb_spec (Z.of_nat n) y); [lia|]. reflexivity. }
  unfold convert_index. cbn [combine convert_loop].
  split; [|split; [|split; [|split]]].
  - intros H. unfold convert_int. rewrite !Z.gtb_ltb.
    destruct (Z.ltb_spec x 0); [reflexivity|].
    destruct (Z.ltb_spec (Z.of_nat n) x); [reflexivity|].
    destruct (Z.ltb_spec y 0); [reflexivity|].
    destruct (Z.ltb_spec (Z.of_nat n) y); [reflexivity|]. lia.
  - intros -> Hy. unfold convert_int.
    rewrite Hpass by lia. rewrite array_xy_index_size. reflexivity.
  - intros Hn Hx ->. unfold convert_int. rewrite Hpass by lia.
    rewrite (array_xy_index n x Hx). cbn [cbind].
    destruct (list_item (display_x n) (Z.to_nat x)) as [vx|e] eqn:Ei.
    + cbn [cbind]. rewrite array_xy_index_size. reflexivity.
    + exfalso. unfold list_item in Ei.
      destruct (nth_error (display_x n) (Z.to_nat x)) eqn:En;
        [discriminate|].
      apply nth_error_None in En. rewrite length_display_x in En. lia.
  - intros Hn Hx Hy.
    pose proof (roundtrip_cell n (Z.to_nat x) (Z.to_nat y) Hn
                               ltac:(lia) ltac:(lia)) as (E & _).
    rewrite !Z2Nat.id in E by lia. rewrite E. reflexivity.
  - intros Hx Hy. unfold convert_int. rewrite Hpass by lia.
    rewrite (array_xy_index n x) by lia. cbn [cbind].
    unfold list_item.
    destruct (nth_error (display_x n) (Z.to_nat x)) eqn:En;
      [|reflexivity].
    exfalso.
    assert (Hlt : (Z.to_nat x < length (display_x n))%nat)
      by (apply nth_error_Some; rewrite En; discriminate).
    rewrite length_display_x in Hlt. lia.
Qed.

Lemma convert_index_int_range_witness :
  convert_index 9 (IntPair 10 0) = CRaise IndexOverflow
  /\ convert_index 9 (IntPair 9 0) = CRaise NotInList
  /\ convert_index 9 (IntPair 3 4)
     = COk (DisplayIndex [row_letter (Z.to_nat 3)]
                         [column_symbol (Z.to_nat 4)])
  /\ convert_index 36 (IntPair 30 0) = CRaise SubscriptError.
Proof.
  split; [|split; [|split]].
  - destruct (convert_index_int_range 9 10 0) as (H & _).
    apply H. right. left. simpl. lia.
  - destruct (convert_index_int_range 9 9 0) as (_ & H & _).
    apply H; [reflexivity | simpl; lia].
  - destruct (convert_index_int_range 9 3 4) as (_ & _ & _ & H & _).
    apply H; simpl; lia.
  - destruct (convert_index_int_range 36 30 0) as (_ & _ & _ & _ & H).
    apply H; simpl; lia.
Defined.

(** X13.  Display indices, and lists that do not pair.  Two strings are
    converted exactly when the first, in capital letters, is one of the
    row letters of the side and the second, in small letters, one of its
    column symbols; the numbers returned are then the ranks of these
    symbols and lie inside the array; any other string is refused with
    the overflow error.  Two lists of different lengths are refused before
    any of their elements is looked at. *)
Theorem convert_index_str_range :
  forall (n : nat) (x y : String.string),
    (str_in (upper x) (display_x n) = false
     \/ str_in (lower y) (display_y n) = false ->
     convert_index n (StrPair x y) = CRaise IndexOverflow)
    /\ (str_in (upper x) (display_x n) = true ->
        str_in (lower y) (display_y n) = true ->
        exists i j,
          convert_index n (StrPair x y)
          = COk (ArrayIndex [Z.of_nat i] [Z.of_nat j])
          /\ (i < n)%nat /\ (i < 26)%nat /\ (j < n)%nat
          /\ nth_error (display_x n) i = Some (upper x)
          /\ nth_error (display_y n) j = Some (lower y))
    /\ (forall xs ys : list String.string,
          length xs <> length ys ->
          convert_index n (StrLists xs ys) = CRaise Unpaired)
    /\ (forall xs ys : list Z,
          length xs <> length ys ->
          convert_index n (IntLists xs ys) = CRaise Unpaired).
Proof.
  intros n x y. split; [|split; [|split]].
  - intros H. unfold convert_index. cbn [combine convert_loop].
    unfold convert_str.
    destruct H as [H|H]; rewrite H; cbn [negb orb];
      [reflexivity | rewrite orb_true_r; reflexivity].
  - intros Hx Hy.
    destruct (str_index_in _ _ Hx) as (i & Ei & Hi & Hli).
    destruct (str_index_in _ _ Hy) as (j & Ej & Hj & Hlj).
    rewrite length_display_x in Hli. rewrite length_display_y in Hlj.
    exists i, j. split.
    + unfold convert_index. cbn [combine convert_loop].
      unfold convert_str. rewrite Hx, Hy. cbn [negb orb].
      rewrite Ei. cbn [cbind]. rewrite (array_xy_item n i) by lia.
      cbn [cbind]. rewrite Ej. cbn [cbind].
      rewrite (array_xy_item n j) by lia. reflexivity.
    + split; [lia|]. split; [lia|]. split; [lia|].
      split; [exact Hi | exact Hj].
  - intros xs ys Hne. unfold convert_index.
    destruct (Nat.eqb_spec (length xs) (length ys)); [contradiction|].
    reflexivity.
  - intros xs ys Hne. unfold convert_index.
    destruct (Nat.eqb_spec (length xs) (length ys)); [contradiction|].
    reflexivity.
Qed.

Lemma convert_index_str_range_witness :
  str_in (upper (lower (row_letter 2))) (display_x 9) = true
  /\ str_in (lower (column_symbol 4)) (display_y 9) = true
  /\ exists i j,
       convert_index 9 (StrPair (lower (row_letter 2)) (column_symbol 4))
       = COk (ArrayIndex [Z.of_nat i] [Z.of_nat j])
       /\ (i < 9)%nat /\ (i < 26)%nat /\ (j < 9)%nat
       /\ nth_error (display_x 9) i = Some (upper (lower (row_letter 2)))
       /\ nth_error (display_y 9) j = Some (lower (column_symbol 4)).
Proof.
  split; [reflexivity|]. split; [reflexivity|].
  destruct (convert_index_str_range 9 (lower (row_letter 2))
                                    (column_symbol 4)) as (_ & H & _).
  apply H; reflexivity.
Defined.

Lemma wide_columns_checked : wide_columns_all 36 64 = true.
Proof. vm_compute. reflexivity. Qed.

Lemma wide_columns_all_spec : forall first count n y,
  wide_columns_all first count = true ->
  (first <= n < first + count)%nat -> (35 <= y < n)%nat -> (y < 61)%nat ->
  wide_column_ok n y = true.
Proof.
  intros first count n y H Hn Hy Hy'. unfold wide_columns_all in H.
  rewrite forallb_forall in H.
  specialize (H n ltac:(apply in_seq; lia)).
  rewrite forallb_forall in H.
  apply H. apply in_seq. lia.
Qed.

(** X14.  Beyond 35 columns the conversion is no longer its own inverse.
    For a side from 36 to 99, the symbol of a column from 35 to 60 is a
    capital letter; [convert_index] turns the symbol of a column into
    small letters before it looks it up, finds the small letter of the
    column 26 places to the left, and returns that column, with no
    error. *)
Theorem convert_index_wide_columns :
  forall n y : nat,
    (36 <= n <= 99)%nat -> (35 <= y < n)%nat -> (y < 61)%nat ->
    convert_index n (IntPair 0 (Z.of_nat y))
    = COk (DisplayIndex [row_letter 0] [row_letter (y - 35)])
    /\ convert_index n (StrPair (row_letter 0) (row_letter (y - 35)))
       = COk (ArrayIndex [0] [Z.of_nat (y - 26)]).
Proof.
  intros n y Hn Hy Hy'.
  pose proof (wide_columns_all_spec 36 64 n y wide_columns_checked
                                    ltac:(lia) Hy Hy') as H.
  unfold wide_column_ok in H.
  destruct (convert_index n (IntPair 0 (Z.of_nat y)))
    as [[?|[|sx [|? ?]] [|sy [|? ?]]]|?]; try discriminate.
  destruct (convert_index n (StrPair (row_letter 0) (row_letter (y - 35))))
    as [[[|vx [|? ?]] [|vy [|? ?]]|?]|?]; try discriminate.
  apply andb_prop in H. destruct H as [H H4].
  apply andb_prop in H. destruct H as [H H3].
  apply andb_prop in H. destruct H as [H1 H2].
  apply String.eqb_eq in H1, H2. apply Z.eqb_eq in H3, H4. subst.
  split; reflexivity.
Qed.

Lemma convert_index_wide_columns_witness :
  (36 <= 36 <= 99)%nat /\ (35 <= 35 < 36)%nat /\ (35 < 61)%nat
  /\ convert_index 36 (IntPair 0 (Z.of_nat 35))
     = COk (DisplayIndex [row_letter 0] [row_letter (35 - 35)])
  /\ convert_index 36 (StrPair (row_letter 0) (row_letter (35 - 35)))
     = COk (ArrayIndex [0] [Z.of_nat (35 - 26)]).
Proof.
  split; [lia|]. split; [lia|]. split; [lia|].
  apply (convert_index_wide_columns 36 35); lia.
Defined.

(** * Further properties of the full-grid generator *)

Section GeneratorBound.
Variables (rng seedT : Type) (seed_state : seedT -> rng).
Variable shuffle : forall A : Type, rng -> list A -> list A * rng.
Hypothesis shuffle_ok : shuffle_permutes rng shuffle.
Variable k : nat.
Hypothesis Hk : (0 < k)%nat.

Lemma gen_measure_start :
  gen_measure (k * k) []
  = (Z.of_nat (k * k) + 2) ^ Z.of_nat (k * k * (k * k)) - 1.
Proof.
  unfold gen_measure, horner. cbn [map fold_left length].
  rewrite Nat.sub_0_r. lia.
Qed.

Lemma gen_sudoku_full_within : forall random_seed fuel,
  Z.of_nat (k * k) < 2 ^ 53 ->
  (Z.of_nat (k * k) + 2) ^ Z.of_nat (k * k * (k * k)) <= Z.of_nat fuel ->
  exists g,
    gen_sudoku_full rng seedT seed_state shuffle fuel
                    (Z.of_nat (k * k)) random_seed = Some (Ok g)
    /\ square_shape (k * k) g /\ complete_valid g.
Proof.
  intros random_seed fuel Hsize Hf.
  assert (Hsq : Z.of_nat k ^ 2 = Z.of_nat (k * k)).
  { rewrite Nat2Z.inj_mul. apply Z.pow_2_r. }
  unfold gen_sudoku_full.
  rewrite (size_root_side k Hsize), Hsq, Z.eqb_refl.
  simpl negb. cbv iota. rewrite Nat2Z.id.
  destruct (gen_loop_ok rng (k * k) k (shifted_grid k) Hk eq_refl
              (shifted_grid_valid k Hk) (shape0_shifted_grid k)
              shuffle shuffle_ok fuel
              (gen_init rng seedT seed_state (k * k) random_seed) 0
              (gen_init_inv rng seedT seed_state k Hk random_seed))
    as (st_f & d' & E & I & L).
  { simpl gs_avail. rewrite gen_measure_start. lia. }
  exists (gs_full st_f). split; [exact E|].
  apply (gen_inv_final rng (k * k) k (shifted_grid k) Hk eq_refl
                       (shape0_shifted_grid k) st_f d' I L).
Qed.

(** Beyond 53 bits the size check, made on floats, can refuse a perfect
    square. *)
Lemma gen_sudoku_full_wide_square : forall random_seed fuel,
  gen_sudoku_full rng seedT seed_state shuffle fuel ((2 ^ 53 + 1) ^ 2)
                  random_seed
  = Some (Raise InvalidSize).
Proof.
  intros random_seed fuel. unfold gen_sudoku_full.
  replace (size_root ((2 ^ 53 + 1) ^ 2)) with (Ok (A := Z) (2 ^ 53))
    by (vm_compute; reflexivity).
  reflexivity.
Qed.

Lemma reachable_partial : forall random_seed st,
  gen_reachable rng shuffle (k * k)
                (gen_init rng seedT seed_state (k * k) random_seed) st ->
  let m := length (gs_avail st) in
  gs_i st = Z.of_nat m /\ (m <= k * k * (k * k))%nat
  /\ square_shape (k * k) (gs_full st)
  /\ (forall j, (j < m)%nat ->
        1 <= cellv (k * k) (gs_full st) j <= Z.of_nat (k * k))
  /\ (forall j, (m <= j < k * k * (k * k))%nat ->
        cellv (k * k) (gs_full st) j = 0)
  /\ (forall j j', (j' < j)%nat -> (j < m)%nat -> rel_idx (k * k) k j j' ->
        cellv (k * k) (gs_full st) j' <> cellv (k * k) (gs_full st) j).
Proof.
  intros random_seed st Hreach m.
  destruct (gen_reachable_inv rng seedT seed_state shuffle shuffle_ok k Hk
                              random_seed st Hreach)
    as (d & Hi & Hm & (Hsq & _) & Hcell & Hframe & Hne & _).
  fold m in Hi, Hm, Hcell, Hframe, Hne.
  assert (Hhd : forall j, (j < m)%nat ->
            cellv (k * k) (gs_full st) j = hd 0 (nth j (gs_avail st) [])
            /\ In (hd 0 (nth j (gs_avail st) [])) (nth j (gs_avail st) [])).
  { intros j Hj. split.
    - rewrite (Hcell j ltac:(lia)).
      destruct (Nat.ltb_spec j m); [reflexivity | lia].
    - specialize (Hne j Hj).
      destruct (nth j (gs_avail st) []) as [|v l]; [contradiction|].
      left. reflexivity. }
  split; [exact Hi|]. split; [exact Hm|]. split; [exact Hsq|].
  split; [|split].
  - intros j Hj. destruct (Hhd j Hj) as [E Hin]. rewrite E.
    apply (Hframe j _ Hj Hin).
  - intros j Hj. rewrite (Hcell j ltac:(lia)).
    destruct (Nat.ltb_spec j m); [lia | reflexivity].
  - intros j j' Hlt Hj Hrel. destruct (Hhd j Hj) as [E Hin]. rewrite E.
    apply (proj2 (Hframe j _ Hj Hin) j' Hlt Hrel).
Qed.

End GeneratorBound.

(** X15.  The generator succeeds for every side [N = k * k], [k >= 1], of
    53 bits or fewer (the side 1 and the sides above 25 included), for
    every seed and whatever permutations the shuffles return: it returns
    an array of side [N] in which every row, column and box is a
    permutation of [1..N], and its loop makes fewer than
    [(N + 2) ^ (N * N)] turns.  The bound on the side is not idle: the
    size check is made on floats, and refuses the square of [2 ^ 53 + 1]. *)
Theorem gen_sudoku_full_every_side :
  forall (rng seedT : Type) (seed_state : seedT -> rng)
         (shuffle : forall A : Type, rng -> list A -> list A * rng),
    shuffle_permutes rng shuffle ->
    forall (k : nat) (random_seed : seedT) (fuel : nat),
      (0 < k)%nat -> Z.of_nat (k * k) < 2 ^ 53 ->
      (Z.of_nat (k * k) + 2) ^ Z.of_nat (k * k * (k * k)) <= Z.of_nat fuel ->
      (exists g,
         gen_sudoku_full rng seedT seed_state shuffle fuel
                         (Z.of_nat (k * k)) random_seed = Some (Ok g)
         /\ square_shape (k * k) g /\ complete_valid g)
      /\ gen_sudoku_full rng seedT seed_state shuffle fuel
                         ((2 ^ 53 + 1) ^ 2) random_seed
         = Some (Raise InvalidSize).
Proof.
  intros rng seedT seed_state shuffle Hsh k random_seed fuel Hk Hsize Hf.
  split.
  - apply (gen_sudoku_full_within rng seedT seed_state shuffle Hsh k Hk
                                  random_seed fuel Hsize Hf).
  - apply gen_sudoku_full_wide_square.
Qed.

Lemma gen_sudoku_full_every_side_witness :
  shuffle_permutes unit id_shuffle /\ (0 < 2)%nat
  /\ Z.of_nat (2 * 2) < 2 ^ 53
  /\ (Z.of_nat (2 * 2) + 2) ^ Z.of_nat (2 * 2 * (2 * 2))
     <= Z.of_nat (Z.to_nat (6 ^ 16))
  /\ (exists g,
        gen_sudoku_full unit unit unit_seed id_shuffle (Z.to_nat (6 ^ 16))
                        (Z.of_nat (2 * 2)) tt
        = Some (Ok g)
        /\ square_shape (2 * 2) g /\ complete_valid g).
Proof.
  assert (Hf : (Z.of_nat (2 * 2) + 2) ^ Z.of_nat (2 * 2 * (2 * 2))
               <= Z.of_nat (Z.to_nat (6 ^ 16))).
  { rewrite Z2Nat.id by (apply Z.pow_nonneg; lia). apply Z.le_refl. }
  split; [exact id_shuffle_permutes|]. split; [lia|].
  split; [reflexivity|]. split; [exact Hf|].
  apply (gen_sudoku_full_every_side unit unit unit_seed id_shuffle
           id_shuffle_permutes 2 tt (Z.to_nat (6 ^ 16)));
    [lia | reflexivity | exact Hf].
Defined.

(** X16.  The invariant of the backtracking loop.  In every state that the
    loop of the generator reaches, the cursor is the number of frames on
    the stack, the cells before the cursor hold values of [1..N] of which
    no two in the same row, column or box are equal, and the cells from
    the cursor on are empty: the array is at every turn a duplicate-free
    partial grid filled in row-major order. *)
Theorem gen_sudoku_full_partial_grid :
  forall (rng seedT : Type) (seed_state : seedT -> rng)
         (shuffle : forall A : Type, rng -> list A -> list A * rng),
    shuffle_permutes rng shuffle ->
    forall (k : nat) (random_seed : seedT) (st : gen_state rng),
      (0 < k)%nat ->
      gen_reachable rng shuffle (k * k)
                    (gen_init rng seedT seed_state (k * k) random_seed) st ->
      let m := length (gs_avail st) in
      gs_i st = Z.of_nat m /\ (m <= k * k * (k * k))%nat
      /\ square_shape (k * k) (gs_full st)
      /\ (forall j, (j < m)%nat ->
            1 <= cellv (k * k) (gs_full st) j <= Z.of_nat (k * k))
      /\ (forall j, (m <= j < k * k * (k * k))%nat ->
            cellv (k * k) (gs_full st) j = 0)
      /\ (forall j j', (j' < j)%nat -> (j < m)%nat ->
            rel_idx (k * k) k j j' ->
            cellv (k * k) (gs_full st) j' <> cellv (k * k) (gs_full st) j).
Proof.
  intros rng seedT seed_state shuffle Hsh k random_seed st Hk Hreach.
  apply (reachable_partial rng seedT seed_state shuffle Hsh k Hk
                           random_seed st Hreach).
Qed.

Lemma gen_sudoku_full_partial_grid_witness :
  shuffle_permutes unit id_shuffle /\ (0 < 2)%nat
  /\ gen_reachable unit id_shuffle (2 * 2)
                   (gen_init unit unit unit_seed (2 * 2) tt)
                   (gen_init unit unit unit_seed (2 * 2) tt)
  /\ square_shape (2 * 2) (gs_full (gen_init unit unit unit_seed (2 * 2) tt)).
Proof.
  split; [exact id_shuffle_permutes|]. split; [lia|].
  split; [apply gr_start|].
  apply (gen_sudoku_full_partial_grid unit unit unit_seed id_shuffle
           id_shuffle_permutes 2 tt
           (gen_init unit unit unit_seed (2 * 2) tt) ltac:(lia)).
  apply gr_start.
Defined.

(** * The puzzle identifiers of a session *)

Section SeedLemmas.
Local Open Scope nat_scope.

Lemma strip_digits_spec : forall r acc,
  exists ds,
    strip_digits r acc = (rev (skipn (length ds) r), acc ++ ds)
    /\ r = ds ++ skipn (length ds) r
    /\ forallb isdigit ds = true
    /\ (forall c r', skipn (length ds) r = c :: r' -> isdigit c = false).
Proof.
  induction r as [|c r IH]; intros acc.
  - exists []. cbn. rewrite app_nil_r. repeat split; try reflexivity.
    intros c r' H. discriminate.
  - cbn [strip_digits]. destruct (isdigit c) eqn:Ec.
    + destruct (IH (acc ++ [c])) as (ds & E & Hr & Hd & Hlast).
      exists (c :: ds). cbn [length skipn app forallb].
      rewrite E, <- app_assoc, Ec. cbn [app andb].
      split; [reflexivity|]. split; [f_equal; exact Hr|].
      split; [exact Hd | exact Hlast].
    + exists []. cbn [length skipn app forallb]. rewrite app_nil_r.
      split; [reflexivity|]. split; [reflexivity|]. split; [reflexivity|].
      intros c' r' H. inversion H; subst. exact Ec.
Qed.

(** An ASCII character that passes [isdigit] is a decimal digit. *)
Lemma digit_char : forall c d,
  (Ascii.nat_of_ascii c <? 128) = true -> isdigit c = true ->
  exists d', DecimalString.uint_of_char c (Some d) = Some d'.
Proof.
  intros [[] [] [] [] [] [] [] []] d Ha H; try discriminate Ha;
    try discriminate H; eexists; reflexivity.
Qed.

Lemma digits_parse : forall l,
  ascii_seed l = true -> forallb isdigit l = true ->
  exists d,
    DecimalString.NilEmpty.uint_of_string (String.string_of_list_ascii l)
    = Some d.
Proof.
  induction l as [|c l IH]; intros Ha H.
  - exists Decimal.Nil. reflexivity.
  - cbn [forallb] in H. apply andb_prop in H. destruct H as [Hc Hl].
    unfold ascii_seed in Ha. cbn [forallb] in Ha.
    apply andb_prop in Ha. destruct Ha as [Hac Hal].
    destruct (IH Hal Hl) as [d Ed].
    cbn [String.string_of_list_ascii
           DecimalString.NilEmpty.uint_of_string].
    rewrite Ed. apply digit_char; assumption.
Qed.

(** [int] reads a string of ASCII digits within the limit. *)
Lemma digits_int : forall l,
  ascii_seed l = true -> forallb isdigit l = true -> l <> [] ->
  length l <= int_max_str_digits ->
  exists n, int_of_digits l = Some n /\ decimal_value l = Some n.
Proof.
  intros l Ha H Hne Hlen. destruct (digits_parse l Ha H) as [d Ed].
  unfold int_of_digits. destruct l as [|c l']; [contradiction|].
  destruct (Nat.ltb_spec int_max_str_digits (length (c :: l'))); [lia|].
  unfold decimal_value. rewrite Ed. eexists. split; reflexivity.
Qed.

Lemma to_uint_nonnil : forall n, N.to_uint n <> Decimal.Nil.
Proof.
  intros [|p]; [discriminate|]. apply DecimalPos.Unsigned.to_uint_nonnil.
Qed.

Lemma str_of_N_nonempty : forall n, str_of_N n <> [].
Proof.
  intros n H. unfold str_of_N in H.
  pose proof (to_uint_nonnil n) as Hn.
  destruct (N.to_uint n); try contradiction; discriminate H.
Qed.

(** The digits written for [n] have the value [n]. *)
Lemma decimal_of_str : forall n, decimal_value (str_of_N n) = Some n.
Proof.
  intros n. unfold decimal_value, str_of_N.
  rewrite String.string_of_list_ascii_of_string.
  pose proof (to_uint_nonnil n) as Hn.
  replace (DecimalString.NilZero.string_of_uint (N.to_uint n))
    with (DecimalString.NilEmpty.string_of_uint (N.to_uint n))
    by (destruct (N.to_uint n); try reflexivity; contradiction).
  rewrite DecimalString.NilEmpty.usu. cbn [option_map].
  rewrite DecimalN.Unsigned.of_to. reflexivity.
Qed.

Lemma str_of_N_inj : forall a b, str_of_N a = str_of_N b -> a = b.
Proof.
  intros a b H. pose proof (decimal_of_str a) as Ha.
  rewrite H, decimal_of_str in Ha. inversion Ha. reflexivity.
Qed.

Lemma ascii_seed_app : forall a b,
  ascii_seed (a ++ b) = true -> ascii_seed a = true /\ ascii_seed b = true.
Proof.
  intros a b H. unfold ascii_seed in *. rewrite forallb_app in H.
  apply andb_prop in H. exact H.
Qed.

(** An ASCII seed within the limit, split at its longest suffix of
    digits. *)
Lemma seed_split : forall s,
  ascii_seed s = true -> length s <= int_max_str_digits ->
  exists digits,
    strip_digits (rev s) [] = (seed_prefix s, rev digits)
    /\ s = seed_prefix s ++ digits
    /\ forallb isdigit digits = true
    /\ (digits <> [] -> int_of_digits digits = Some (seed_number s))
    /\ (digits <> [] -> decimal_value digits = Some (seed_number s))
    /\ (digits = [] -> seed_number s = 0%N)
    /\ (forall p c, seed_prefix s = p ++ [c] -> isdigit c = false).
Proof.
  intros s Hascii Hlen.
  destruct (strip_digits_spec (rev s) []) as (ds & E & Hr & Hd & Hl).
  exists (rev ds). unfold seed_prefix, seed_number. rewrite E.
  cbn [fst snd app]. rewrite rev_involutive.
  assert (Hs : s = rev (skipn (length ds) (rev s)) ++ rev ds).
  { rewrite <- (rev_involutive s) at 1. rewrite Hr at 1.
    rewrite rev_app_distr. reflexivity. }
  split; [reflexivity|]. split; [exact Hs|].
  assert (Hd' : forallb isdigit (rev ds) = true).
  { apply forallb_forall. intros c Hc. apply in_rev in Hc.
    apply (proj1 (forallb_forall _ _) Hd c Hc). }
  assert (Ha' : ascii_seed (rev ds) = true).
  { rewrite Hs in Hascii. apply ascii_seed_app in Hascii. apply Hascii. }
  assert (Hlen' : length (rev ds) <= int_max_str_digits).
  { rewrite Hs, length_app in Hlen. lia. }
  split; [exact Hd'|]. split; [|split; [|split]].
  - intros Hne.
    destruct (digits_int (rev ds) Ha' Hd' Hne Hlen') as (n & En & _).
    rewrite En. reflexivity.
  - intros Hne.
    destruct (digits_int (rev ds) Ha' Hd' Hne Hlen') as (n & En & Ev).
    rewrite En. exact Ev.
  - intros Hnil. rewrite Hnil. reflexivity.
  - intros p c Hp.
    assert (Hsk : skipn (length ds) (rev s) = c :: rev p).
    { rewrite <- (rev_involutive (skipn (length ds) (rev s))), Hp.
      rewrite rev_app_distr. reflexivity. }
    apply (Hl c (rev p) Hsk).
Qed.

Lemma py_str_within : forall n,
  (n < 10 ^ N.of_nat int_max_str_digits)%N -> py_str n = Some (str_of_N n).
Proof.
  intros n H. unfold py_str. apply N.ltb_lt in H. rewrite H. reflexivity.
Qed.

Lemma seed_turns_later : forall t try_again v,
  2 < try_again ->
  (sv_seed_num v + N.of_nat t < 10 ^ N.of_nat int_max_str_digits)%N ->
  seed_turns t try_again v
  = Some (mk_seed_vars
            (match t with
             | O => sv_random_seed v
             | S _ => sv_seed_name v
                      ++ str_of_N (sv_seed_num v + N.of_nat t)
             end)
            (sv_seed_name v) (sv_seed_num v + N.of_nat t)).
Proof.
  induction t as [|t IH]; intros try_again [rs name num] Hta Hlim.
  - cbn. rewrite N.add_0_r. reflexivity.
  - cbn [seed_turns]. unfold seed_turn.
    destruct (Nat.eqb_spec try_again 2); [lia|].
    destruct (Nat.leb_spec 2 try_again); [|lia].
    cbn [sv_random_seed sv_seed_name sv_seed_num] in *.
    remember (10 ^ N.of_nat int_max_str_digits)%N as L eqn:EL.
    assert (Hstep : py_str (num + 1) = Some (str_of_N (num + 1))).
    { apply py_str_within. try rewrite <- EL. lia. }
    rewrite Hstep, IH;
      [|lia|cbn [sv_seed_num]; try rewrite <- EL; lia].
    cbn [sv_random_seed sv_seed_name sv_seed_num].
    replace (num + 1 + N.of_nat t)%N with (num + N.of_nat (S t))%N by lia.
    destruct t; [|reflexivity].
    replace (num + N.of_nat 1)%N with (num + 1)%N by lia. reflexivity.
Qed.

Lemma puzzle_seed_closed : forall s j,
  ascii_seed s = true -> length s <= int_max_str_digits ->
  (seed_number s + N.of_nat j < 10 ^ N.of_nat int_max_str_digits)%N ->
  puzzle_seed s (S j)
  = Some (match j with
          | O => s
          | S _ => seed_prefix s ++ str_of_N (seed_number s + N.of_nat j)
          end).
Proof.
  intros s j Hascii Hlen Hlim. unfold puzzle_seed. cbn [seed_turns].
  change (seed_turn 1 (mk_seed_vars s [] 0%N))
    with (Some (mk_seed_vars s [] 0%N)).
  destruct j as [|j]; [reflexivity|].
  cbn [seed_turns]. unfold seed_turn at 1. cbn [Nat.eqb Nat.leb].
  cbn [sv_random_seed].
  destruct (seed_split s Hascii Hlen)
    as (digits & E & _ & Hd & Hsome & _ & Hnone & _).
  rewrite E. rewrite length_rev, rev_involutive.
  assert (Hn : (if 0 <? length digits then int_of_digits digits
                else Some 0%N) = Some (seed_number s)).
  { destruct digits as [|c l].
    - cbn. rewrite Hnone; reflexivity.
    - cbn [length Nat.ltb Nat.leb]. apply Hsome. discriminate. }
  rewrite Hn. cbn [sv_seed_name sv_seed_num].
  remember (10 ^ N.of_nat int_max_str_digits)%N as L eqn:EL.
  assert (Hstep : py_str (seed_number s + 1)
                  = Some (str_of_N (seed_number s + 1))).
  { apply py_str_within. try rewrite <- EL. lia. }
  rewrite Hstep, seed_turns_later;
    [|lia|cbn [sv_seed_num]; try rewrite <- EL; lia].
  cbn [sv_random_seed sv_seed_name sv_seed_num option_map].
  replace (seed_number s + 1 + N.of_nat j)%N
    with (seed_number s + N.of_nat (S j))%N by lia.
  destruct j; [|reflexivity].
  replace (seed_number s + N.of_nat 1)%N with (seed_number s + 1)%N by lia.
  reflexivity.
Qed.

End SeedLemmas.

(** X17.  The seeds of a session that starts with an ASCII seed [s] no
    longer than the digit limit of [int].  The first puzzle has the seed
    [s].  At the first new puzzle the seed is split into a name and its
    longest suffix of digits, read as a number (0 when the seed ends with
    no digit); from then on, as long as the number stays within the digit
    limit of [str], the [j+1]-th puzzle has the seed made of the name and
    of that number plus [j], written without leading zeros. *)
Theorem puzzle_seed_sequence :
  forall (s : list Ascii.ascii) (j : nat),
    ascii_seed s = true -> (length s <= int_max_str_digits)%nat ->
    (seed_number s + N.of_nat j < 10 ^ N.of_nat int_max_str_digits)%N ->
    (exists digits,
        s = seed_prefix s ++ digits
        /\ forallb isdigit digits = true
        /\ (digits <> [] -> int_of_digits digits = Some (seed_number s))
        /\ (digits = [] -> seed_number s = 0%N)
        /\ (forall p c, seed_prefix s = p ++ [c] -> isdigit c = false))
    /\ puzzle_seed s 1 = Some s
    /\ ((1 <= j)%nat ->
        puzzle_seed s (S j)
        = Some (seed_prefix s ++ str_of_N (seed_number s + N.of_nat j))).
Proof.
  intros s j Hascii Hlen Hlim. split; [|split].
  - destruct (seed_split s Hascii Hlen)
      as (digits & _ & H1 & H2 & H3 & _ & H4 & H5).
    exists digits. split; [exact H1|]. split; [exact H2|].
    split; [exact H3|]. split; [exact H4 | exact H5].
  - apply (puzzle_seed_closed s 0 Hascii Hlen).
    remember (10 ^ N.of_nat int_max_str_digits)%N as L. lia.
  - intros Hj. rewrite (puzzle_seed_closed s j Hascii Hlen Hlim).
    destruct j; [lia | reflexivity].
Qed.

Lemma puzzle_seed_sequence_witness :
  ascii_seed [Ascii.ascii_of_nat 97; Ascii.ascii_of_nat 48;
              Ascii.ascii_of_nat 57] = true
  /\ (length [Ascii.ascii_of_nat 97; Ascii.ascii_of_nat 48;
              Ascii.ascii_of_nat 57] <= int_max_str_digits)%nat
  /\ (seed_number [Ascii.ascii_of_nat 97; Ascii.ascii_of_nat 48;
                   Ascii.ascii_of_nat 57] + N.of_nat 1
      < 10 ^ N.of_nat int_max_str_digits)%N
  /\ puzzle_seed [Ascii.ascii_of_nat 97; Ascii.ascii_of_nat 48;
                  Ascii.ascii_of_nat 57] 1
     = Some [Ascii.ascii_of_nat 97; Ascii.ascii_of_nat 48;
             Ascii.ascii_of_nat 57]
  /\ ((1 <= 1)%nat ->
      puzzle_seed [Ascii.ascii_of_nat 97; Ascii.ascii_of_nat 48;
                   Ascii.ascii_of_nat 57] 2
      = Some (seed_prefix [Ascii.ascii_of_nat 97; Ascii.ascii_of_nat 48;
                           Ascii.ascii_of_nat 57]
              ++ str_of_N (seed_number [Ascii.ascii_of_nat 97;
                                        Ascii.ascii_of_nat 48;
                                        Ascii.ascii_of_nat 57]
                           + N.of_nat 1))).
Proof.
  assert (Ha : ascii_seed [Ascii.ascii_of_nat 97; Ascii.ascii_of_nat 48;
                           Ascii.ascii_of_nat 57] = true)
    by (vm_compute; reflexivity).
  assert (Hl : (length [Ascii.ascii_of_nat 97; Ascii.ascii_of_nat 48;
                        Ascii.ascii_of_nat 57] <= int_max_str_digits)%nat)
    by (apply Nat.leb_le; vm_compute; reflexivity).
  assert (Hn : (seed_number [Ascii.ascii_of_nat 97; Ascii.ascii_of_nat 48;
                             Ascii.ascii_of_nat 57] + N.of_nat 1
                < 10 ^ N.of_nat int_max_str_digits)%N)
    by (apply N.ltb_lt; vm_compute; reflexivity).
  split; [exact Ha|]. split; [exact Hl|]. split; [exact Hn|].
  destruct (puzzle_seed_sequence [Ascii.ascii_of_nat 97;
                                  Ascii.ascii_of_nat 48;
                                  Ascii.ascii_of_nat 57] 1 Ha Hl Hn)
    as (_ & H1 & H2).
  split; [exact H1 | exact H2].
Defined.

(** X18.  No puzzle identifier comes twice in a session that starts with
    an ASCII seed no longer than the digit limit of [int], as long as the
    number of the seed stays within the digit limit of [str]: the seeds
    of two different puzzles of the session are different. *)
Theorem puzzle_seed_distinct :
  forall (s : list Ascii.ascii) (i j : nat),
    ascii_seed s = true -> (length s <= int_max_str_digits)%nat ->
    (seed_number s + N.of_nat j < 10 ^ N.of_nat int_max_str_digits)%N ->
    (1 <= i)%nat -> (i < j)%nat ->
    exists a b,
      puzzle_seed s i = Some a /\ puzzle_seed s j = Some b /\ a <> b.
Proof.
  intros s i j Hascii Hlen Hlim Hi Hij.
  destruct i as [|i]; [lia|]. destruct j as [|j]; [lia|].
  remember (10 ^ N.of_nat int_max_str_digits)%N as L eqn:EL.
  rewrite (puzzle_seed_closed s i Hascii Hlen) by (try rewrite <- EL; lia).
  rewrite (puzzle_seed_closed s j Hascii Hlen) by (try rewrite <- EL; lia).
  eexists _, _.
  split; [reflexivity|]. split; [reflexivity|].
  destruct j as [|j]; [lia|].
  destruct (seed_split s Hascii Hlen)
    as (digits & _ & Hs & _ & _ & Hsome & _).
  destruct i as [|i].
  - intros E. rewrite Hs in E at 1. apply app_inv_head in E.
    assert (Hne : digits <> [])
      by (rewrite E; apply str_of_N_nonempty).
    pose proof (Hsome Hne) as Hv. rewrite E, decimal_of_str in Hv.
    inversion Hv. lia.
  - intros E. apply app_inv_head in E. apply str_of_N_inj in E. lia.
Qed.

Lemma puzzle_seed_distinct_witness :
  ascii_seed [Ascii.ascii_of_nat 97; Ascii.ascii_of_nat 57] = true
  /\ (length [Ascii.ascii_of_nat 97; Ascii.ascii_of_nat 57]
      <= int_max_str_digits)%nat
  /\ (seed_number [Ascii.ascii_of_nat 97; Ascii.ascii_of_nat 57]
      + N.of_nat 2 < 10 ^ N.of_nat int_max_str_digits)%N
  /\ (1 <= 1)%nat /\ (1 < 2)%nat
  /\ exists a b,
       puzzle_seed [Ascii.ascii_of_nat 97; Ascii.ascii_of_nat 57] 1 = Some a
       /\ puzzle_seed [Ascii.ascii_of_nat 97; Ascii.ascii_of_nat 57] 2
          = Some b
       /\ a <> b.
Proof.
  assert (Ha : ascii_seed [Ascii.ascii_of_nat 97; Ascii.ascii_of_nat 57]
               = true) by (vm_compute; reflexivity).
  assert (Hl : (length [Ascii.ascii_of_nat 97; Ascii.ascii_of_nat 57]
                <= int_max_str_digits)%nat)
    by (apply Nat.leb_le; vm_compute; reflexivity).
  assert (Hn : (seed_number [Ascii.ascii_of_nat 97; Ascii.ascii_of_nat 57]
                + N.of_nat 2 < 10 ^ N.of_nat int_max_str_digits)%N)
    by (apply N.ltb_lt; vm_compute; reflexivity).
  split; [exact Ha|]. split; [exact Hl|]. split; [exact Hn|].
  split; [lia|]. split; [lia|].
  apply (puzzle_seed_distinct [Ascii.ascii_of_nat 97; Ascii.ascii_of_nat 57]
                              1 2 Ha Hl Hn); lia.
Defined.
